(** * cycle-store: a shallow embedding of [index.js]

    The development follows the build that the package exports
    ([index.js], the transpiled file) and, for [delete], also the ES2015
    source it was built from.

    - A store is a JavaScript object; its private data lives in the
      module-level [WeakMap] called [data].  The heap below plays the role
      of that [WeakMap]: a store reference is the allocation number of the
      store, and [data_get] is [data.get].
    - A readonly proxy ([Object.create(store)] with rebound methods) is a
      separate kind of reference: the [WeakMap] has no entry for it.
    - Every operation is a state transformer in a small monad that also
      records thrown errors together with the state at the throw.
    - The event broker (cycle-events) and the observables (rxjs) are
      external libraries.  The broker is modelled as a synchronous log of
      emitted events; observables are modelled as the terms that [get]
      builds, and a subscription as the tree of live listeners of such a
      term.  Listeners are passive: a subscriber only records what it
      receives.
    - A JavaScript string is modelled by the [string] of the bytes of its
      UTF-8 encoding (a lone surrogate encoded like any other code point
      of three bytes), so every JavaScript string has one such [string].
      The slash and the digits are single bytes that occur nowhere
      inside the encoding of another code point. *)

From Stdlib Require Import ZArith NArith Lia Ascii String.
From stdpp Require Import base list strings.

Local Open Scope string_scope.
Local Open Scope nat_scope.
Local Open Scope list_scope.
Local Open Scope stdpp_scope.

(** ** Strings: [trim], [isEmpty], [split] *)

(** The code points matched by the regular expression class [\s], by
    the bytes of their encoding: U+0009 to U+000D and U+0020 in one
    byte; U+00A0 in two; U+1680, U+2000 to U+200A, U+2028, U+2029,
    U+202F, U+205F, U+3000 and U+FEFF in three. *)
Definition ws1 (a : ascii) : bool :=
  let a := N_of_ascii a in
  ((9 <=? a) && (a <=? 13) || (a =? 32))%N.

Definition ws2 (a b : ascii) : bool :=
  let a := N_of_ascii a in
  let b := N_of_ascii b in
  ((a =? 194) && (b =? 160))%N.

Definition ws3 (a b c : ascii) : bool :=
  let a := N_of_ascii a in
  let b := N_of_ascii b in
  let c := N_of_ascii c in
  ((a =? 225) && (b =? 154) && (c =? 128) ||
   (a =? 226) && (b =? 128) &&
     ((128 <=? c) && (c <=? 138) || (c =? 168) || (c =? 169) || (c =? 175)) ||
   (a =? 226) && (b =? 129) && (c =? 159) ||
   (a =? 227) && (b =? 128) && (c =? 128) ||
   (a =? 239) && (b =? 187) && (c =? 191))%N.

(** A string of whitespace code points only; the empty string is one. *)
Fixpoint whitespaceOnly (s : string) : bool :=
  match s with
  | EmptyString => true
  | String a r1 =>
      if ws1 a then whitespaceOnly r1
      else
        match r1 with
        | String b r2 =>
            if ws2 a b then whitespaceOnly r2
            else
              match r2 with
              | String c r3 => ws3 a b c && whitespaceOnly r3
              | EmptyString => false
              end
        | EmptyString => false
        end
  end.

(** [s.replace(/^\s+/, '')]: the whitespace code points in front are
    dropped. *)
Fixpoint trimStart (s : string) : string :=
  match s with
  | EmptyString => EmptyString
  | String a r1 =>
      if ws1 a then trimStart r1
      else
        match r1 with
        | String b r2 =>
            if ws2 a b then trimStart r2
            else
              match r2 with
              | String c r3 => if ws3 a b c then trimStart r3 else s
              | EmptyString => s
              end
        | EmptyString => s
        end
  end.

(** [s.replace(/\s+$/, '')]: the longest run of whitespace code points
    that ends the string is dropped. *)
Fixpoint trimEnd (s : string) : string :=
  if whitespaceOnly s then EmptyString
  else
    match s with
    | EmptyString => EmptyString
    | String a r => String a (trimEnd r)
    end.

(** lodash [trim] without a [chars] argument. *)
Definition trim (s : string) : string := trimEnd (trimStart s).

(** lodash [isEmpty] on a string. *)
Definition isEmpty (s : string) : bool :=
  match s with EmptyString => true | _ => false end.

(** [s.split(sep)] for a one-character separator; the result is never
    the empty list. *)
Fixpoint split (sep : ascii) (s : string) : list string :=
  match s with
  | EmptyString => [EmptyString]
  | String c r =>
      if Ascii.eqb c sep then EmptyString :: split sep r
      else match split sep r with
           | h :: t => String c h :: t
           | [] => [String c EmptyString]
           end
  end.

(** [names.pop()]: the last element (if any) and the shortened array. *)
Definition pop {A} (l : list A) : option A * list A := (last l, removelast l).

(** ** JavaScript values *)

Abbreviation sid := nat (only parsing).

(** A reference to a store instance or to a readonly proxy over one.
    [readonly] builds a new proxy object on every call; the model does
    not tell the proxies of one store apart: [RView s] reads "a readonly
    proxy over [s]", and nothing below speaks of the identity of a
    proxy. *)
Inductive Ref :=
  | RStore (s : sid)
  | RView (s : sid).

Definition target (r : Ref) : sid :=
  match r with RStore s | RView s => s end.

Inductive jsval :=
  | VUndefined
  | VNull
  | VBool (b : bool)
  | VNumber (n : Z)
  | VNaN
  | VString (s : string)
  | VStringObject (s : string)      (* [new String(s)] *)
  | VStore (r : Ref)
  | VScheduler (o : nat) (runs : bool)
      (* an object with a method [schedule]; the method either runs the
         work it is handed at once, or never runs it *)
  | VObject (o : nat).              (* any other object *)

(** lodash [isString]: a string or a String object. *)
Definition isString (v : jsval) : bool :=
  match v with VString _ | VStringObject _ => true | _ => false end.

(** rxjs [isScheduler]: a value with a method [schedule]. *)
Definition isScheduler (v : jsval) : bool :=
  match v with VScheduler _ _ => true | _ => false end.

(** lodash [isUndefined]. *)
Definition isUndefined (v : jsval) : bool :=
  match v with VUndefined => true | _ => false end.

(** [!!v]. *)
Definition truthy (v : jsval) : bool :=
  match v with
  | VUndefined | VNull | VNaN => false
  | VBool b => b
  | VNumber n => negb (n =? 0)%Z
  | VString s => negb (isEmpty s)
  | VStringObject _ | VStore _ | VScheduler _ _ | VObject _ => true
  end.

(** [v instanceof Store]: proxies inherit from the store they wrap. *)
Definition instanceofStore (v : jsval) : bool :=
  match v with VStore _ => true | _ => false end.

(** ** The [Map] of items: insertion ordered *)

Section JSMap.
Context {V : Type}.

Fixpoint Map_get (m : list (string * V)) (k : string) : option V :=
  match m with
  | [] => None
  | (k', v) :: r => if String.eqb k' k then Some v else Map_get r k
  end.

Definition Map_has (m : list (string * V)) (k : string) : bool :=
  match Map_get m k with Some _ => true | None => false end.

Fixpoint Map_set (m : list (string * V)) (k : string) (v : V) : list (string * V) :=
  match m with
  | [] => [(k, v)]
  | (k', v') :: r =>
      if String.eqb k' k then (k', v) :: r else (k', v') :: Map_set r k v
  end.

Fixpoint Map_delete (m : list (string * V)) (k : string) : list (string * V) :=
  match m with
  | [] => []
  | (k', v') :: r =>
      if String.eqb k' k then Map_delete r k else (k', v') :: Map_delete r k
  end.
End JSMap.

(** ** The [children] object: a plain object literal *)

(** The property names that every plain object inherits from
    [Object.prototype]. *)
Definition Object_prototype_keys : list string :=
  [ "constructor"; "hasOwnProperty"; "isPrototypeOf"; "propertyIsEnumerable";
    "toLocaleString"; "toString"; "valueOf"; "__proto__";
    "__defineGetter__"; "__defineSetter__"; "__lookupGetter__";
    "__lookupSetter__" ].

Definition inObjectPrototype (k : string) : bool :=
  existsb (String.eqb k) Object_prototype_keys.

(** What [children[name]] evaluates to. *)
Inductive Lookup :=
  | LOwn (c : sid)          (* an own property: a child store *)
  | LInherited              (* a member of [Object.prototype] *)
  | LUndefined.

Definition Object_get (o : list (string * sid)) (k : string) : Lookup :=
  match Map_get o k with
  | Some c => LOwn c
  | None => if inObjectPrototype k then LInherited else LUndefined
  end.

(** [children[name] = child] for a name that is not inherited. *)
Definition Object_set (o : list (string * sid)) (k : string) (c : sid) :
  list (string * sid) := Map_set o k c.

(** Own keys are enumerated with array indices first, in ascending
    order, and the other names in insertion order. *)
Definition digit (c : ascii) : option N :=
  let n := N_of_ascii c in
  if ((48 <=? n) && (n <=? 57))%N then Some (n - 48)%N else None.

Fixpoint parseDigits (acc : N) (s : string) : option N :=
  match s with
  | EmptyString => Some acc
  | String c r =>
      match digit c with
      | Some d => parseDigits (acc * 10 + d)%N r
      | None => None
      end
  end.

Definition arrayIndex (s : string) : option N :=
  match s with
  | EmptyString => None
  | String c r =>
      if Ascii.eqb c "0"%char then
        match r with EmptyString => Some 0%N | _ => None end
      else
        match parseDigits 0 s with
        | Some n => if (n <? 4294967295)%N then Some n else None
        | None => None
        end
  end.

Fixpoint insertSorted {A} (i : N) (x : A) (l : list (N * A)) : list (N * A) :=
  match l with
  | [] => [(i, x)]
  | (j, y) :: r =>
      if (i <? j)%N then (i, x) :: l else (j, y) :: insertSorted i x r
  end.

Definition indexed {A} (o : list (string * A)) : list (N * A) :=
  foldr (fun kv acc =>
           match arrayIndex kv.1 with
           | Some i => insertSorted i kv.2 acc
           | None => acc
           end) [] o.

Definition named {A} (o : list (string * A)) : list A :=
  omap (fun kv => match arrayIndex kv.1 with
                  | Some _ => None
                  | None => Some kv.2
                  end) o.

(** The values visited by lodash [forOwn], in visiting order. *)
Definition Object_values {A} (o : list (string * A)) : list A :=
  (snd <$> indexed o) ++ named o.

(** ** Store data, events, observables *)

(** The entry that [data] holds for a store. *)
Record Meta := mkMeta {
  children : list (string * sid);
  parent : option Ref;
  items : list (string * jsval) }.

(** [Store.Events] with their payloads. *)
Inductive Event :=
  | ItemSet (name : string) (value : jsval)   (* 'item-set', {name, value} *)
  | ItemRemoved (name : string)               (* 'item-removed', {name} *)
  | StoreCleared                              (* 'store-cleared' *)
  | StoreAdded (name : string) (child : sid). (* 'store-added', {name, child} *)

(** The observables that [get] builds.  [OItemSet store name] stands for
    [Observable.fromEvent(store, 'item-set').filter(matches({name: name})).pluck('value')]. *)
Inductive Obs :=
  | OItemSet (store : sid) (name : string)
  | OStartWith (value : jsval) (source : Obs)
  | OEmpty
  | OMerge (a b : Obs)
  | OTakeUntil (source notifier : Obs).

(** A live subscription to such an observable: the listeners it has
    registered, in the shape of the observable. *)
Inductive Sub :=
  | SListen (store : sid) (name : string)
  | SClosed
  | SNever                  (* nothing comes, and it does not complete *)
  | SMerge (a b : Sub)
  | STakeUntil (source notifier : Sub).

Fixpoint completed (s : Sub) : bool :=
  match s with
  | SListen _ _ => false
  | SClosed => true
  | SNever => false
  | SMerge a b => completed a && completed b
  | STakeUntil source _ => completed source
  end.

(** Subscribing: the listeners registered and the values delivered
    synchronously.  [merge] subscribes to its arguments from left to
    right; [takeUntil] subscribes to the notifier first and never lets a
    source value through once the notifier has produced one.
    [startWith(value)] takes a [value] with a method [schedule] for a
    scheduler: then it replays nothing, and it subscribes to its source
    when that method runs the work, which it does at once or never. *)
Fixpoint connect (o : Obs) : Sub * list jsval :=
  match o with
  | OItemSet store name => (SListen store name, [])
  | OStartWith value source =>
      match value with
      | VScheduler _ runs => if runs then connect source else (SNever, [])
      | _ => let '(s, out) := connect source in (s, value :: out)
      end
  | OEmpty => (SClosed, [])
  | OMerge a b =>
      let '(sa, outa) := connect a in
      let '(sb, outb) := connect b in
      (SMerge sa sb, outa ++ outb)
  | OTakeUntil source notifier =>
      let '(sn, outn) := connect notifier in
      match outn with
      | _ :: _ => (SClosed, [])
      | [] =>
          let '(ss, outs) := connect source in
          if completed ss then (SClosed, outs) else (STakeUntil ss sn, outs)
      end
  end.

(** One 'item-set' event [{name, value}] emitted by [store], seen by the
    listeners of a subscription in registration order. *)
Fixpoint deliver (store : sid) (name : string) (value : jsval) (s : Sub) :
  Sub * list jsval :=
  match s with
  | SListen store' name' =>
      (s, if Nat.eqb store' store && String.eqb name' name then [value] else [])
  | SClosed => (SClosed, [])
  | SNever => (SNever, [])
  | SMerge a b =>
      let '(a', outa) := deliver store name value a in
      let '(b', outb) := deliver store name value b in
      (SMerge a' b', outa ++ outb)
  | STakeUntil source notifier =>
      let '(n', outn) := deliver store name value notifier in
      match outn with
      | _ :: _ => (SClosed, [])
      | [] =>
          let '(s', outs) := deliver store name value source in
          if completed s' then (SClosed, outs) else (STakeUntil s' n', outs)
      end
  end.

(** A subscriber: its listeners and everything its [onNext] received. *)
Record Subscription := mkSubscription {
  listeners : Sub;
  received : list jsval }.

Record World := mkWorld {
  heap : list Meta;
  emitted : list (sid * Event);
  subscriptions : list Subscription }.

Definition init : World := mkWorld [] [] [].

(** ** Errors and the monad of operations *)

Inductive Error :=
  | InvalidNameError        (* Parameter `name` must be a non-empty string *)
  | PathResolutionError     (* Path does not resolve to a Store. *)
  | ReadonlyViolationError  (* Ancestor Stores are read-only. *)
  | InvalidAncestorError    (* The argument provided must be a Store instance. *)
  | TypeError.              (* property access on undefined *)

Definition message (e : Error) : string :=
  match e with
  | InvalidNameError => "Parameter `name` must be a non-empty string"
  | PathResolutionError => "Path does not resolve to a Store."
  | ReadonlyViolationError => "Ancestor Stores are read-only."
  | InvalidAncestorError => "The argument provided must be a Store instance."
  | TypeError => "Cannot read property of undefined"
  end.

(** [Diverge] is the result of a loop or recursion that would not
    terminate (the model ran out of fuel). *)
Inductive Outcome (A : Type) :=
  | Return (a : A) (w : World)
  | Throw (e : Error) (w : World)
  | Diverge.
Arguments Return {A} a w.
Arguments Throw {A} e w.
Arguments Diverge {A}.

Definition M (A : Type) : Type := World -> Outcome A.

Definition ret {A} (a : A) : M A := fun w => Return a w.
Definition throw {A} (e : Error) : M A := fun w => Throw e w.
Definition diverge {A} : M A := fun _ => Diverge.
Definition bind {A B} (m : M A) (k : A -> M B) : M B :=
  fun w =>
    match m w with
    | Return a w' => k a w'
    | Throw e w' => Throw e w'
    | Diverge => Diverge
    end.

Declare Scope store_scope.
Delimit Scope store_scope with store.
Notation "'let!' x ':=' m 'in' k" := (bind m (fun x => k))
  (at level 10, x pattern, m at level 100, k at level 200) : store_scope.
Notation "m '>>' k" := (bind m (fun _ => k))
  (at level 100, k at level 200, right associativity) : store_scope.
Local Open Scope store_scope.

Fixpoint forEach {A} (l : list A) (f : A -> M unit) : M unit :=
  match l with
  | [] => ret tt
  | x :: r => f x >> forEach r f
  end.

Definition returned {A} (o : Outcome A) : option A :=
  match o with
  | Return a _ => Some a
  | Throw _ _ | Diverge => None
  end.

Definition world_of {A} (o : Outcome A) : World :=
  match o with
  | Return _ w | Throw _ w => w
  | Diverge => init
  end.

(** ** The broker and the [WeakMap] *)

Definition notify (store : sid) (e : Event) (s : Subscription) : Subscription :=
  match e with
  | ItemSet name value =>
      let '(l, out) := deliver store name value (listeners s) in
      mkSubscription l (received s ++ out)
  | _ => s
  end.

(** [store.emit(event, payload)]: the event is recorded and handed to
    every listener registered on [store].  Every caller has read
    [data.get(store)] before, so [store] is a store, never a proxy. *)
Definition emit (store : Ref) (e : Event) : M unit :=
  fun w =>
    Return tt (mkWorld (heap w)
                       (emitted w ++ [(target store, e)])
                       (notify (target store) e <$> subscriptions w)).

(** [observable.subscribe(onNext)]; the result is the number of the
    subscriber. *)
Definition subscribe (o : Obs) : M nat :=
  fun w =>
    let '(l, out) := connect o in
    Return (length (subscriptions w))
           (mkWorld (heap w) (emitted w)
                    (subscriptions w ++ [mkSubscription l out])).

(** [data.get(store)] followed by a property read: the [WeakMap] has an
    entry for stores only, so the read fails on a proxy. *)
Definition data_get (store : Ref) : M Meta :=
  fun w =>
    match store with
    | RStore s =>
        match heap w !! s with
        | Some meta => Return meta w
        | None => Throw TypeError w
        end
    | RView _ => Throw TypeError w
    end.

Definition update (s : sid) (f : Meta -> Meta) : M unit :=
  fun w =>
    match heap w !! s with
    | Some meta =>
        Return tt (mkWorld (<[s := f meta]> (heap w)) (emitted w) (subscriptions w))
    | None => Throw TypeError w
    end.

(** The operations on the [items] map of store [h] and on its [children]
    object; both are shared, mutable objects reached through [data]. *)
Definition items_get (h : sid) (k : string) : M jsval :=
  let! meta := data_get (RStore h) in
  ret (default VUndefined (Map_get (items meta) k)).

Definition items_has (h : sid) (k : string) : M bool :=
  let! meta := data_get (RStore h) in
  ret (Map_has (items meta) k).

Definition items_set (h : sid) (k : string) (v : jsval) : M unit :=
  update h (fun meta =>
    mkMeta (children meta) (parent meta) (Map_set (items meta) k v)).

Definition items_delete (h : sid) (k : string) : M unit :=
  update h (fun meta =>
    mkMeta (children meta) (parent meta) (Map_delete (items meta) k)).

Definition children_set (h : sid) (k : string) (c : sid) : M unit :=
  update h (fun meta =>
    mkMeta (Object_set (children meta) k c) (parent meta) (items meta)).

(** ** Utility methods *)

Definition readonly (store : Ref) : Ref := RView (target store).

Definition readonlyMethod {A} : M A := throw ReadonlyViolationError.

(** [new Store(ancestor)] *)
Definition new_Store (ancestor : jsval) : M Ref :=
  fun w =>
    if negb (isUndefined ancestor) && negb (instanceofStore ancestor)
    then Throw InvalidAncestorError w
    else
      Return (RStore (length (heap w)))
             (mkWorld (heap w ++ [mkMeta []
                                     match ancestor with
                                     | VStore a => Some a
                                     | _ => None
                                     end
                                     []])
                      (emitted w) (subscriptions w)).

(** The callback that [getChildStore] hands to [reduce]. *)
Definition getChildStore_step (store : Ref) (name : string) : M Ref :=
  let! meta := data_get store in
  let child := Object_get (children meta) name in
  let! child :=
    match child, Map_has (items meta) name with
    | LUndefined, false =>
        let! child := new_Store (VStore store) in
        children_set (target store) name (target child) >>
        emit store (StoreAdded name (target child)) >>
        ret (LOwn (target child))
    | _, _ => ret child
    end in
  match child with
  | LOwn c => ret (RStore c)
  | LInherited | LUndefined => throw PathResolutionError
  end.

Fixpoint getChildStore (base : Ref) (childNames : list string) : M Ref :=
  match childNames with
  | [] => ret base
  | name :: rest =>
      let! child := getChildStore_step base name in
      getChildStore child rest
  end.

(** The text of a value that passed [isString]: what [trim], [split]
    and the comparison in [matches] work on. *)
Definition str (v : jsval) : string :=
  match v with VString s | VStringObject s => s | _ => EmptyString end.

(** [items.has(name)] with the argument as it came: the keys of the
    map are strings, and no object is the same value as a string. *)
Definition Map_has_value (m : list (string * jsval)) (name : jsval) : bool :=
  match name with
  | VString k => Map_has m k
  | _ => false
  end.

(** [getPropData]; the third component is the store that owns the
    [items] map. *)
Definition getPropData (base : Ref) (name : string) : M (Ref * string * sid) :=
  match pop (split "/" name) with
  | (Some prop, names) =>
      let! store := getChildStore base names in
      let! _ := data_get store in
      ret (store, prop, target store)
  | (None, _) => throw TypeError
  end.

Definition throwIfInvalidName (name : jsval) : M unit :=
  if negb (isString name) || isEmpty (trim (str name))
  then throw InvalidNameError
  else ret tt.

(** ** The methods of [Store.prototype]

    [this] is the receiver the method body runs with. *)

Definition Store_for (this : Ref) (name : jsval) : M Ref :=
  throwIfInvalidName name >>
  getChildStore this (split "/" (str name)).

Definition Store_parent (this : Ref) : M jsval :=
  let! meta := data_get this in
  ret match parent meta with
      | Some ancestor => VStore (readonly ancestor)
      | None => VUndefined
      end.

(** The [while (!!ancestor)] loop of [root]. *)
Fixpoint root_loop (fuel : nat) (current : Ref) (ancestor : option Ref) : M Ref :=
  match ancestor with
  | None => ret current
  | Some a =>
      match fuel with
      | 0 => diverge
      | S fuel' =>
          let! meta := data_get a in
          root_loop fuel' a (parent meta)
      end
  end.

Definition Store_root (this : Ref) : M Ref :=
  let! meta := data_get this in
  let! current := (fun w => root_loop (length (heap w)) this (parent meta) w) in
  ret (readonly current).

Definition Store_has (this : Ref) (name : jsval) : M bool :=
  throwIfInvalidName name >>
  let! meta := data_get this in
  ret (Map_has_value (items meta) name).

(** [get]; [fuel] bounds the depth of the recursion [parent.get(prop)]. *)
Fixpoint Store_get_ (fuel : nat) (this : Ref) (name : jsval) : M Obs :=
  match fuel with
  | 0 => diverge
  | S fuel' =>
      throwIfInvalidName name >>
      let! (store, prop, items) := getPropData this (str name) in
      let! meta := data_get store in
      let parent := parent meta in
      let! value := items_get items prop in
      let changes := OItemSet (target store) (str name) in
      let! inherit :=
        match parent with
        | Some p => Store_get_ fuel' p (VString prop)
        | None => ret OEmpty
        end in
      let! has := items_has items prop in
      let changes := if has then OStartWith value changes else changes in
      ret (OMerge changes (OTakeUntil inherit changes))
  end.

(** The recursion climbs from the resolved store to the root; every
    store on that way was allocated before the resolved one, and
    resolving [name] allocates at most one store per segment. *)
Definition Store_get (this : Ref) (name : jsval) : M Obs :=
  fun w =>
    Store_get_ (length (heap w) + length (split "/" (str name))) this name w.

Definition Store_set (this : Ref) (name value : jsval) : M Ref :=
  throwIfInvalidName name >>
  let! (store, prop, items) := getPropData this (str name) in
  items_set items prop value >>
  emit store (ItemSet prop value) >>
  ret this.

(** [delete] as the exported build has it. *)
Definition Store_delete (this : Ref) (name : jsval) : M unit :=
  throwIfInvalidName name >>
  let! (store, prop, items) := getPropData this (str name) in
  items_delete items prop >>
  emit store (ItemRemoved prop).

(** [delete] as the ES2015 source has it: guarded by [store.has(prop)]. *)
Definition Store_delete_src (this : Ref) (name : jsval) : M unit :=
  throwIfInvalidName name >>
  let! (store, prop, items) := getPropData this (str name) in
  let! has := Store_has store (VString prop) in
  if has : bool then
    items_delete items prop >>
    emit store (ItemRemoved prop)
  else ret tt.

(** [clear]; [fuel] bounds the depth of the recursion [child.clear(true)].
    [Map.prototype.forEach] visits the entries in insertion order; the
    callback deletes the entry it is visiting and nothing else, so the
    loop runs over the entries that the map had at the call.  lodash
    [forOwn] takes the own keys of [children] before it calls back. *)
Fixpoint Store_clear_ (fuel : nat) (this : Ref) (nested : jsval) : M unit :=
  match fuel with
  | 0 => diverge
  | S fuel' =>
      let! meta := data_get this in
      forEach (items meta) (fun entry =>
        items_delete (target this) entry.1 >>
        emit this (ItemRemoved entry.1)) >>
      (if truthy nested then
         let! meta := data_get this in
         forEach (Object_values (children meta)) (fun child =>
           Store_clear_ fuel' (RStore child) (VBool true))
       else ret tt) >>
      emit this StoreCleared
  end.

(** Children are allocated after their parent, so the recursion is at
    most as deep as the heap is long. *)
Definition Store_clear (this : Ref) (nested : jsval) : M unit :=
  fun w => Store_clear_ (S (length (heap w))) this nested w.

(** ** Method calls on stores and on readonly proxies *)

Inductive Method :=
  | m_for | m_parent | m_root | m_has | m_get
  | m_set | m_delete | m_remove | m_clear.

Inductive Result :=
  | Value (v : jsval)
  | Observable (o : Obs).

Definition arg (i : nat) (args : list jsval) : jsval :=
  default VUndefined (args !! i).

(** [Store.prototype[m].apply(this, args)] *)
Definition prototype (m : Method) (this : Ref) (args : list jsval) : M Result :=
  match m with
  | m_for => let! c := Store_for this (arg 0 args) in ret (Value (VStore c))
  | m_parent => let! p := Store_parent this in ret (Value p)
  | m_root => let! r := Store_root this in ret (Value (VStore r))
  | m_has => let! b := Store_has this (arg 0 args) in ret (Value (VBool b))
  | m_get => let! o := Store_get this (arg 0 args) in ret (Observable o)
  | m_set =>
      let! s := Store_set this (arg 0 args) (arg 1 args) in ret (Value (VStore s))
  | m_delete | m_remove =>
      Store_delete this (arg 0 args) >> ret (Value VUndefined)
  | m_clear => Store_clear this (arg 0 args) >> ret (Value VUndefined)
  end.

(** [recv[m](...args)].  A proxy made by [readonly] has own properties
    [set], [delete] and [clear] (all [readonlyMethod]) and [for], [has],
    [parent] and [root] (bound to the wrapped store); every other method
    is inherited and runs with the proxy as [this]. *)
Definition invoke (recv : Ref) (m : Method) (args : list jsval) : M Result :=
  match recv with
  | RStore _ => prototype m recv args
  | RView s =>
      match m with
      | m_set | m_delete | m_clear => readonlyMethod
      | m_for | m_has | m_parent | m_root => prototype m (RStore s) args
      | m_get | m_remove => prototype m recv args
      end
  end.

(** ** Well-formed heaps and the vocabulary of the statements *)

(** A parent was allocated before the store, a child after it. *)
Definition wf_meta (n : nat) (s : sid) (meta : Meta) : bool :=
  match parent meta with
  | Some a => target a <? s
  | None => true
  end &&
  forallb (fun kc => (s <? kc.2) && (kc.2 <? n)) (children meta).

Definition wfb (w : World) : bool :=
  forallb (fun sm => wf_meta (length (heap w)) sm.1 sm.2) (imap pair (heap w)).

Definition wf (w : World) : Prop := wfb w = true.

(** A name without a slash. *)
Definition bare (k : string) : Prop := split "/" k = [k].

(** The names that the name check turns away: a value that is neither
    a string nor a String object, and a text that is empty or holds
    whitespace only. *)
Definition invalidName (v : jsval) : bool :=
  negb (isString v) || whitespaceOnly (str v).

(** A value that is not of type string, in the words of the
    specification ("any other type"): a String object is one. *)
Definition nonString (v : jsval) : bool :=
  match v with VString _ => false | _ => true end.


(** The child that [children] of store [s] holds under [k]. *)
Definition child_of (w : World) (s : sid) (k : string) : option sid :=
  match heap w !! s with
  | Some meta => Map_get (children meta) k
  | None => None
  end.

(** The local value of store [s] for key [k]. *)
Definition local (w : World) (s : sid) (k : string) : option jsval :=
  match heap w !! s with
  | Some meta => Map_get (items meta) k
  | None => None
  end.

(** The store reached from [s] by descending through the registered
    children along [names]. *)
Fixpoint descend (w : World) (s : sid) (names : list string) : option sid :=
  match names with
  | [] => Some s
  | name :: rest =>
      match child_of w s name with
      | Some c => descend w c rest
      | None => None
      end
  end.

(** No value, or a value without a method [schedule]. *)
Definition noScheduler (o : option jsval) : bool :=
  match o with
  | Some v => negb (isScheduler v)
  | None => true
  end.

(** What subscriber number [n] has received so far. *)
Definition seen (w : World) (n : nat) : list jsval :=
  match subscriptions w !! n with
  | Some s => received s
  | None => []
  end.

(** The events that [store] has emitted, oldest first. *)
Definition emitted_by (w : World) (store : sid) : list Event :=
  omap (fun se => if Nat.eqb se.1 store then Some se.2 else None) (emitted w).

(** The world after [getChildStore] has created the child [name] of
    store [s], whose entry was [meta]. *)
Definition add_child (w : World) (s : sid) (meta : Meta) (name : string) : World :=
  mkWorld
    (<[s := mkMeta (Object_set (children meta) name (length (heap w)))
                   (parent meta) (items meta)]>
       (heap w ++ [mkMeta [] (Some (RStore s)) []]))
    (emitted w ++ [(s, StoreAdded name (length (heap w)))])
    (subscriptions w).

(** [w'] has every child that [w] has. *)
Definition children_le (w w' : World) : Prop :=
  forall s k c, child_of w s k = Some c -> child_of w' s k = Some c.

(** The part of the heap that well-formedness speaks about. *)
Definition shape (w : World) : list (list (string * sid) * option Ref) :=
  (fun meta => (children meta, parent meta)) <$> heap w.

(** [changes$] as [get] builds it from the entry [meta] of the resolved
    store [s]: the listener filters on the name that [get] was called
    with, the replayed value is the one stored under [prop]. *)
Definition changes_obs (meta : Meta) (s : sid) (name prop : string) : Obs :=
  if Map_has (items meta) prop
  then OStartWith (default VUndefined (Map_get (items meta) prop)) (OItemSet s name)
  else OItemSet s name.

(** The public operations that take a name as their first argument. *)
Definition takes_name (m : Method) : bool :=
  match m with
  | m_for | m_has | m_get | m_set | m_delete | m_remove => true
  | m_parent | m_root | m_clear => false
  end.

(** The methods that [readonly] replaces by [readonlyMethod]. *)
Definition readonlyMethods : list Method := [m_set; m_delete; m_clear].

(** ** Scenarios *)

(** A fresh root, its child [child], a subscriber to [child.get('key')],
    then the interleaved sets; the result is what the subscriber saw. *)
Definition interleaved_sets (a b c d e f g : jsval) : M (list jsval) :=
  let! root := new_Store VUndefined in
  let! child := Store_for root (VString "child") in
  let! o := Store_get child (VString "key") in
  let! n := subscribe o in
  Store_set root (VString "key") a >>
  Store_set root (VString "key") b >>
  Store_set root (VString "key") c >>
  Store_set child (VString "key") d >>
  Store_set root (VString "key") e >>
  Store_set root (VString "key") f >>
  Store_set child (VString "key") g >>
  (fun w => Return (seen w n) w).


(** A subscriber to [root.get('child/key')], then [root.set('child/key', v)]. *)
Definition set_through_path (v : jsval) : M (list jsval) :=
  let! root := new_Store VUndefined in
  let! o := Store_get root (VString "child/key") in
  let! n := subscribe o in
  Store_set root (VString "child/key") v >>
  (fun w => Return (seen w n) w).

(** [delete('key')] on a fresh store: the events it emitted. *)
Definition delete_absent (delete : Ref -> jsval -> M unit) : M (list Event) :=
  let! root := new_Store VUndefined in
  delete root (VString "key") >>
  (fun w => Return (emitted_by w (target root)) w).

(** [clear(true)] on a root with one child: the events in order. *)
Definition clear_nested : M (list (sid * Event)) :=
  let! root := new_Store VUndefined in
  let! child := Store_for root (VString "child") in
  let! before := (fun w => Return (length (emitted w)) w) in
  Store_clear root (VBool true) >>
  (fun w => Return (drop before (emitted w)) w).

(** [for('constructor')] on a fresh store. *)
Definition for_constructor : M Ref :=
  let! root := new_Store VUndefined in
  Store_for root (VString "constructor").

(** The world after [clear] has removed the items of store [s], whose
    entry was [meta]: one item-removed event per item, in the order of
    the map. *)
Definition clear_own (w : World) (s : sid) (meta : Meta) : World :=
  mkWorld
    (<[s := mkMeta (children meta) (parent meta) []]> (heap w))
    (emitted w ++ ((fun entry => (s, ItemRemoved entry.1)) <$> items meta))
    (subscriptions w).

(** What a returning [clear] leaves behind, apart from the items. *)
Definition clear_post (s : sid) (w w' : World) : Prop :=
  wf w' /\ shape w' = shape w /\ subscriptions w' = subscriptions w /\
  (forall i, i < s -> heap w' !! i = heap w !! i) /\
  exists evs, emitted w' = emitted w ++ evs /\ Forall (fun e => s <= e.1) evs.

(** A root that holds one item and has one child. *)
Definition clear_nested_setup : M Ref :=
  let! root := new_Store VUndefined in
  let! child := Store_for root (VString "child") in
  Store_set root (VString "a") (VNumber 1).

(** A root and its child [child]. *)
Definition root_and_child : M Ref :=
  let! root := new_Store VUndefined in
  Store_for root (VString "child").

(** The listeners of a subscriber to [c.get(k)], where [c] is a child
    of the root [r]: while no local value has been seen, and after. *)
Definition watching (c r : sid) (k : string) : Sub :=
  SMerge (SListen c k) (STakeUntil (SMerge (SListen r k) SClosed) (SListen c k)).

Definition overriding (c : sid) (k : string) : Sub :=
  SMerge (SListen c k) SClosed.

(** A root [r] without parent, the store after it with [r] as parent,
    and subscriber [n] in state [sub]. *)
Definition scene (w : World) (r : sid) (n : nat) (sub : Subscription) : Prop :=
  (exists ch ri, heap w !! r = Some (mkMeta ch None ri)) /\
  (exists ch ci, heap w !! S r = Some (mkMeta ch (Some (RStore r)) ci)) /\
  subscriptions w !! n = Some sub.

(** The listeners of a subscriber to [n.get(k)] for a bare key [k]:
    the local listener is always there; beside it the inherited part is
    either closed or waits for the first local value. *)
Definition getting (n : sid) (k : string) (s : Sub) : Prop :=
  s = SMerge (SListen n k) SClosed \/
  exists source, s = SMerge (SListen n k) (STakeUntil source (SListen n k)).

(** An operation keeps the heap well-formed, whether it returns or
    throws. *)
Definition preserves {A} (m : M A) : Prop :=
  forall w, wf w ->
    match m w with
    | Return _ w' | Throw _ w' => wf w'
    | Diverge => True
    end.

(** The worlds that a program can reach from the empty one: it creates
    stores, calls methods on stores and proxies, catches what they
    throw, and subscribes to observables. *)
Inductive reachable : World -> Prop :=
  | reach_init : reachable init
  | reach_new ancestor w r w' :
      reachable w ->
      (forall a, ancestor = VStore a -> target a < length (heap w)) ->
      new_Store ancestor w = Return r w' ->
      reachable w'
  | reach_return recv m args w res w' :
      reachable w -> invoke recv m args w = Return res w' -> reachable w'
  | reach_throw recv m args w e w' :
      reachable w -> invoke recv m args w = Throw e w' -> reachable w'
  | reach_subscribe o w n w' :
      reachable w -> subscribe o w = Return n w' -> reachable w'.

(** Every ancestor of [s] is a store (none was given as a readonly
    proxy to the constructor). *)
Inductive plain (w : World) : sid -> Prop :=
  | plain_root s meta :
      heap w !! s = Some meta -> parent meta = None -> plain w s
  | plain_child s meta p :
      heap w !! s = Some meta -> parent meta = Some (RStore p) ->
      plain w p -> plain w s.

(** ** Vocabulary of the further properties *)

(** An operation relates the world it starts in to the world it ends
    in by [R], whether it returns or throws, and what it returns
    satisfies [Q]. *)
Definition runs {A} (R : World -> World -> Prop) (Q : A -> Prop) (m : M A) : Prop :=
  forall w,
    match m w with
    | Return a w' => R w w' /\ Q a
    | Throw _ w' => R w w'
    | Diverge => True
    end.

Definition hasSlash (k : string) : bool :=
  existsb (Ascii.eqb "/") (list_ascii_of_string k).

(** Every child registered under a store has that store as parent. *)
Definition linked_meta (h : list Meta) (s : sid) (meta : Meta) : bool :=
  forallb (fun kc =>
             match h !! kc.2 with
             | Some m =>
                 match parent m with
                 | Some (RStore p) => Nat.eqb p s
                 | _ => false
                 end
             | None => false
             end) (children meta).

Definition linkedb (w : World) : bool :=
  forallb (fun sm => linked_meta (heap w) sm.1 sm.2) (imap pair (heap w)).

Definition linked (w : World) : Prop := linkedb w = true.

(** No key of any items map contains a slash. *)
Definition bare_keysb (w : World) : bool :=
  forallb (fun meta => forallb (fun kv => negb (hasSlash kv.1)) (items meta))
          (heap w).

Definition bare_keys (w : World) : Prop := bare_keysb w = true.

(** A run of events as one subscriber sees it. *)
Definition notify_all (evs : list (sid * Event)) (s : Subscription) : Subscription :=
  foldl (fun s e => notify e.1 e.2 s) s evs.

(** The values that the 'item-set' events of store [n] for key [k]
    carry, in order. *)
Definition local_values (n : sid) (k : string) (evs : list (sid * Event)) :
  list jsval :=
  omap (fun e =>
          match e.2 with
          | ItemSet name v =>
              if Nat.eqb n e.1 && String.eqb k name then Some v else None
          | _ => None
          end) evs.

(** The end of the parent chain of [s]. *)
Inductive top (w : World) : sid -> sid -> Prop :=
  | top_here s meta :
      heap w !! s = Some meta -> parent meta = None -> top w s s
  | top_up s meta p r :
      heap w !! s = Some meta -> parent meta = Some (RStore p) ->
      top w p r -> top w s r.

(** The value under [k] of the nearest store on the parent chain of a
    store that holds [k], if there is one. *)
Inductive resolves (w : World) (k : string) : sid -> option jsval -> Prop :=
  | resolves_local s v :
      local w s k = Some v -> resolves w k s (Some v)
  | resolves_root s meta :
      heap w !! s = Some meta -> Map_get (items meta) k = None ->
      parent meta = None -> resolves w k s None
  | resolves_up s meta p r :
      heap w !! s = Some meta -> Map_get (items meta) k = None ->
      parent meta = Some (RStore p) -> resolves w k p r ->
      resolves w k s r.

(** Path resolution from [w] to [w'] has only added stores: the
    subscribers are as before, the new events are store-added events,
    one per new store, every old store keeps its items, its parent and
    its children, and the new stores hold no items. *)
Definition only_adds (w w' : World) : Prop :=
  subscriptions w' = subscriptions w /\
  (exists evs,
      emitted w' = emitted w ++ evs /\
      Forall (fun e => exists name c, e.2 = StoreAdded name c) evs /\
      length (heap w') = length (heap w) + length evs) /\
  (forall s meta, heap w !! s = Some meta ->
     exists meta', heap w' !! s = Some meta' /\
                   items meta' = items meta /\ parent meta' = parent meta) /\
  children_le w w' /\
  (forall s meta, length (heap w) <= s -> heap w' !! s = Some meta ->
     items meta = []).

(** [I] survives the way from [w] to [w']. *)
Definition keeps (I : World -> Prop) (w w' : World) : Prop := I w -> I w'.

(** The methods that only read. *)
Definition queries : list Method := [m_has; m_parent; m_root].

(** * Properties *)

(** ** Strings *)

Lemma split_nonempty sep s : split sep s <> [].
Proof.
  destruct s as [|c r]; simpl; [discriminate|].
  destruct (Ascii.eqb c sep); [discriminate|].
  destruct (split sep r); discriminate.
Qed.

Lemma split_app sep p q :
  split sep (p +:+ String sep q) = split sep p ++ split sep q.
Proof.
  induction p as [|c p IH]; simpl.
  - by rewrite Ascii.eqb_refl.
  - destruct (Ascii.eqb c sep); [by rewrite IH|].
    rewrite IH. destruct (split sep p) eqn:E; [|done].
    by apply split_nonempty in E.
Qed.

Lemma last_split_bare sep s p :
  last (split sep s) = Some p -> split sep p = [p].
Proof.
  revert p. induction s as [|c r IH]; simpl; intros p.
  - intros [= <-]. done.
  - destruct (Ascii.eqb c sep) eqn:Ec.
    + destruct (split sep r) eqn:E; [by apply split_nonempty in E|].
      rewrite last_cons. destruct (last (s :: l)) eqn:El; [apply IH|].
      by apply last_None in El.
    + destruct (split sep r) as [|h t] eqn:E; [by apply split_nonempty in E|].
      destruct t as [|h' t].
      * simpl. intros [= <-]. simpl. rewrite Ec.
        specialize (IH h eq_refl). by rewrite IH.
      * change (last (String c h :: h' :: t)) with (last (h' :: t)).
        change (last (h :: h' :: t)) with (last (h' :: t)) in IH.
        apply IH.
Qed.

Lemma pop_split sep s :
  exists prop names, pop (split sep s) = (Some prop, names) /\ split sep prop = [prop].
Proof.
  unfold pop. destruct (last (split sep s)) as [p|] eqn:E.
  - exists p, (removelast (split sep s)). split; [done|].
    by eapply last_split_bare.
  - apply last_None in E. by apply split_nonempty in E.
Qed.

Lemma pop_bare k : bare k -> pop (split "/" k) = (Some k, []).
Proof. unfold bare. intros ->. done. Qed.

Lemma string_length_ind (P : string -> Prop) :
  (forall s, (forall t, String.length t < String.length s -> P t) -> P s) ->
  forall s, P s.
Proof.
  intros H s. remember (String.length s) as n eqn:En. revert s En.
  induction n as [n IH] using lt_wf_ind. intros s ->.
  apply H. intros t Ht. by apply (IH (String.length t)).
Qed.

Lemma whitespaceOnly_eq a r1 :
  whitespaceOnly (String a r1) =
  if ws1 a then whitespaceOnly r1
  else
    match r1 with
    | String b r2 =>
        if ws2 a b then whitespaceOnly r2
        else
          match r2 with
          | String c r3 => ws3 a b c && whitespaceOnly r3
          | EmptyString => false
          end
    | EmptyString => false
    end.
Proof. done. Qed.

Lemma trimStart_eq a r1 :
  trimStart (String a r1) =
  if ws1 a then trimStart r1
  else
    match r1 with
    | String b r2 =>
        if ws2 a b then trimStart r2
        else
          match r2 with
          | String c r3 =>
              if ws3 a b c then trimStart r3 else String a (String b (String c r3))
          | EmptyString => String a (String b EmptyString)
          end
    | EmptyString => String a EmptyString
    end.
Proof. by destruct r1 as [|b [|c r3]]. Qed.

Lemma trimEnd_eq s :
  trimEnd s =
  if whitespaceOnly s then EmptyString
  else
    match s with
    | EmptyString => EmptyString
    | String a r => String a (trimEnd r)
    end.
Proof. by destruct s. Qed.

Lemma trimStart_empty s :
  isEmpty (trimStart s) = whitespaceOnly s.
Proof.
  induction s as [s IH] using string_length_ind.
  destruct s as [|a r1]; [done|]. rewrite trimStart_eq, whitespaceOnly_eq.
  destruct (ws1 a); [apply IH; simpl; lia|].
  destruct r1 as [|b r2]; [done|].
  destruct (ws2 a b); [apply IH; simpl; lia|].
  destruct r2 as [|c r3]; [done|].
  destruct (ws3 a b c); [apply IH; simpl; lia|done].
Qed.

Lemma trimEnd_empty s :
  isEmpty (trimEnd s) = whitespaceOnly s.
Proof.
  rewrite trimEnd_eq. destruct (whitespaceOnly s) eqn:E; [done|].
  by destruct s.
Qed.

Lemma whitespaceOnly_trimStart s :
  whitespaceOnly (trimStart s) = whitespaceOnly s.
Proof.
  induction s as [s IH] using string_length_ind.
  destruct s as [|a r1]; [done|]. rewrite trimStart_eq.
  destruct (ws1 a) eqn:E1.
  { rewrite whitespaceOnly_eq, E1. apply IH. simpl. lia. }
  destruct r1 as [|b r2]; [done|].
  destruct (ws2 a b) eqn:E2.
  { rewrite (whitespaceOnly_eq a), E1, E2. apply IH. simpl. lia. }
  destruct r2 as [|c r3]; [done|].
  destruct (ws3 a b c) eqn:E3; [|done].
  rewrite (whitespaceOnly_eq a), E1, E2, E3. apply IH. simpl. lia.
Qed.

Lemma trim_empty s : isEmpty (trim s) = whitespaceOnly s.
Proof.
  unfold trim. by rewrite trimEnd_empty, whitespaceOnly_trimStart.
Qed.

(** The code's test, with lodash [trim] and [isEmpty], turns away
    exactly the invalid names. *)
Lemma invalidName_spec v :
  negb (isString v) || isEmpty (trim (str v)) = invalidName v.
Proof. unfold invalidName. by rewrite trim_empty. Qed.

(** The bytes after the first of a whitespace code point are not
    bytes of one-byte code points. *)
Lemma ws2_high a b : ws2 a b = true -> (128 <= N_of_ascii b)%N.
Proof.
  unfold ws2. rewrite andb_true_iff, !N.eqb_eq. lia.
Qed.

Lemma ws3_high a b c :
  ws3 a b c = true -> (128 <= N_of_ascii b)%N /\ (128 <= N_of_ascii c)%N.
Proof.
  unfold ws3.
  rewrite !orb_true_iff, !andb_true_iff, !orb_true_iff, !andb_true_iff,
    !N.eqb_eq, !N.leb_le.
  lia.
Qed.

Lemma ws2_low a b : (N_of_ascii b < 128)%N -> ws2 a b = false.
Proof.
  intros H. destruct (ws2 a b) eqn:E; [|done]. apply ws2_high in E. lia.
Qed.

Lemma ws3_low a b c :
  (N_of_ascii b < 128)%N \/ (N_of_ascii c < 128)%N -> ws3 a b c = false.
Proof.
  intros H. destruct (ws3 a b c) eqn:E; [|done]. apply ws3_high in E. lia.
Qed.

(** A text with a slash is not whitespace only. *)
Lemma whitespaceOnly_slash p q :
  whitespaceOnly (p +:+ String "/" q) = false.
Proof.
  assert (forall r, whitespaceOnly (String "/" r) = false) as Hslash.
  { intros r. rewrite whitespaceOnly_eq.
    change (ws1 "/") with false. cbv iota.
    destruct r as [|b r2]; [done|].
    assert (ws2 "/" b = false) as -> by done.
    destruct r2 as [|c r3]; [done|].
    by assert (ws3 "/" b c = false) as -> by done. }
  induction p as [p IH] using string_length_ind.
  destruct p as [|a r1]; [apply Hslash|].
  change (String a r1 +:+ String "/" q) with (String a (r1 +:+ String "/" q)).
  rewrite whitespaceOnly_eq.
  destruct (ws1 a); [apply IH; simpl; lia|].
  destruct r1 as [|b r2].
  { change (EmptyString +:+ String "/" q) with (String "/" q). cbv iota.
    rewrite (ws2_low a "/") by (by vm_compute).
    destruct q as [|c r3]; [done|].
    by rewrite (ws3_low a "/" c) by (left; by vm_compute). }
  change (String b r2 +:+ String "/" q) with (String b (r2 +:+ String "/" q)).
  cbv iota. destruct (ws2 a b); [apply IH; simpl; lia|].
  destruct r2 as [|c r3].
  { change (EmptyString +:+ String "/" q) with (String "/" q). cbv iota.
    by rewrite (ws3_low a b "/") by (right; by vm_compute). }
  change (String c r3 +:+ String "/" q) with (String c (r3 +:+ String "/" q)).
  cbv iota. rewrite IH by (simpl; lia). apply andb_false_r.
Qed.

(** ** Maps *)

Section MapLemmas.
Context {V : Type}.
Implicit Types (m : list (string * V)) (k : string).

Lemma Map_get_set_eq m k v : Map_get (Map_set m k v) k = Some v.
Proof.
  induction m as [|[k' v'] r IH]; simpl.
  - by rewrite String.eqb_refl.
  - destruct (String.eqb k' k) eqn:E; simpl; by rewrite E.
Qed.

Lemma Map_get_set_ne m k k' v :
  k <> k' -> Map_get (Map_set m k v) k' = Map_get m k'.
Proof.
  intros Hne. induction m as [|[k0 v0] r IH]; simpl.
  - destruct (String.eqb k k') eqn:E; [|done].
    by apply String.eqb_eq in E.
  - destruct (String.eqb k0 k) eqn:E; simpl; [|by rewrite IH].
    apply String.eqb_eq in E. subst k0.
    destruct (String.eqb k k') eqn:E'; [|done].
    by apply String.eqb_eq in E'.
Qed.

Lemma Map_get_delete_eq m k : Map_get (Map_delete m k) k = None.
Proof.
  induction m as [|[k' v'] r IH]; simpl; [done|].
  destruct (String.eqb k' k) eqn:E; simpl; [done|]. by rewrite E.
Qed.

Lemma Map_delete_absent m k : Map_get m k = None -> Map_delete m k = m.
Proof.
  induction m as [|[k' v'] r IH]; simpl; [done|].
  destruct (String.eqb k' k); [done|]. intros H. by rewrite IH.
Qed.

Lemma Map_get_elem_of m k v : Map_get m k = Some v -> (k, v) ∈ m.
Proof.
  induction m as [|[k' v'] r IH]; simpl; [done|].
  destruct (String.eqb k' k) eqn:E.
  - apply String.eqb_eq in E. intros [= ->]. subst. left.
  - intros H. right. by apply IH.
Qed.
End MapLemmas.

(** ** The monad *)

Lemma bind_Return {A B} (m : M A) (k : A -> M B) w a w1 :
  m w = Return a w1 -> bind m k w = k a w1.
Proof. unfold bind. by intros ->. Qed.

Lemma bind_Throw {A B} (m : M A) (k : A -> M B) w e w1 :
  m w = Throw e w1 -> bind m k w = Throw e w1.
Proof. unfold bind. by intros ->. Qed.

Lemma bind_Return_inv {A B} (m : M A) (k : A -> M B) w b w2 :
  bind m k w = Return b w2 ->
  exists a w1, m w = Return a w1 /\ k a w1 = Return b w2.
Proof. unfold bind. destruct (m w) as [a w1| |]; [eauto|done|done]. Qed.

Lemma bind_assoc {A B C} (m : M A) (k : A -> M B) (h : B -> M C) w :
  bind (bind m k) h w = bind m (fun a => bind (k a) h) w.
Proof. unfold bind. by destruct (m w). Qed.

Lemma notify_other store e (l : list Subscription) :
  (forall name value, e <> ItemSet name value) ->
  notify store e <$> l = l.
Proof.
  intros He. induction l as [|s l IH]; [done|].
  rewrite fmap_cons, IH. f_equal. destruct e; try done.
  by destruct (He name value).
Qed.

Lemma world_eta w : mkWorld (heap w) (emitted w) (subscriptions w) = w.
Proof. by destruct w. Qed.

Lemma data_get_Some s meta w :
  heap w !! s = Some meta -> data_get (RStore s) w = Return meta w.
Proof. unfold data_get. by intros ->. Qed.

Lemma data_get_inv r w meta w' :
  data_get r w = Return meta w' ->
  w' = w /\ exists s, r = RStore s /\ heap w !! s = Some meta.
Proof.
  unfold data_get. destruct r as [s|s]; [|done].
  destruct (heap w !! s) eqn:E; [|done]. intros [= -> ->]. eauto.
Qed.

Lemma data_get_no_Diverge r w : data_get r w <> Diverge.
Proof. unfold data_get. destruct r; [|done]. by destruct (heap w !! s). Qed.

(** ** Path resolution, step by step *)

Lemma step_found s meta name c w :
  heap w !! s = Some meta ->
  Map_get (children meta) name = Some c ->
  getChildStore_step (RStore s) name w = Return (RStore c) w.
Proof.
  intros Hs Hc. unfold getChildStore_step, Object_get.
  rewrite (bind_Return _ _ _ _ _ (data_get_Some _ _ _ Hs)). by rewrite Hc.
Qed.

Lemma step_inherited s meta name w :
  heap w !! s = Some meta ->
  Object_get (children meta) name = LInherited ->
  getChildStore_step (RStore s) name w = Throw PathResolutionError w.
Proof.
  intros Hs Hc. unfold getChildStore_step.
  rewrite (bind_Return _ _ _ _ _ (data_get_Some _ _ _ Hs)). by rewrite Hc.
Qed.

Lemma step_item s meta name w :
  heap w !! s = Some meta ->
  Object_get (children meta) name = LUndefined ->
  Map_has (items meta) name = true ->
  getChildStore_step (RStore s) name w = Throw PathResolutionError w.
Proof.
  intros Hs Hc Hi. unfold getChildStore_step.
  rewrite (bind_Return _ _ _ _ _ (data_get_Some _ _ _ Hs)). by rewrite Hc, Hi.
Qed.

Lemma step_create s meta name w :
  heap w !! s = Some meta ->
  Object_get (children meta) name = LUndefined ->
  Map_has (items meta) name = false ->
  getChildStore_step (RStore s) name w =
    Return (RStore (length (heap w))) (add_child w s meta name).
Proof.
  intros Hs Hc Hi. unfold getChildStore_step.
  rewrite (bind_Return _ _ _ _ _ (data_get_Some _ _ _ Hs)). rewrite Hc, Hi.
  unfold bind, new_Store, children_set, update, emit, ret, add_child.
  cbn -[lookup insert].
  rewrite lookup_app_l by (by eapply lookup_lt_Some).
  rewrite Hs. cbn -[lookup insert]. f_equal. f_equal.
  by apply notify_other.
Qed.

Lemma step_view s name w :
  getChildStore_step (RView s) name w = Throw TypeError w.
Proof. done. Qed.

Lemma step_dangling s name w :
  heap w !! s = None ->
  getChildStore_step (RStore s) name w = Throw TypeError w.
Proof. intros H. unfold getChildStore_step, bind, data_get. by rewrite H. Qed.

(** Every way in which a step can return. *)
Lemma step_Return_inv r name w r' w' :
  getChildStore_step r name w = Return r' w' ->
  exists s meta,
    r = RStore s /\ heap w !! s = Some meta /\
    ((exists c, Map_get (children meta) name = Some c /\ r' = RStore c /\ w' = w) \/
     (Object_get (children meta) name = LUndefined /\
      Map_has (items meta) name = false /\
      r' = RStore (length (heap w)) /\ w' = add_child w s meta name)).
Proof.
  destruct r as [s|s]; [|by rewrite step_view].
  destruct (heap w !! s) as [meta|] eqn:Hs; [|by rewrite step_dangling].
  intros H. exists s, meta. split; [done|]. split; [done|].
  destruct (Object_get (children meta) name) as [c| |] eqn:Hc.
  - left. exists c. unfold Object_get in Hc.
    destruct (Map_get (children meta) name) as [c'|] eqn:Hg.
    + injection Hc as ->. rewrite (step_found _ _ _ _ _ Hs Hg) in H.
      by injection H as <- <-.
    + by destruct (inObjectPrototype name).
  - by rewrite (step_inherited _ _ _ _ Hs Hc) in H.
  - destruct (Map_has (items meta) name) eqn:Hi.
    + by rewrite (step_item _ _ _ _ Hs Hc Hi) in H.
    + right. rewrite (step_create _ _ _ _ Hs Hc Hi) in H.
      by injection H as <- <-.
Qed.

Lemma step_no_Diverge r name w : getChildStore_step r name w <> Diverge.
Proof.
  destruct r as [s|s]; [|by rewrite step_view].
  destruct (heap w !! s) as [meta|] eqn:Hs; [|by rewrite step_dangling].
  destruct (Object_get (children meta) name) as [c| |] eqn:Hc.
  - unfold Object_get in Hc.
    destruct (Map_get (children meta) name) as [c'|] eqn:Hg.
    + by rewrite (step_found _ _ _ _ _ Hs Hg).
    + by destruct (inObjectPrototype name).
  - by rewrite (step_inherited _ _ _ _ Hs Hc).
  - destruct (Map_has (items meta) name) eqn:Hi.
    + by rewrite (step_item _ _ _ _ Hs Hc Hi).
    + by rewrite (step_create _ _ _ _ Hs Hc Hi).
Qed.

(** ** Resolution only ever adds children *)

Lemma children_le_refl w : children_le w w.
Proof. by intros s k c. Qed.

Lemma children_le_trans w1 w2 w3 :
  children_le w1 w2 -> children_le w2 w3 -> children_le w1 w3.
Proof. intros H1 H2 s k c H. by apply H2, H1. Qed.

Lemma Object_get_undefined o k :
  Object_get o k = LUndefined -> Map_get o k = None.
Proof. unfold Object_get. by destruct (Map_get o k). Qed.

Lemma child_of_add_child w s meta name :
  heap w !! s = Some meta ->
  child_of (add_child w s meta name) s name = Some (length (heap w)).
Proof.
  intros Hs. unfold child_of, add_child. cbn -[lookup insert].
  rewrite list_lookup_insert_eq.
  - cbn. apply Map_get_set_eq.
  - rewrite length_app. apply lookup_lt_Some in Hs. lia.
Qed.

Lemma children_le_add_child w s meta name :
  heap w !! s = Some meta ->
  Map_get (children meta) name = None ->
  children_le w (add_child w s meta name).
Proof.
  intros Hs Hn s' k c. unfold child_of, add_child. cbn -[lookup insert].
  destruct (heap w !! s') as [meta'|] eqn:Hs'; [|done].
  intros Hk. destruct (decide (s' = s)) as [->|Hne].
  - rewrite list_lookup_insert_eq
      by (rewrite length_app; apply lookup_lt_Some in Hs; lia).
    cbn. rewrite Hs in Hs'. injection Hs' as <-. unfold Object_set.
    rewrite Map_get_set_ne; [done|]. intros <-. congruence.
  - rewrite list_lookup_insert_ne by done.
    rewrite lookup_app_l by (by eapply lookup_lt_Some). by rewrite Hs'.
Qed.

Lemma step_children_le r name w r' w' :
  getChildStore_step r name w = Return r' w' -> children_le w w'.
Proof.
  intros H. apply step_Return_inv in H as (s & meta & -> & Hs & [H|H]).
  - destruct H as (c & _ & _ & ->). apply children_le_refl.
  - destruct H as (Hu & _ & _ & ->).
    apply children_le_add_child; [done|]. by apply Object_get_undefined.
Qed.

Lemma getChildStore_children_le names r w r' w' :
  getChildStore r names w = Return r' w' -> children_le w w'.
Proof.
  revert r w. induction names as [|name rest IH]; intros r w; simpl.
  - intros [= _ ->]. apply children_le_refl.
  - intros H. apply bind_Return_inv in H as (c & w1 & H1 & H2).
    eapply children_le_trans; [by eapply step_children_le|by eapply IH].
Qed.

(** After a step has returned [r'], the same step finds [r'] as an
    existing child, in this and in every later world. *)
Lemma step_child_of r name w r' w' :
  getChildStore_step r name w = Return r' w' ->
  exists s c, r = RStore s /\ r' = RStore c /\ child_of w' s name = Some c.
Proof.
  intros H. apply step_Return_inv in H as (s & meta & -> & Hs & [H|H]).
  - destruct H as (c & Hc & -> & ->). exists s, c.
    unfold child_of. by rewrite Hs.
  - destruct H as (_ & _ & -> & ->). exists s, (length (heap w)).
    split; [done|]. split; [done|]. by apply child_of_add_child.
Qed.

Lemma step_existing s name c w :
  child_of w s name = Some c ->
  getChildStore_step (RStore s) name w = Return (RStore c) w.
Proof.
  unfold child_of. destruct (heap w !! s) as [meta|] eqn:Hs; [|done].
  intros Hc. by eapply step_found.
Qed.

Lemma getChildStore_again names r w r' w' :
  getChildStore r names w = Return r' w' ->
  forall w2, children_le w' w2 -> getChildStore r names w2 = Return r' w2.
Proof.
  revert r w. induction names as [|name rest IH]; intros r w; simpl.
  - by intros [= -> ->] w2 _.
  - intros H w2 Hle. apply bind_Return_inv in H as (c & w1 & H1 & H2).
    pose proof (getChildStore_children_le _ _ _ _ _ H2) as Hle1.
    apply step_child_of in H1 as (s & c' & -> & -> & Hc).
    erewrite bind_Return; [|apply step_existing, Hle, Hle1, Hc].
    by eapply IH.
Qed.

Lemma getChildStore_app names1 names2 r w :
  getChildStore r (names1 ++ names2) w =
  bind (getChildStore r names1) (fun c => getChildStore c names2) w.
Proof.
  revert r w. induction names1 as [|name rest IH]; intros r w; simpl.
  - done.
  - unfold bind at 1 2 3.
    destruct (getChildStore_step r name w) as [a w1| |]; [|done|done].
    by rewrite IH.
Qed.

Lemma getChildStore_no_Diverge names r w : getChildStore r names w <> Diverge.
Proof.
  revert r w. induction names as [|name rest IH]; intros r w; simpl; [done|].
  unfold bind. destruct (getChildStore_step r name w) eqn:E; [apply IH|done|].
  by apply step_no_Diverge in E.
Qed.

(** ** Well-formed heaps *)

Lemma forallb_imap {A B} (f : B -> bool) (g : nat -> A -> B) (l : list A) :
  forallb f (imap g l) = true <->
  (forall i x, l !! i = Some x -> f (g i x) = true).
Proof.
  revert g. induction l as [|y l IH]; intros g; simpl.
  - split; [by intros _ i x|done].
  - rewrite andb_true_iff, IH. split.
    + intros [H0 H] [|i] x; simpl; [by intros [= <-]|apply H].
    + intros H. split; [by apply (H 0)|]. intros i x Hi. by apply (H (S i)).
Qed.

Lemma wf_lookup w s meta :
  wf w -> heap w !! s = Some meta ->
  wf_meta (length (heap w)) s meta = true.
Proof.
  unfold wf, wfb. rewrite forallb_imap. intros H Hs. by apply (H s meta).
Qed.

Lemma wf_intro w :
  (forall s meta, heap w !! s = Some meta ->
                  wf_meta (length (heap w)) s meta = true) ->
  wf w.
Proof. unfold wf, wfb. rewrite forallb_imap. intros H i x. apply H. Qed.

Lemma wf_meta_parent n s meta a :
  wf_meta n s meta = true -> parent meta = Some a -> target a < s.
Proof.
  unfold wf_meta. intros H Hp. rewrite Hp in H.
  apply andb_true_iff in H as [H _]. by apply Nat.ltb_lt.
Qed.

Lemma wf_meta_elem n s meta k c :
  wf_meta n s meta = true -> (k, c) ∈ children meta -> s < c < n.
Proof.
  unfold wf_meta. intros H Hc. apply andb_true_iff in H as [_ H].
  rewrite forallb_forall in H. apply list_elem_of_In in Hc.
  apply H in Hc. simpl in Hc. apply andb_true_iff in Hc as [H1 H2].
  apply Nat.ltb_lt in H1, H2. lia.
Qed.

Lemma wf_meta_child n s meta k c :
  wf_meta n s meta = true -> Map_get (children meta) k = Some c -> s < c < n.
Proof. intros H Hc. eapply wf_meta_elem; [done|]. by apply Map_get_elem_of. Qed.

Lemma wf_meta_intro n s meta :
  (forall a, parent meta = Some a -> target a < s) ->
  (forall k c, (k, c) ∈ children meta -> s < c < n) ->
  wf_meta n s meta = true.
Proof.
  intros Hp Hc. unfold wf_meta. apply andb_true_iff. split.
  - destruct (parent meta) as [a|]; [|done]. apply Nat.ltb_lt. by apply Hp.
  - apply forallb_forall. intros [k c] Hin. apply list_elem_of_In in Hin.
    apply Hc in Hin. simpl. apply andb_true_iff.
    split; apply Nat.ltb_lt; lia.
Qed.

Lemma elem_of_Map_set {V} (m : list (string * V)) k v e :
  e ∈ Map_set m k v -> e ∈ m \/ e = (k, v) \/ (exists v', e = (e.1, v) /\ (e.1, v') ∈ m).
Proof.
  induction m as [|[k' v'] r IH]; simpl.
  - intros H. apply list_elem_of_singleton in H. auto.
  - destruct (String.eqb k' k) eqn:E.
    + intros H. apply elem_of_cons in H as [->|H].
      * right. right. exists v'. split; [done|]. simpl. left.
      * left. by right.
    + intros H. apply elem_of_cons in H as [->|H]; [left; left|].
      apply IH in H as [H|[H|(v0 & H1 & H2)]].
      * left. by right.
      * auto.
      * right. right. exists v0. split; [done|]. by right.
Qed.

Lemma wf_init : wf init.
Proof. done. Qed.

Lemma wf_add_child w s meta name :
  wf w -> heap w !! s = Some meta -> wf (add_child w s meta name).
Proof.
  intros Hwf Hs. pose proof (lookup_lt_Some _ _ _ Hs) as Hlt.
  apply wf_intro. intros i m. unfold add_child. cbn -[lookup insert].
  rewrite length_insert, length_app. simpl.
  destruct (decide (i = s)) as [->|Hne].
  - rewrite list_lookup_insert_eq by (rewrite length_app; simpl; lia).
    intros [= <-]. pose proof (wf_lookup _ _ _ Hwf Hs) as Hm.
    apply wf_meta_intro; simpl.
    + intros a. by apply (wf_meta_parent _ _ _ _ Hm).
    + intros k c Hin. unfold Object_set in Hin.
      apply elem_of_Map_set in Hin as [H|[H|(v' & H1 & H2)]].
      * eapply wf_meta_elem in H; [|done]. lia.
      * injection H as -> ->. lia.
      * simpl in H1. injection H1 as ->. lia.
  - rewrite list_lookup_insert_ne by done.
    destruct (decide (i < length (heap w))) as [Hi|Hi].
    + rewrite lookup_app_l by done. intros Him.
      pose proof (wf_lookup _ _ _ Hwf Him) as Hm.
      apply wf_meta_intro.
      * intros a. by apply (wf_meta_parent _ _ _ _ Hm).
      * intros k c Hin. eapply wf_meta_elem in Hin; [|done]. lia.
    + rewrite lookup_app_r by lia.
      destruct (i - length (heap w)) as [|j] eqn:Ej; simpl; [|done].
      intros [= <-]. apply wf_meta_intro; simpl.
      * intros a [= <-]. simpl. lia.
      * intros k c Hin. by apply elem_of_nil in Hin.
Qed.

Lemma step_wf r name w r' w' :
  wf w -> getChildStore_step r name w = Return r' w' -> wf w'.
Proof.
  intros Hwf H. apply step_Return_inv in H as (s & meta & -> & Hs & [H|H]).
  - by destruct H as (c & _ & _ & ->).
  - destruct H as (_ & _ & _ & ->). by apply wf_add_child.
Qed.

Lemma getChildStore_wf names r w r' w' :
  wf w -> getChildStore r names w = Return r' w' -> wf w'.
Proof.
  revert r w. induction names as [|name rest IH]; intros r w Hwf; simpl.
  - by intros [= _ <-].
  - intros H. apply bind_Return_inv in H as (c & w1 & H1 & H2).
    eapply IH; [|done]. by eapply step_wf.
Qed.

Lemma step_length r name w r' w' :
  getChildStore_step r name w = Return r' w' ->
  length (heap w') <= S (length (heap w)).
Proof.
  intros H. apply step_Return_inv in H as (s & meta & -> & Hs & [H|H]).
  - destruct H as (c & _ & _ & ->). lia.
  - destruct H as (_ & _ & _ & ->). unfold add_child. cbn -[lookup insert].
    rewrite length_insert, length_app. simpl. lia.
Qed.

Lemma getChildStore_length names r w r' w' :
  getChildStore r names w = Return r' w' ->
  length (heap w') <= length (heap w) + length names.
Proof.
  revert r w. induction names as [|name rest IH]; intros r w; simpl.
  - intros [= _ <-]. lia.
  - intros H. apply bind_Return_inv in H as (c & w1 & H1 & H2).
    apply step_length in H1. apply IH in H2. lia.
Qed.

Lemma wf_shape w w' : shape w = shape w' -> wf w -> wf w'.
Proof.
  intros Hsh Hwf. apply wf_intro. intros s m' Hs.
  assert (length (heap w') = length (heap w)) as Hlen.
  { apply (f_equal length) in Hsh. unfold shape in Hsh.
    by rewrite !length_fmap in Hsh. }
  assert (shape w' !! s = Some (children m', parent m')) as Hs'.
  { unfold shape. by rewrite list_lookup_fmap, Hs. }
  rewrite <- Hsh in Hs'. unfold shape in Hs'.
  rewrite list_lookup_fmap in Hs'.
  destruct (heap w !! s) as [m|] eqn:Hm; [|done].
  injection Hs' as Hc Hp. pose proof (wf_lookup _ _ _ Hwf Hm) as H.
  rewrite Hlen. unfold wf_meta in *. by rewrite <- Hc, <- Hp.
Qed.

(** ** Name validation *)

Lemma throwIfInvalidName_invalid v w :
  invalidName v = true -> throwIfInvalidName v w = Throw InvalidNameError w.
Proof. intros H. unfold throwIfInvalidName. by rewrite invalidName_spec, H. Qed.

Lemma throwIfInvalidName_valid v w :
  invalidName v = false -> throwIfInvalidName v w = Return tt w.
Proof. intros H. unfold throwIfInvalidName. by rewrite invalidName_spec, H. Qed.

Lemma throwIfInvalidName_cases v w :
  throwIfInvalidName v w = Throw InvalidNameError w \/
  throwIfInvalidName v w = Return tt w.
Proof.
  destruct (invalidName v) eqn:E.
  - left. by apply throwIfInvalidName_invalid.
  - right. by apply throwIfInvalidName_valid.
Qed.

(** ** Divergence is only ever the lack of fuel *)

Lemma bind_no_Diverge {A B} (m : M A) (k : A -> M B) w :
  m w <> Diverge ->
  (forall a w1, m w = Return a w1 -> k a w1 <> Diverge) ->
  bind m k w <> Diverge.
Proof.
  unfold bind. destruct (m w) as [a w1| |]; [|done|done].
  intros _ H. by apply H.
Qed.

Lemma throwIfInvalidName_no_Diverge v w : throwIfInvalidName v w <> Diverge.
Proof. by destruct (throwIfInvalidName_cases v w) as [-> | ->]. Qed.

Lemma items_get_no_Diverge h k w : items_get h k w <> Diverge.
Proof.
  unfold items_get. apply bind_no_Diverge; [apply data_get_no_Diverge|done].
Qed.

Lemma items_has_no_Diverge h k w : items_has h k w <> Diverge.
Proof.
  unfold items_has. apply bind_no_Diverge; [apply data_get_no_Diverge|done].
Qed.

Lemma getPropData_no_Diverge r name w : getPropData r name w <> Diverge.
Proof.
  unfold getPropData. destruct (pop (split "/" name)) as [[prop|] names]; [|done].
  apply bind_no_Diverge; [apply getChildStore_no_Diverge|].
  intros a w1 _. apply bind_no_Diverge; [apply data_get_no_Diverge|done].
Qed.

(** What [getPropData] returns. *)
Lemma getPropData_inv r name w store prop h w' :
  getPropData r name w = Return (store, prop, h) w' ->
  exists names meta,
    pop (split "/" name) = (Some prop, names) /\
    getChildStore r names w = Return (RStore h) w' /\
    store = RStore h /\ heap w' !! h = Some meta.
Proof.
  unfold getPropData.
  destruct (pop (split "/" name)) as [[prop'|] names] eqn:Ep; [|done].
  intros H. apply bind_Return_inv in H as (st & w1 & H1 & H2).
  apply bind_Return_inv in H2 as (meta & w2 & H2 & H3).
  apply data_get_inv in H2 as (-> & s & -> & Hs).
  injection H3 as <- <- <- <-. by exists names, meta.
Qed.

Lemma getPropData_bare s meta k w :
  bare k -> heap w !! s = Some meta ->
  getPropData (RStore s) k w = Return (RStore s, k, s) w.
Proof.
  intros Hk Hs. unfold getPropData. rewrite (pop_bare _ Hk). simpl.
  unfold bind, ret. by rewrite (data_get_Some _ _ _ Hs).
Qed.

Lemma items_get_Some h meta k w :
  heap w !! h = Some meta ->
  items_get h k w = Return (default VUndefined (Map_get (items meta) k)) w.
Proof.
  intros Hs. unfold items_get, bind, ret. by rewrite (data_get_Some _ _ _ Hs).
Qed.

Lemma items_has_Some h meta k w :
  heap w !! h = Some meta ->
  items_has h k w = Return (Map_has (items meta) k) w.
Proof.
  intros Hs. unfold items_has, bind, ret. by rewrite (data_get_Some _ _ _ Hs).
Qed.

(** ** [get] on a bare key *)

(** The local part of the observable that [get] builds. *)
Lemma Store_get_unfold fuel this name :
  Store_get_ (S fuel) this name =
  (throwIfInvalidName name >>
   let! (store, prop, items) := getPropData this (str name) in
   let! meta := data_get store in
   let parent := parent meta in
   let! value := items_get items prop in
   let changes := OItemSet (target store) (str name) in
   let! inherit :=
     match parent with
     | Some p => Store_get_ fuel p (VString prop)
     | None => ret OEmpty
     end in
   let! has := items_has items prop in
   let changes := if has then OStartWith value changes else changes in
   ret (OMerge changes (OTakeUntil inherit changes))).
Proof. done. Qed.

Lemma get_bare_world fuel r k o w w' :
  bare k -> Store_get_ fuel r (VString k) w = Return o w' -> w' = w.
Proof.
  intros Hk. revert r o w w'.
  induction fuel as [|fuel IH]; intros r o w w'; [done|].
  rewrite Store_get_unfold. intros H.
  apply bind_Return_inv in H as (u & w0 & H0 & H).
  destruct (throwIfInvalidName_cases (VString k) w) as [E|E];
    rewrite E in H0; [done|]. injection H0 as <- <-.
  apply bind_Return_inv in H as ([[store prop] h] & w1 & H1 & H).
  apply getPropData_inv in H1 as (names & meta & Hp & Hg & -> & Hs).
  simpl in Hp. rewrite (pop_bare _ Hk) in Hp. injection Hp as <- <-.
  simpl in Hg. injection Hg as -> <-.
  rewrite (bind_Return _ _ _ _ _ (data_get_Some _ _ _ Hs)) in H.
  rewrite (bind_Return _ _ _ _ _ (items_get_Some _ _ _ _ Hs)) in H.
  apply bind_Return_inv in H as (inherit & w2 & H2 & H).
  assert (w2 = w) as ->.
  { destruct (parent meta) as [p|]; [by eapply IH|]. by injection H2. }
  rewrite (bind_Return _ _ _ _ _ (items_has_Some _ _ _ _ Hs)) in H.
  by injection H.
Qed.

(** Everything that a returning [get] has done. *)
Lemma Store_get_inv fuel this name o w w' :
  Store_get_ (S fuel) this name w = Return o w' ->
  exists s prop names meta inherit,
    invalidName name = false /\
    pop (split "/" (str name)) = (Some prop, names) /\
    getChildStore this names w = Return (RStore s) w' /\
    heap w' !! s = Some meta /\
    match parent meta with
    | Some p => Store_get_ fuel p (VString prop) w' = Return inherit w'
    | None => inherit = OEmpty
    end /\
    o = OMerge (changes_obs meta s (str name) prop)
               (OTakeUntil inherit (changes_obs meta s (str name) prop)).
Proof.
  rewrite Store_get_unfold. intros H.
  apply bind_Return_inv in H as (u & w0 & H0 & H).
  destruct (invalidName name) eqn:Hv.
  { by rewrite throwIfInvalidName_invalid in H0. }
  rewrite throwIfInvalidName_valid in H0 by done. injection H0 as <- <-.
  apply bind_Return_inv in H as ([[store prop] h] & w1 & H1 & H).
  apply getPropData_inv in H1 as (names & meta & Hp & Hg & -> & Hs).
  rewrite (bind_Return _ _ _ _ _ (data_get_Some _ _ _ Hs)) in H.
  rewrite (bind_Return _ _ _ _ _ (items_get_Some _ _ _ _ Hs)) in H.
  apply bind_Return_inv in H as (inherit & w2 & H2 & H).
  assert (bare prop) as Hb.
  { unfold bare. eapply last_split_bare. unfold pop in Hp.
    by injection Hp as -> _. }
  assert (w2 = w1) as ->.
  { destruct (parent meta) as [p|]; [by eapply get_bare_world|].
    by injection H2. }
  rewrite (bind_Return _ _ _ _ _ (items_has_Some _ _ _ _ Hs)) in H.
  injection H as <- <-.
  exists h, prop, names, meta, inherit. repeat split; try done.
  destruct (parent meta); [done|]. by injection H2.
Qed.

(** With a well-formed heap the recursion of [get] has fuel enough. *)
Lemma get_bare_no_Diverge fuel r k w :
  wf w -> bare k -> target r < fuel ->
  Store_get_ fuel r (VString k) w <> Diverge.
Proof.
  intros Hwf Hk. revert r. induction fuel as [|fuel IH]; intros r Hr; [lia|].
  rewrite Store_get_unfold.
  apply bind_no_Diverge; [apply throwIfInvalidName_no_Diverge|].
  intros u w1 H1.
  assert (w1 = w) as ->.
  { destruct (throwIfInvalidName_cases (VString k) w) as [E|E];
      rewrite E in H1; [done|]. by injection H1. }
  apply bind_no_Diverge; [apply getPropData_no_Diverge|].
  intros [[store prop] h] w2 H2.
  apply getPropData_inv in H2 as (names & meta & Hp & Hg & -> & Hs).
  simpl in Hp. rewrite (pop_bare _ Hk) in Hp. injection Hp as <- <-.
  simpl in Hg. injection Hg as -> <-.
  rewrite (bind_Return _ _ _ _ _ (data_get_Some _ _ _ Hs)).
  rewrite (bind_Return _ _ _ _ _ (items_get_Some _ _ _ _ Hs)).
  apply bind_no_Diverge.
  - destruct (parent meta) as [p|] eqn:Hp; [|done]. apply IH.
    pose proof (wf_meta_parent _ _ _ _ (wf_lookup _ _ _ Hwf Hs) Hp).
    simpl in Hr. lia.
  - intros inherit w3 _.
    apply bind_no_Diverge; [apply items_has_no_Diverge|done].
Qed.

Lemma length_removelast {A} (l : list A) :
  length (removelast l) = length l - 1.
Proof.
  induction l as [|x l IH]; [done|]. destruct l as [|y l]; [done|].
  change (removelast (x :: y :: l)) with (x :: removelast (y :: l)).
  simpl length in *. lia.
Qed.

Lemma Store_get_no_Diverge this name w :
  wf w -> Store_get this name w <> Diverge.
Proof.
  intros Hwf. unfold Store_get.
  destruct (length (split "/" (str name))) as [|n] eqn:En.
  { destruct (split "/" (str name)) eqn:E; [|done].
    by apply split_nonempty in E. }
  rewrite Nat.add_succ_r. rewrite Store_get_unfold.
  apply bind_no_Diverge; [apply throwIfInvalidName_no_Diverge|].
  intros u w1 H1.
  assert (w1 = w) as ->.
  { destruct (throwIfInvalidName_cases name w) as [E|E];
      rewrite E in H1; [done|]. by injection H1. }
  apply bind_no_Diverge; [apply getPropData_no_Diverge|].
  intros [[store prop] h] w2 H2.
  apply getPropData_inv in H2 as (names & meta & Hp & Hg & -> & Hs).
  rewrite (bind_Return _ _ _ _ _ (data_get_Some _ _ _ Hs)).
  rewrite (bind_Return _ _ _ _ _ (items_get_Some _ _ _ _ Hs)).
  assert (bare prop) as Hb.
  { unfold bare. eapply last_split_bare. unfold pop in Hp.
    by injection Hp as -> _. }
  pose proof (getChildStore_wf _ _ _ _ _ Hwf Hg) as Hwf2.
  apply bind_no_Diverge.
  - destruct (parent meta) as [p|] eqn:Hpar; [|done].
    apply get_bare_no_Diverge; [done|done|].
    pose proof (wf_meta_parent _ _ _ _ (wf_lookup _ _ _ Hwf2 Hs) Hpar).
    apply getChildStore_length in Hg. apply lookup_lt_Some in Hs.
    unfold pop in Hp. injection Hp as _ <-.
    rewrite length_removelast, En in Hg. lia.
  - intros inherit w3 _.
    apply bind_no_Diverge; [apply items_has_no_Diverge|done].
Qed.


(** ** Invalid names *)

Lemma Store_get_invalid this name w :
  invalidName name = true -> Store_get this name w = Throw InvalidNameError w.
Proof.
  intros H. unfold Store_get.
  destruct (length (split "/" (str name))) as [|n] eqn:En.
  { destruct (split "/" (str name)) eqn:E; [|done].
    by apply split_nonempty in E. }
  rewrite Nat.add_succ_r, Store_get_unfold.
  by apply bind_Throw, throwIfInvalidName_invalid.
Qed.

Lemma prototype_invalid m this args w :
  takes_name m = true -> invalidName (arg 0 args) = true ->
  prototype m this args w = Throw InvalidNameError w.
Proof.
  intros Hm Hn. destruct m; try done; simpl; apply bind_Throw.
  - by apply bind_Throw, throwIfInvalidName_invalid.
  - by apply bind_Throw, throwIfInvalidName_invalid.
  - by apply Store_get_invalid.
  - by apply bind_Throw, throwIfInvalidName_invalid.
  - by apply bind_Throw, throwIfInvalidName_invalid.
  - by apply bind_Throw, throwIfInvalidName_invalid.
Qed.

(** C8, counterexample: a String object is not of type string, yet it
    passes the name check: on a new store [has(new String('key'))]
    returns false and changes nothing, and [set(new String('a/b'), 1)]
    resolves the path and stores the value in the child [a]. *)
Lemma string_object_name_accepted :
  nonString (VStringObject "key") = true /\
  invoke (RStore 0) m_has [VStringObject "key"]
         (world_of (new_Store VUndefined init)) =
    Return (Value (VBool false)) (world_of (new_Store VUndefined init)) /\
  nonString (VStringObject "a/b") = true /\
  local (world_of (invoke (RStore 0) m_set [VStringObject "a/b"; VNumber 1]
                     (world_of (new_Store VUndefined init))))
        1 "b" = Some (VNumber 1).
Proof. repeat split. Qed.

(** C8, amended: with a name that is neither a string nor a String
    object, or whose text is empty or holds whitespace code points only,
    every operation that takes a name ([for], [has], [get], [set],
    [delete], [remove]) throws the invalid-name error at once: the world
    at the throw is the world of the call, so nothing was traversed,
    created, changed or emitted.  On a readonly proxy the same holds for
    the operations that reach the name check ([for], [has], [get],
    [remove]). *)
Theorem invalid_name_rejected (recv : Ref) (m : Method) (args : list jsval)
    (w : World) :
  invalidName (arg 0 args) = true ->
  takes_name m = true ->
  (exists s, recv = RStore s) \/ m ∉ readonlyMethods ->
  invoke recv m args w = Throw InvalidNameError w.
Proof.
  intros Hn Hm Hr. destruct recv as [s|s]; simpl.
  - by apply prototype_invalid.
  - destruct Hr as [[s' [=]]|Hr].
    destruct m; try done; try (by apply prototype_invalid);
      exfalso; apply Hr; unfold readonlyMethods; repeat constructor.
Qed.

Lemma invalid_name_rejected_witness :
  invalidName (arg 0 [VString "  "; VNumber 1]) = true /\
  invoke (RStore 0) m_set [VString "  "; VNumber 1]
         (world_of (new_Store VUndefined init)) =
    Throw InvalidNameError (world_of (new_Store VUndefined init)).
Proof.
  split; [reflexivity|].
  apply (invalid_name_rejected (RStore 0) m_set [VString "  "; VNumber 1]);
    [reflexivity|reflexivity|left; by exists 0].
Defined.

(** ** Readonly proxies *)

Lemma Store_parent_view x w r w' :
  Store_parent x w = Return (VStore r) w' -> exists n, r = RView n.
Proof.
  unfold Store_parent. intros H.
  apply bind_Return_inv in H as (meta & w1 & _ & H).
  destruct (parent meta) as [a|]; [|done].
  injection H as <- _. by exists (target a).
Qed.

Lemma Store_root_view x w r w' :
  Store_root x w = Return r w' -> exists n, r = RView n.
Proof.
  unfold Store_root. intros H.
  apply bind_Return_inv in H as (meta & w1 & _ & H).
  apply bind_Return_inv in H as (current & w2 & _ & H).
  injection H as <- _. by exists (target current).
Qed.

(** C9: [set], [delete] and [clear] on a readonly view returned by
    [parent()] or [root()] throw 'Ancestor Stores are read-only.' for
    every list of arguments, valid or not; the name is never looked at,
    and the world at the throw is the world of the call. *)
Theorem readonly_view_rejects_mutation (x view : Ref) (w w' : World)
    (m : Method) (args : list jsval) (w2 : World) :
  Store_parent x w = Return (VStore view) w' \/
  Store_root x w = Return view w' ->
  m ∈ readonlyMethods ->
  invoke view m args w2 = Throw ReadonlyViolationError w2.
Proof.
  intros Hv Hm.
  assert (exists n, view = RView n) as [n ->].
  { destruct Hv as [H|H];
      [by eapply Store_parent_view|by eapply Store_root_view]. }
  unfold readonlyMethods in Hm.
  apply elem_of_cons in Hm as [->|Hm]; [done|].
  apply elem_of_cons in Hm as [->|Hm]; [done|].
  apply list_elem_of_singleton in Hm as ->. done.
Qed.

Lemma readonly_view_rejects_mutation_witness :
  invoke (RView 0) m_set [VString "key"; VNumber 1]
         (world_of (new_Store (VStore (RStore 0))
                      (world_of (new_Store VUndefined init)))) =
  Throw ReadonlyViolationError
        (world_of (new_Store (VStore (RStore 0))
                     (world_of (new_Store VUndefined init)))).
Proof.
  apply (readonly_view_rejects_mutation (RStore 1) (RView 0)
           (world_of (new_Store (VStore (RStore 0))
                        (world_of (new_Store VUndefined init))))
           (world_of (new_Store (VStore (RStore 0))
                        (world_of (new_Store VUndefined init))))
           m_set).
  - left. reflexivity.
  - unfold readonlyMethods. left.
Defined.

(** ** Children are resolved, not duplicated *)

Lemma valid_with_slash p q :
  invalidName (VString (p +:+ String "/" q)) = false.
Proof. unfold invalidName. simpl. apply whitespaceOnly_slash. Qed.

(** C7: resolving a path again returns the identical node and changes
    nothing (no second child, no event), and [for(p).for(q)] is the same
    computation as [for(p/q)]; in particular for [p = a] and [q = b]. *)
Theorem for_idempotent (this : Ref) (name : jsval) (w : World) (n : Ref)
    (w1 : World) :
  Store_for this name w = Return n w1 ->
  Store_for this name w1 = Return n w1 /\
  (forall p q : string,
      invalidName (VString p) = false ->
      invalidName (VString q) = false ->
      Store_for this (VString (p +:+ String "/" q)) w =
      (let! a := Store_for this (VString p) in Store_for a (VString q)) w).
Proof.
  intros H. split.
  - unfold Store_for in *.
    apply bind_Return_inv in H as (u & w0 & H0 & H).
    destruct (throwIfInvalidName_cases name w) as [E|E];
      rewrite E in H0; [done|]. injection H0 as <- <-.
    destruct (throwIfInvalidName_cases name w1) as [E1|E1].
    { unfold throwIfInvalidName in E, E1.
      destruct (negb (isString name) || isEmpty (trim (str name))); done. }
    rewrite (bind_Return _ _ _ _ _ E1).
    eapply getChildStore_again; [done|apply children_le_refl].
  - intros p q Hp Hq. unfold Store_for.
    rewrite (bind_Return _ _ _ _ _
               (throwIfInvalidName_valid _ w (valid_with_slash p q))).
    simpl str. rewrite split_app, getChildStore_app.
    rewrite bind_assoc.
    rewrite (bind_Return _ _ _ _ _ (throwIfInvalidName_valid _ w Hp)).
    unfold bind at 1 2.
    destruct (getChildStore this (split "/" p) w) as [a wa| |]; [|done|done].
    by rewrite (bind_Return _ _ _ _ _ (throwIfInvalidName_valid _ wa Hq)).
Qed.

Lemma for_idempotent_witness :
  Store_for (RStore 0) (VString "a/b")
    (world_of (Store_for (RStore 0) (VString "a/b")
                 (world_of (new_Store VUndefined init)))) =
  Return (RStore 2)
    (world_of (Store_for (RStore 0) (VString "a/b")
                 (world_of (new_Store VUndefined init)))) /\
  Store_for (RStore 0) (VString "a/b") (world_of (new_Store VUndefined init)) =
  (let! a := Store_for (RStore 0) (VString "a") in Store_for a (VString "b"))
    (world_of (new_Store VUndefined init)).
Proof.
  destruct (for_idempotent (RStore 0) (VString "a/b")
              (world_of (new_Store VUndefined init)) (RStore 2)
              (world_of (Store_for (RStore 0) (VString "a/b")
                           (world_of (new_Store VUndefined init))))
              eq_refl) as [H1 H2].
  split; [exact H1|]. exact (H2 "a" "b" eq_refl eq_refl).
Defined.

(** ** [get] through a path *)

(** A listener that filters on a name with a slash never matches: the
    events of [set] carry the last segment, which has none. *)
Lemma listener_with_slash_silent store store' p q prop value :
  bare prop ->
  deliver store prop value (SListen store' (p +:+ String "/" q)) =
  (SListen store' (p +:+ String "/" q), []).
Proof.
  intros Hb. simpl. destruct (Nat.eqb store' store); [|done]. simpl.
  destruct (String.eqb (p +:+ String "/" q) prop) eqn:E; [|done].
  apply String.eqb_eq in E. subst prop. unfold bare in Hb.
  rewrite split_app in Hb. exfalso.
  assert (length (split "/" p ++ split "/" q) = 1) as Hl by (by rewrite Hb).
  rewrite length_app in Hl.
  destruct (split "/" p) eqn:E1; [by apply split_nonempty in E1|].
  destruct (split "/" q) eqn:E2; [by apply split_nonempty in E2|].
  simpl in Hl. lia.
Qed.

(** C3, at the failing input: the subscriber to [root.get('child/key')]
    receives nothing when [root.set('child/key', v)] follows. *)
Theorem set_through_path_not_delivered (v : jsval) :
  returned (set_through_path v init) = Some [].
Proof. vm_compute. reflexivity. Qed.

(** ** [delete] *)

(** C4, at the failing input: [delete('key')] on a store that never held
    the key emits an item-removed event in the exported build; the
    guarded source emits none. *)
Theorem delete_absent_emits :
  returned (delete_absent Store_delete init) = Some [ItemRemoved "key"] /\
  returned (delete_absent Store_delete_src init) = Some [].
Proof. split; vm_compute; reflexivity. Qed.

(** ** Names inherited from [Object.prototype] *)

(** C6, at the failing input: a fresh store has neither a child nor an
    item called [constructor], yet resolving that segment throws and
    creates nothing. *)
Theorem for_constructor_throws :
  child_of (world_of (new_Store VUndefined init)) 0 "constructor" = None /\
  local (world_of (new_Store VUndefined init)) 0 "constructor" = None /\
  for_constructor init =
    Throw PathResolutionError (world_of (new_Store VUndefined init)).
Proof. repeat split. Qed.

(** Away from the inherited names a step does what the three cases
    say: descend into an existing child; else, with no item of that
    name, create the child, register it and emit store-added on the
    current store; else throw. *)
Lemma step_cases s meta name w :
  heap w !! s = Some meta ->
  inObjectPrototype name = false ->
  getChildStore_step (RStore s) name w =
  match Map_get (children meta) name with
  | Some c => Return (RStore c) w
  | None =>
      if Map_has (items meta) name then Throw PathResolutionError w
      else Return (RStore (length (heap w))) (add_child w s meta name)
  end.
Proof.
  intros Hs Hp. destruct (Map_get (children meta) name) as [c|] eqn:Hc.
  - by eapply step_found.
  - assert (Object_get (children meta) name = LUndefined) as Hu.
    { unfold Object_get. by rewrite Hc, Hp. }
    destruct (Map_has (items meta) name) eqn:Hi.
    + by eapply step_item.
    + by eapply step_create.
Qed.

(** ** The snapshot that [get] takes *)


Lemma subscribe_seen o w2 :
  exists m w3,
    subscribe o w2 = Return m w3 /\ seen w3 m = (connect o).2 /\
    heap w3 = heap w2 /\ emitted w3 = emitted w2.
Proof.
  unfold subscribe. destruct (connect o) as [l out]. eexists _, _.
  split; [done|]. unfold seen. cbn -[lookup].
  rewrite lookup_app_r by lia. by rewrite Nat.sub_diag.
Qed.



(** ** Loops *)

Lemma forEach_Return {A} (I : World -> Prop) (f : A -> M unit) (l : list A) :
  (forall x w, x ∈ l -> I w -> exists w', f x w = Return tt w' /\ I w') ->
  forall w, I w -> exists w', forEach l f w = Return tt w' /\ I w'.
Proof.
  induction l as [|x l IH]; intros Hf w Hw; simpl.
  - by exists w.
  - destruct (Hf x w) as (w1 & H1 & Hw1); [left|done|].
    rewrite (bind_Return _ _ _ _ _ H1). apply IH; [|done].
    intros y w' Hy. apply Hf. by right.
Qed.

Lemma forEach_both {A} (I : World -> Prop) (f g : A -> M unit) (l : list A) :
  (forall x w, x ∈ l -> I w ->
     exists w', f x w = Return tt w' /\ g x w = Return tt w' /\ I w') ->
  forall w, I w ->
    exists w', forEach l f w = Return tt w' /\ forEach l g w = Return tt w' /\ I w'.
Proof.
  induction l as [|x l IH]; intros Hf w Hw; simpl.
  - by exists w.
  - destruct (Hf x w) as (w1 & H1 & H2 & Hw1); [left|done|].
    rewrite (bind_Return _ _ _ _ _ H1), (bind_Return _ _ _ _ _ H2).
    apply IH; [|done]. intros y w' Hy. apply Hf. by right.
Qed.

Lemma forEach_mono {A} (f g : A -> M unit) (l : list A) w w' :
  (forall x w w', f x w = Return tt w' -> g x w = Return tt w') ->
  forEach l f w = Return tt w' -> forEach l g w = Return tt w'.
Proof.
  intros Hfg. revert w. induction l as [|x l IH]; intros w; simpl; [done|].
  intros H. apply bind_Return_inv in H as ([] & w1 & H1 & H2).
  rewrite (bind_Return _ _ _ _ _ (Hfg _ _ _ H1)). by apply IH.
Qed.

(** ** [clear]: the loop over the items *)

Lemma Forall_Map_delete {V} (cur : list (string * V)) k ks :
  Forall (fun e => e.1 ∈ k :: ks) cur ->
  Forall (fun e => e.1 ∈ ks) (Map_delete cur k).
Proof.
  induction cur as [|[k' v'] r IH]; simpl; [done|].
  intros H. apply Forall_cons in H as [H1 H2].
  destruct (String.eqb k' k) eqn:E; [by apply IH|].
  apply Forall_cons. split; [|by apply IH].
  simpl in *. apply elem_of_cons in H1 as [->|H1]; [|done].
  by rewrite String.eqb_refl in E.
Qed.

Lemma clear_items_loop s ch p (l : list (string * jsval)) :
  forall cur w,
    heap w !! s = Some (mkMeta ch p cur) ->
    Forall (fun e => e.1 ∈ l.*1) cur ->
    forEach l (fun entry =>
      items_delete s entry.1 >> emit (RStore s) (ItemRemoved entry.1)) w =
    Return tt
      (mkWorld (<[s := mkMeta ch p []]> (heap w))
               (emitted w ++ ((fun entry => (s, ItemRemoved entry.1)) <$> l))
               (subscriptions w)).
Proof.
  induction l as [|e r IH]; intros cur w Hs Hcur.
  - assert (cur = []) as ->.
    { destruct cur as [|x cur]; [done|].
      apply Forall_cons in Hcur as [Hx _]. by apply elem_of_nil in Hx. }
    simpl. unfold ret. rewrite list_insert_id by done.
    by rewrite app_nil_r, world_eta.
  - simpl forEach. unfold bind at 1 2, items_delete, update. rewrite Hs.
    unfold emit. cbn -[lookup insert forEach].
    rewrite notify_other by done.
    pose proof (lookup_lt_Some _ _ _ Hs) as Hlt.
    erewrite (IH (Map_delete cur e.1)).
    + cbn -[lookup insert]. rewrite list_insert_insert_eq.
      by rewrite <- app_assoc.
    + cbn -[lookup insert]. by apply list_lookup_insert_eq.
    + by apply Forall_Map_delete.
Qed.

Lemma clear_items s meta w :
  heap w !! s = Some meta ->
  forEach (items meta) (fun entry =>
    items_delete s entry.1 >> emit (RStore s) (ItemRemoved entry.1)) w =
  Return tt (clear_own w s meta).
Proof.
  intros Hs. destruct meta as [ch p it]. unfold clear_own. simpl.
  eapply clear_items_loop; [done|].
  apply Forall_forall. intros [k v] Hin. simpl.
  apply list_elem_of_fmap. by exists (k, v).
Qed.

(** ** [clear]: the recursion over the children *)

Lemma elem_of_insertSorted {A} i (x : A) l e :
  e ∈ insertSorted i x l -> e = (i, x) \/ e ∈ l.
Proof.
  induction l as [|[j y] r IH]; simpl.
  - intros H. apply list_elem_of_singleton in H. auto.
  - destruct (i <? j)%N.
    + intros H. apply elem_of_cons in H as [->|H]; auto.
    + intros H. apply elem_of_cons in H as [->|H]; [right; left|].
      apply IH in H as [->|H]; [auto|]. right. by right.
Qed.

Lemma elem_of_indexed {A} (o : list (string * A)) i x :
  (i, x) ∈ indexed o -> exists k, (k, x) ∈ o.
Proof.
  induction o as [|[k y] r IH]; simpl.
  - intros H. by apply elem_of_nil in H.
  - destruct (arrayIndex k) as [j|].
    + intros H. apply elem_of_insertSorted in H as [[= -> ->]|H].
      * exists k. left.
      * destruct (IH H) as [k' Hk']. exists k'. by right.
    + intros H. destruct (IH H) as [k' Hk']. exists k'. by right.
Qed.

Lemma elem_of_Object_values {A} (o : list (string * A)) x :
  x ∈ Object_values o -> exists k, (k, x) ∈ o.
Proof.
  unfold Object_values. intros H. apply elem_of_app in H as [H|H].
  - apply list_elem_of_fmap in H as ([i y] & -> & H).
    by eapply elem_of_indexed.
  - unfold named in H. apply list_elem_of_omap in H as ([k y] & H1 & H2).
    simpl in H2. destruct (arrayIndex k); [done|]. injection H2 as ->.
    by exists k.
Qed.

Lemma Store_clear_unfold fuel this nested :
  Store_clear_ (S fuel) this nested =
  (let! meta := data_get this in
   forEach (items meta) (fun entry =>
     items_delete (target this) entry.1 >>
     emit this (ItemRemoved entry.1)) >>
   (if truthy nested then
      let! meta := data_get this in
      forEach (Object_values (children meta)) (fun child =>
        Store_clear_ fuel (RStore child) (VBool true))
    else ret tt) >>
   emit this StoreCleared).
Proof. done. Qed.

(** More fuel does not change a result. *)
Lemma clear_fuel_mono fuel :
  forall fuel' this nested w w',
    fuel <= fuel' ->
    Store_clear_ fuel this nested w = Return tt w' ->
    Store_clear_ fuel' this nested w = Return tt w'.
Proof.
  induction fuel as [|fuel IH]; intros fuel' this nested w w' Hle; [done|].
  destruct fuel' as [|fuel']; [lia|].
  rewrite !Store_clear_unfold. intros H.
  apply bind_Return_inv in H as (meta & w1 & H1 & H).
  rewrite (bind_Return _ _ _ _ _ H1).
  apply bind_Return_inv in H as ([] & w2 & H2 & H).
  rewrite (bind_Return _ _ _ _ _ H2).
  apply bind_Return_inv in H as ([] & w3 & H3 & H).
  erewrite bind_Return; [exact H|].
  destruct (truthy nested); [|done].
  apply bind_Return_inv in H3 as (meta' & w4 & H4 & H3).
  rewrite (bind_Return _ _ _ _ _ H4).
  eapply forEach_mono; [|exact H3].
  intros c wa wb. apply IH. lia.
Qed.

Lemma shape_clear_own w s meta :
  heap w !! s = Some meta -> shape (clear_own w s meta) = shape w.
Proof.
  intros Hs. unfold shape, clear_own. cbn -[lookup insert].
  rewrite list_fmap_insert. simpl. apply list_insert_id.
  by rewrite list_lookup_fmap, Hs.
Qed.

Lemma shape_length w w' : shape w' = shape w -> length (heap w') = length (heap w).
Proof.
  intros H. apply (f_equal length) in H. unfold shape in H.
  by rewrite !length_fmap in H.
Qed.

Lemma shape_lookup w w' s meta :
  shape w' = shape w -> heap w !! s = Some meta ->
  exists meta', heap w' !! s = Some meta' /\
                children meta' = children meta /\ parent meta' = parent meta.
Proof.
  intros Hsh Hs.
  assert (shape w !! s = Some (children meta, parent meta)) as H.
  { unfold shape. by rewrite list_lookup_fmap, Hs. }
  rewrite <- Hsh in H. unfold shape in H. rewrite list_lookup_fmap in H.
  destruct (heap w' !! s) as [meta'|]; [|done].
  injection H as H1 H2. by exists meta'.
Qed.

Lemma clear_post_refl s w : wf w -> clear_post s w w.
Proof.
  intros H. repeat split; try done. exists []. by rewrite app_nil_r.
Qed.

Lemma clear_post_trans s s' w1 w2 w3 :
  s <= s' -> clear_post s w1 w2 -> clear_post s' w2 w3 -> clear_post s w1 w3.
Proof.
  intros Hle (_ & Hs1 & Hb1 & Hh1 & evs1 & He1 & Hf1)
         (Hwf & Hs2 & Hb2 & Hh2 & evs2 & He2 & Hf2).
  split; [done|]. split; [congruence|]. split; [congruence|].
  split; [intros i Hi; rewrite Hh2, Hh1 by lia; done|].
  exists (evs1 ++ evs2). split; [by rewrite He2, He1, app_assoc|].
  apply Forall_app. split; [done|].
  eapply Forall_impl; [exact Hf2|]. simpl. intros. lia.
Qed.

Lemma clear_post_own w s meta :
  wf w -> heap w !! s = Some meta -> clear_post s w (clear_own w s meta).
Proof.
  intros Hwf Hs. pose proof (shape_clear_own _ _ _ Hs) as Hsh.
  split; [by eapply wf_shape|]. split; [done|]. split; [done|].
  split.
  { intros i Hi. unfold clear_own. cbn -[lookup insert].
    apply list_lookup_insert_ne. lia. }
  eexists. split; [done|]. apply Forall_fmap, Forall_forall.
  intros; simpl; lia.
Qed.

Lemma emit_other s e w :
  (forall name value, e <> ItemSet name value) ->
  emit (RStore s) e w =
  Return tt (mkWorld (heap w) (emitted w ++ [(s, e)]) (subscriptions w)).
Proof. intros He. unfold emit. by rewrite notify_other. Qed.

Lemma clear_post_emit s e w0 w :
  clear_post s w0 w ->
  clear_post s w0 (mkWorld (heap w) (emitted w ++ [(s, e)]) (subscriptions w)).
Proof.
  intros (Hwf & Hsh & Hsub & Hfr & evs & Hev & Hall).
  split; [by eapply wf_shape; [|exact Hwf]|]. split; [done|]. split; [done|].
  split; [done|].
  exists (evs ++ [(s, e)]). simpl. split; [by rewrite Hev, app_assoc|].
  apply Forall_app. split; [done|]. by apply Forall_singleton.
Qed.

Lemma clear_own_lookup w s meta :
  heap w !! s = Some meta ->
  heap (clear_own w s meta) !! s =
  Some (mkMeta (children meta) (parent meta) []).
Proof.
  intros Hs. unfold clear_own. cbn -[lookup insert].
  apply list_lookup_insert_eq. by eapply lookup_lt_Some.
Qed.

Lemma child_bounds w s meta c :
  wf w -> heap w !! s = Some meta ->
  c ∈ Object_values (children meta) -> s < c < length (heap w).
Proof.
  intros Hwf Hs Hc. apply elem_of_Object_values in Hc as [k Hk].
  eapply wf_meta_elem; [by apply wf_lookup|done].
Qed.

(** In a well-formed heap [clear] returns, whatever [nested] is. *)
Lemma clear_returns fuel :
  forall s nested w,
    wf w -> s < length (heap w) -> length (heap w) <= fuel + s ->
    exists w', Store_clear_ (S fuel) (RStore s) nested w = Return tt w' /\
               clear_post s w w'.
Proof.
  induction fuel as [|fuel IH]; intros s nested w Hwf Hs Hf; [lia|].
  destruct (lookup_lt_is_Some_2 _ _ Hs) as [meta Hm].
  rewrite Store_clear_unfold.
  rewrite (bind_Return _ _ _ _ _ (data_get_Some _ _ _ Hm)).
  simpl target. rewrite (bind_Return _ _ _ _ _ (clear_items _ _ _ Hm)).
  pose proof (clear_post_own _ _ _ Hwf Hm) as Hown.
  assert (exists w2,
    (if truthy nested then
       let! meta := data_get (RStore s) in
       forEach (Object_values (children meta)) (fun child =>
         Store_clear_ (S fuel) (RStore child) (VBool true))
     else ret tt) (clear_own w s meta) = Return tt w2 /\
    clear_post (S s) (clear_own w s meta) w2) as (w2 & H2 & Hp2).
  { destruct (truthy nested).
    - rewrite (bind_Return _ _ _ _ _
                 (data_get_Some _ _ _ (clear_own_lookup _ _ _ Hm))).
      simpl children.
      apply (forEach_Return (clear_post (S s) (clear_own w s meta))).
      + intros c wa Hc Hwa.
        pose proof (child_bounds _ _ _ _ Hwf Hm Hc) as Hb.
        pose proof Hwa as (Hwfa & Hsha & _).
        pose proof (shape_length _ _ Hsha) as Hla.
        destruct Hown as (_ & Hsh1 & _).
        pose proof (shape_length _ _ Hsh1) as Hl1.
        destruct (IH c (VBool true) wa Hwfa) as (w' & Hw' & Hpost);
          [lia|lia|].
        exists w'. split; [done|].
        eapply (clear_post_trans (S s) c); [lia|exact Hwa|exact Hpost].
      + apply clear_post_refl. by destruct Hown.
    - exists (clear_own w s meta). split; [done|].
      apply clear_post_refl. by destruct Hown. }
  rewrite (bind_Return _ _ _ _ _ H2).
  rewrite emit_other by done. eexists. split; [done|].
  apply clear_post_emit.
  eapply (clear_post_trans s (S s)); [lia|exact Hown|exact Hp2].
Qed.

Lemma Store_clear_returns s nested w :
  wf w -> s < length (heap w) ->
  exists w', Store_clear (RStore s) nested w = Return tt w' /\ clear_post s w w'.
Proof. intros Hwf Hs. unfold Store_clear. apply clear_returns; [done|done|lia]. Qed.

(** The loop over the children, as the recursion runs it and as a
    caller of the public [clear] would. *)
Lemma clear_children (s : sid) (meta : Meta) (nested : jsval) (w : World) :
  wf w ->
  heap w !! s = Some meta ->
  exists w2,
    (if truthy nested then
       let! meta := data_get (RStore s) in
       forEach (Object_values (children meta)) (fun child =>
         Store_clear_ (length (heap w)) (RStore child) (VBool true))
     else ret tt) (clear_own w s meta) = Return tt w2 /\
    (if truthy nested then
       forEach (Object_values (children meta))
               (fun child => Store_clear (RStore child) (VBool true))
     else ret tt) (clear_own w s meta) = Return tt w2 /\
    (truthy nested = false -> w2 = clear_own w s meta) /\
    clear_post (S s) (clear_own w s meta) w2.
Proof.
  intros Hwf Hm. pose proof (lookup_lt_Some _ _ _ Hm) as Hs.
  pose proof (clear_post_own _ _ _ Hwf Hm) as Hown.
  assert (wf (clear_own w s meta)) as Hwf1 by (by destruct Hown).
  assert (length (heap (clear_own w s meta)) = length (heap w)) as Hl1.
  { destruct Hown as (_ & Hsh1 & _). by apply shape_length. }
  destruct (truthy nested).
  - rewrite (bind_Return _ _ _ _ _
               (data_get_Some _ _ _ (clear_own_lookup _ _ _ Hm))).
    simpl children.
    destruct (forEach_both (clear_post (S s) (clear_own w s meta))
                (fun child =>
                   Store_clear_ (length (heap w)) (RStore child) (VBool true))
                (fun child => Store_clear (RStore child) (VBool true))
                (Object_values (children meta))) with (w := clear_own w s meta)
      as (w2 & Ha & Hb & Hc).
    + intros c wa Hc Hwa.
      pose proof (child_bounds _ _ _ _ Hwf Hm Hc) as Hb.
      pose proof Hwa as (Hwfa & Hsha & _).
      pose proof (shape_length _ _ Hsha) as Hla.
      destruct (length (heap w)) as [|L] eqn:EL; [lia|].
      destruct (clear_returns L c (VBool true) wa Hwfa) as (w' & Hw' & Hpost);
        [lia|lia|].
      exists w'. split; [done|]. split.
      * unfold Store_clear. eapply clear_fuel_mono; [|exact Hw']. lia.
      * eapply (clear_post_trans (S s) c); [lia|exact Hwa|exact Hpost].
    + by apply clear_post_refl.
    + by exists w2.
  - exists (clear_own w s meta). repeat split; try done.
    by apply clear_post_refl.
Qed.

Lemma Store_clear_decompose (s : sid) (meta : Meta) (nested : jsval)
    (w w2 : World) :
  heap w !! s = Some meta ->
  (if truthy nested then
     let! meta := data_get (RStore s) in
     forEach (Object_values (children meta)) (fun child =>
       Store_clear_ (length (heap w)) (RStore child) (VBool true))
   else ret tt) (clear_own w s meta) = Return tt w2 ->
  Store_clear (RStore s) nested w =
    Return tt (mkWorld (heap w2) (emitted w2 ++ [(s, StoreCleared)])
                       (subscriptions w2)).
Proof.
  intros Hm H2. unfold Store_clear. rewrite Store_clear_unfold.
  rewrite (bind_Return _ _ _ _ _ (data_get_Some _ _ _ Hm)).
  simpl target. rewrite (bind_Return _ _ _ _ _ (clear_items _ _ _ Hm)).
  rewrite (bind_Return _ _ _ _ _ H2).
  by rewrite emit_other.
Qed.

(** [clear] returns and leaves the node without items. *)
Lemma Store_clear_empties (s : sid) (meta : Meta) (nested : jsval) (w : World) :
  wf w ->
  heap w !! s = Some meta ->
  exists w',
    Store_clear (RStore s) nested w = Return tt w' /\
    heap w' !! s = Some (mkMeta (children meta) (parent meta) []).
Proof.
  intros Hwf Hm.
  destruct (clear_children s meta nested w Hwf Hm)
    as (w2 & H2 & _ & _ & _ & _ & _ & Hfr & _).
  eexists. split; [by eapply Store_clear_decompose|].
  simpl. rewrite Hfr by lia. by apply clear_own_lookup.
Qed.

(** C5, counterexample: with [clear(true)] the child's store-cleared
    comes before the root's. *)
Lemma clear_nested_child_first :
  returned (clear_nested init) = Some [(1, StoreCleared); (0, StoreCleared)].
Proof. vm_compute. reflexivity. Qed.

(** C5, amended: [clear(nested)] first removes this node's own items,
    emitting one item-removed per item; with a truthy [nested] every
    child then performs its own full [clear(true)], and only after the
    children does this node emit its single store-cleared event, the
    last event of the call; the events in between come from stores
    below this node.  With a falsy [nested] nothing but this node's own
    entry changes and the children are not visited. *)
Theorem clear_order (s : sid) (meta : Meta) (nested : jsval) (w : World) :
  wf w ->
  heap w !! s = Some meta ->
  exists w2 evs,
    (if truthy nested then
       forEach (Object_values (children meta))
               (fun child => Store_clear (RStore child) (VBool true))
     else ret tt) (clear_own w s meta) = Return tt w2 /\
    emitted w2 = emitted (clear_own w s meta) ++ evs /\
    Forall (fun e => s < e.1) evs /\
    heap w2 !! s = Some (mkMeta (children meta) (parent meta) []) /\
    Store_clear (RStore s) nested w =
      Return tt (mkWorld (heap w2) (emitted w2 ++ [(s, StoreCleared)])
                         (subscriptions w2)) /\
    (truthy nested = false -> w2 = clear_own w s meta).
Proof.
  intros Hwf Hm.
  destruct (clear_children s meta nested w Hwf Hm)
    as (w2 & H2 & H2' & Hf & Hp2).
  destruct Hp2 as (_ & _ & _ & Hfr & evs & Hev & Hall).
  exists w2, evs. split; [done|]. split; [done|]. split.
  { eapply Forall_impl; [exact Hall|]. simpl. intros. lia. }
  split; [by rewrite Hfr by lia; apply clear_own_lookup|].
  split; [|done].
  by eapply Store_clear_decompose.
Qed.

Lemma clear_order_witness :
  exists w2 evs,
    forEach (Object_values [("child", 1)])
            (fun child => Store_clear (RStore child) (VBool true))
            (clear_own (world_of (clear_nested_setup init)) 0
               (mkMeta [("child", 1)] None [("a", VNumber 1)])) =
      Return tt w2 /\
    emitted w2 =
      emitted (clear_own (world_of (clear_nested_setup init)) 0
                 (mkMeta [("child", 1)] None [("a", VNumber 1)])) ++ evs /\
    Forall (fun e => 0 < e.1) evs /\
    Store_clear (RStore 0) (VBool true) (world_of (clear_nested_setup init)) =
      Return tt (mkWorld (heap w2) (emitted w2 ++ [(0, StoreCleared)])
                         (subscriptions w2)).
Proof.
  destruct (clear_order 0 (mkMeta [("child", 1)] None [("a", VNumber 1)])
              (VBool true) (world_of (clear_nested_setup init))
              eq_refl eq_refl) as (w2 & evs & H1 & H2 & H3 & _ & H4 & _).
  by exists w2, evs.
Defined.

(** ** [set] and [delete] on a bare key *)

Lemma Store_set_bare c meta k v w :
  heap w !! c = Some meta -> bare k -> invalidName (VString k) = false ->
  Store_set (RStore c) (VString k) v w =
  Return (RStore c)
    (mkWorld (<[c := mkMeta (children meta) (parent meta)
                            (Map_set (items meta) k v)]> (heap w))
             (emitted w ++ [(c, ItemSet k v)])
             (notify c (ItemSet k v) <$> subscriptions w)).
Proof.
  intros Hc Hk Hv. unfold Store_set.
  rewrite (bind_Return _ _ _ _ _ (throwIfInvalidName_valid _ w Hv)).
  simpl str.
  rewrite (bind_Return _ _ _ _ _ (getPropData_bare _ _ _ _ Hk Hc)).
  unfold bind, items_set, update, emit, ret. by rewrite Hc.
Qed.

Lemma Store_delete_bare c meta k w :
  heap w !! c = Some meta -> bare k -> invalidName (VString k) = false ->
  Store_delete (RStore c) (VString k) w =
  Return tt
    (mkWorld (<[c := mkMeta (children meta) (parent meta)
                            (Map_delete (items meta) k)]> (heap w))
             (emitted w ++ [(c, ItemRemoved k)])
             (subscriptions w)).
Proof.
  intros Hc Hk Hv. unfold Store_delete.
  rewrite (bind_Return _ _ _ _ _ (throwIfInvalidName_valid _ w Hv)).
  simpl str.
  rewrite (bind_Return _ _ _ _ _ (getPropData_bare _ _ _ _ Hk Hc)).
  unfold bind, items_delete, update. rewrite Hc.
  by rewrite emit_other.
Qed.

(** The exported [delete] emits also when the key is absent, and then
    changes nothing else; the guarded source does nothing at all. *)
Lemma Store_delete_absent c meta k w :
  heap w !! c = Some meta -> bare k -> invalidName (VString k) = false ->
  Map_get (items meta) k = None ->
  Store_delete (RStore c) (VString k) w =
    Return tt (mkWorld (heap w) (emitted w ++ [(c, ItemRemoved k)])
                       (subscriptions w)) /\
  Store_delete_src (RStore c) (VString k) w = Return tt w.
Proof.
  intros Hc Hk Hv Hn. split.
  - rewrite (Store_delete_bare _ _ _ _ Hc Hk Hv).
    rewrite (Map_delete_absent _ _ Hn).
    rewrite list_insert_id; [done|]. by destruct meta.
  - unfold Store_delete_src.
    rewrite (bind_Return _ _ _ _ _ (throwIfInvalidName_valid _ w Hv)).
    simpl str.
    rewrite (bind_Return _ _ _ _ _ (getPropData_bare _ _ _ _ Hk Hc)).
    unfold Store_has.
    rewrite bind_assoc.
    rewrite (bind_Return _ _ _ _ _ (throwIfInvalidName_valid _ w Hv)).
    rewrite bind_assoc.
    rewrite (bind_Return _ _ _ _ _ (data_get_Some _ _ _ Hc)).
    unfold bind, ret, Map_has_value, Map_has. by rewrite Hn.
Qed.

(** ** Children reached through a readonly proxy *)

Lemma step_valid r name w r' w' :
  wf w -> getChildStore_step r name w = Return r' w' ->
  exists c, r' = RStore c /\ c < length (heap w').
Proof.
  intros Hwf H. pose proof (step_wf _ _ _ _ _ Hwf H) as Hwf'.
  apply step_child_of in H as (s & c & -> & -> & Hc).
  exists c. split; [done|]. unfold child_of in Hc.
  destruct (heap w' !! s) as [meta|] eqn:Hs; [|done].
  pose proof (wf_meta_child _ _ _ _ _ (wf_lookup _ _ _ Hwf' Hs) Hc). lia.
Qed.

Lemma getChildStore_valid names r w r' w' :
  wf w -> names <> [] -> getChildStore r names w = Return r' w' ->
  exists c, r' = RStore c /\ c < length (heap w').
Proof.
  revert r w. induction names as [|name rest IH]; intros r w Hwf Hne; [done|].
  simpl. intros H. apply bind_Return_inv in H as (a & w1 & H1 & H2).
  destruct rest as [|name' rest].
  - simpl in H2. injection H2 as <- <-. by eapply step_valid.
  - eapply IH; [by eapply step_wf|done|exact H2].
Qed.

Lemma wf_set_items w c meta it em subs :
  wf w -> heap w !! c = Some meta ->
  wf (mkWorld (<[c := mkMeta (children meta) (parent meta) it]> (heap w)) em subs).
Proof.
  intros Hwf Hc. eapply wf_shape; [|exact Hwf].
  unfold shape. cbn -[lookup insert]. rewrite list_fmap_insert. simpl.
  symmetry. apply list_insert_id. by rewrite list_lookup_fmap, Hc.
Qed.

Lemma descend_le w w' s names c :
  children_le w w' -> descend w s names = Some c -> descend w' s names = Some c.
Proof.
  intros Hle. revert s. induction names as [|name rest IH]; intros s; simpl;
    [done|].
  destruct (child_of w s name) as [c1|] eqn:E; [|done].
  rewrite (Hle _ _ _ E). apply IH.
Qed.

(** What path resolution returns is the store registered under the
    path. *)
Lemma getChildStore_descend names :
  forall s w c w',
    getChildStore (RStore s) names w = Return c w' ->
    exists c', c = RStore c' /\ descend w' s names = Some c'.
Proof.
  induction names as [|name rest IH]; intros s w c w'; simpl.
  - intros [= <- <-]. by exists s.
  - intros H. apply bind_Return_inv in H as (c1 & w1 & H1 & H2).
    pose proof (getChildStore_children_le _ _ _ _ _ H2) as Hle.
    apply step_child_of in H1 as (s' & c1' & [= <-] & -> & Hc).
    rewrite (Hle _ _ _ Hc). by eapply IH.
Qed.

(** In a well-formed heap a store registered under a path is younger
    than the store the path starts from. *)
Lemma descend_lt w names :
  wf w -> names <> [] ->
  forall s c, descend w s names = Some c -> s < c.
Proof.
  intros Hwf. induction names as [|name rest IH]; [done|].
  intros _ s c. simpl.
  destruct (child_of w s name) as [c1|] eqn:E; [|done].
  assert (s < c1) as Hlt.
  { unfold child_of in E. destruct (heap w !! s) as [meta|] eqn:Hs; [|done].
    apply Map_get_elem_of in E.
    pose proof (wf_meta_elem _ _ _ _ _ (wf_lookup _ _ _ Hwf Hs) E). lia. }
  destruct rest as [|name' rest'].
  - simpl. intros [= <-]. done.
  - intros H. apply IH in H; [lia|done].
Qed.

(** C10: a readonly view is not transitively readonly.  For a view
    [r] returned by [parent()] or [root()], [r.for(p)] is the very call
    [n.for(p)] on the wrapped store [n]; what it returns is a store, not
    a view: the store registered under the path [p] below [n], a proper
    descendant of [n]; and on it [set] stores the value, [delete]
    removes it again and [clear] empties the items. *)
Theorem view_for_is_writable (x r : Ref) (w0 w0' : World) (p : jsval)
    (w : World) (res : Result) (w1 : World) :
  wf w ->
  Store_parent x w0 = Return (VStore r) w0' \/
  Store_root x w0 = Return r w0' ->
  invoke r m_for [p] w = Return res w1 ->
  exists c,
    res = Value (VStore (RStore c)) /\
    invoke (RStore (target r)) m_for [p] w = Return res w1 /\
    descend w1 (target r) (split "/" (str p)) = Some c /\
    target r < c /\
    forall k v, bare k -> invalidName (VString k) = false ->
      exists w2,
        invoke (RStore c) m_set [VString k; v] w1 =
          Return (Value (VStore (RStore c))) w2 /\
        local w2 c k = Some v /\
        (exists w3,
            invoke (RStore c) m_delete [VString k] w2 =
              Return (Value VUndefined) w3 /\
            local w3 c k = None) /\
        (forall nested, exists w3 meta,
            invoke (RStore c) m_clear [nested] w2 =
              Return (Value VUndefined) w3 /\
            heap w3 !! c = Some meta /\ items meta = []).
Proof.
  intros Hwf Hv H.
  assert (exists n, r = RView n) as [n ->].
  { destruct Hv as [Hv|Hv];
      [by eapply Store_parent_view|by eapply Store_root_view]. }
  simpl in H. simpl target.
  apply bind_Return_inv in H as (c' & w1' & Hfor & Hres).
  injection Hres as <- ->.
  pose proof Hfor as Hfor'. unfold Store_for in Hfor'.
  apply bind_Return_inv in Hfor' as (u & wv & Hval & Hg).
  destruct (throwIfInvalidName_cases (arg 0 [p]) w) as [E|E];
    rewrite E in Hval; [done|]. injection Hval as <- <-.
  pose proof (getChildStore_wf _ _ _ _ _ Hwf Hg) as Hwf1.
  pose proof (getChildStore_descend _ _ _ _ _ Hg) as (cd & Hcd & Hdesc).
  apply getChildStore_valid in Hg as (c & -> & Hc);
    [|done|apply split_nonempty].
  injection Hcd as <-.
  destruct (lookup_lt_is_Some_2 _ _ Hc) as [meta Hm].
  exists c. split; [done|]. split.
  { simpl. by rewrite (bind_Return _ _ _ _ _ Hfor). }
  split; [exact Hdesc|]. split.
  { eapply descend_lt; [exact Hwf1|apply split_nonempty|exact Hdesc]. }
  intros k v Hk Hkv. eexists. split.
  { simpl. unfold arg. simpl.
    by rewrite (bind_Return _ _ _ _ _ (Store_set_bare _ _ _ v _ Hm Hk Hkv)). }
  assert (<[c := mkMeta (children meta) (parent meta)
                        (Map_set (items meta) k v)]> (heap w1) !! c =
          Some (mkMeta (children meta) (parent meta)
                       (Map_set (items meta) k v))) as Hm2.
  { by apply list_lookup_insert_eq. }
  split.
  { unfold local. cbn -[lookup insert]. rewrite Hm2. simpl.
    apply Map_get_set_eq. }
  split.
  - eexists. split.
    { simpl. unfold arg. simpl.
      erewrite bind_Return; [done|].
      by apply Store_delete_bare. }
    unfold local. cbn -[lookup insert].
    rewrite list_lookup_insert_eq by (by rewrite length_insert).
    simpl. apply Map_get_delete_eq.
  - intros nested.
    match goal with
    | |- context [invoke _ _ _ ?w2] =>
        assert (wf w2) as Hwf2 by (by apply wf_set_items);
        destruct (Store_clear_empties c _ nested w2 Hwf2 Hm2)
          as (w3 & Hclear & Hc3)
    end.
    eexists _, _. split.
    { simpl. unfold arg. simpl. by rewrite (bind_Return _ _ _ _ _ Hclear). }
    by split.
Qed.

Lemma view_for_is_writable_witness :
  exists c w2,
    invoke (RView 0) m_for [VString "child"] (world_of (root_and_child init)) =
      Return (Value (VStore (RStore c))) (world_of (root_and_child init)) /\
    invoke (RStore c) m_set [VString "key"; VNumber 1]
           (world_of (root_and_child init)) =
      Return (Value (VStore (RStore c))) w2 /\
    local w2 c "key" = Some (VNumber 1).
Proof.
  destruct (view_for_is_writable (RStore 1) (RView 0)
              (world_of (root_and_child init)) (world_of (root_and_child init))
              (VString "child") (world_of (root_and_child init))
              (Value (VStore (RStore 1))) (world_of (root_and_child init))
              eq_refl (or_introl eq_refl) eq_refl)
    as (c & Hres & _ & _ & _ & Hset).
  destruct (Hset "key" (VNumber 1) eq_refl eq_refl) as (w2 & H1 & H2 & _).
  exists c, w2. injection Hres as <-. by repeat split.
Defined.

(** ** Inheritance and its end *)

Lemma notify_parent_watching c r k v rec :
  r <> c ->
  notify r (ItemSet k v) (mkSubscription (watching c r k) rec) =
  mkSubscription (watching c r k) (rec ++ [v]).
Proof.
  intros Hne. unfold notify, watching. simpl.
  rewrite Nat.eqb_refl, String.eqb_refl.
  apply Nat.eqb_neq in Hne. rewrite Nat.eqb_sym in Hne. by rewrite Hne.
Qed.

Lemma notify_local_watching c r k v rec :
  notify c (ItemSet k v) (mkSubscription (watching c r k) rec) =
  mkSubscription (overriding c k) (rec ++ [v]).
Proof.
  unfold notify, watching, overriding. simpl.
  by rewrite Nat.eqb_refl, String.eqb_refl.
Qed.

Lemma notify_parent_overriding c r k v rec :
  r <> c ->
  notify r (ItemSet k v) (mkSubscription (overriding c k) rec) =
  mkSubscription (overriding c k) rec.
Proof.
  intros Hne. unfold notify, overriding. simpl.
  apply Nat.eqb_neq in Hne. rewrite Nat.eqb_sym in Hne. rewrite Hne. simpl.
  by rewrite app_nil_r.
Qed.

Lemma notify_local_overriding c k v rec :
  notify c (ItemSet k v) (mkSubscription (overriding c k) rec) =
  mkSubscription (overriding c k) (rec ++ [v]).
Proof.
  unfold notify, overriding. simpl.
  by rewrite Nat.eqb_refl, String.eqb_refl.
Qed.

Lemma get_bare_root r meta k fuel w :
  heap w !! r = Some meta -> parent meta = None ->
  bare k -> invalidName (VString k) = false ->
  Store_get_ (S fuel) (RStore r) (VString k) w =
  Return (OMerge (changes_obs meta r k k)
                 (OTakeUntil OEmpty (changes_obs meta r k k))) w.
Proof.
  intros Hr Hp Hk Hv. rewrite Store_get_unfold.
  rewrite (bind_Return _ _ _ _ _ (throwIfInvalidName_valid _ w Hv)).
  simpl str.
  rewrite (bind_Return _ _ _ _ _ (getPropData_bare _ _ _ _ Hk Hr)).
  rewrite (bind_Return _ _ _ _ _ (data_get_Some _ _ _ Hr)).
  rewrite (bind_Return _ _ _ _ _ (items_get_Some _ _ _ _ Hr)).
  rewrite Hp. unfold bind at 1. unfold ret at 1.
  rewrite (bind_Return _ _ _ _ _ (items_has_Some _ _ _ _ Hr)).
  unfold changes_obs, ret. simpl target.
  by destruct (Map_has (items meta) k).
Qed.

Lemma get_bare_child c meta p inherit k fuel w :
  heap w !! c = Some meta -> parent meta = Some p ->
  bare k -> invalidName (VString k) = false ->
  Store_get_ fuel p (VString k) w = Return inherit w ->
  Store_get_ (S fuel) (RStore c) (VString k) w =
  Return (OMerge (changes_obs meta c k k)
                 (OTakeUntil inherit (changes_obs meta c k k))) w.
Proof.
  intros Hc Hp Hk Hv Hi. rewrite Store_get_unfold.
  rewrite (bind_Return _ _ _ _ _ (throwIfInvalidName_valid _ w Hv)).
  simpl str.
  rewrite (bind_Return _ _ _ _ _ (getPropData_bare _ _ _ _ Hk Hc)).
  rewrite (bind_Return _ _ _ _ _ (data_get_Some _ _ _ Hc)).
  rewrite (bind_Return _ _ _ _ _ (items_get_Some _ _ _ _ Hc)).
  rewrite Hp. rewrite (bind_Return _ _ _ _ _ Hi).
  rewrite (bind_Return _ _ _ _ _ (items_has_Some _ _ _ _ Hc)).
  unfold changes_obs, ret. simpl target.
  by destruct (Map_has (items meta) k).
Qed.

Lemma scene_set_root w r n sub v :
  scene w r n sub ->
  exists w',
    Store_set (RStore r) (VString "key") v w = Return (RStore r) w' /\
    scene w' r n (notify r (ItemSet "key" v) sub).
Proof.
  intros ((ch & ri & Hr) & (ch' & ci & Hc) & Hn).
  eexists. split; [by eapply Store_set_bare|].
  split; [|split]; cbn -[lookup insert].
  - eexists _, _. apply list_lookup_insert_eq. by eapply lookup_lt_Some.
  - eexists _, _. rewrite list_lookup_insert_ne by lia. exact Hc.
  - by rewrite list_lookup_fmap, Hn.
Qed.

Lemma scene_set_child w r n sub v :
  scene w r n sub ->
  exists w',
    Store_set (RStore (S r)) (VString "key") v w = Return (RStore (S r)) w' /\
    scene w' r n (notify (S r) (ItemSet "key" v) sub).
Proof.
  intros ((ch & ri & Hr) & (ch' & ci & Hc) & Hn).
  eexists. split; [by eapply Store_set_bare|].
  split; [|split]; cbn -[lookup insert].
  - eexists _, _. rewrite list_lookup_insert_ne by lia. exact Hr.
  - eexists _, _. apply list_lookup_insert_eq. by eapply lookup_lt_Some.
  - by rewrite list_lookup_fmap, Hn.
Qed.

(** A fresh root, its child, and a subscriber to the child's key, set
    up in any world. *)
Lemma scene_setup w :
  exists w1 w2 o w3,
    new_Store VUndefined w = Return (RStore (length (heap w))) w1 /\
    Store_for (RStore (length (heap w))) (VString "child") w1 =
      Return (RStore (S (length (heap w)))) w2 /\
    Store_get (RStore (S (length (heap w)))) (VString "key") w2 = Return o w2 /\
    subscribe o w2 = Return (length (subscriptions w)) w3 /\
    scene w3 (length (heap w)) (length (subscriptions w))
      (mkSubscription (watching (S (length (heap w))) (length (heap w)) "key") []).
Proof.
  set (L := length (heap w)).
  set (w1 := mkWorld (heap w ++ [mkMeta [] None []]) (emitted w) (subscriptions w)).
  assert (heap w1 !! L = Some (mkMeta [] None [])) as H1.
  { unfold w1. cbn -[lookup]. rewrite lookup_app_r by (unfold L; lia).
    unfold L. by rewrite Nat.sub_diag. }
  assert (length (heap w1) = S L) as HL1.
  { unfold w1. cbn -[lookup]. rewrite length_app. simpl. unfold L. lia. }
  set (w2 := add_child w1 L (mkMeta [] None []) "child").
  assert (heap w2 !! L = Some (mkMeta [("child", S L)] None [])) as H2r.
  { unfold w2, add_child. cbn -[lookup insert w1]. rewrite HL1.
    apply list_lookup_insert_eq. rewrite length_app, HL1. lia. }
  assert (heap w2 !! S L = Some (mkMeta [] (Some (RStore L)) [])) as H2c.
  { unfold w2, add_child. cbn -[lookup insert w1].
    rewrite list_lookup_insert_ne by lia.
    rewrite lookup_app_r by lia. by rewrite HL1, Nat.sub_diag. }
  set (o := OMerge (OItemSet (S L) "key")
              (OTakeUntil (OMerge (OItemSet L "key")
                                  (OTakeUntil OEmpty (OItemSet L "key")))
                          (OItemSet (S L) "key"))).
  exists w1, w2, o. eexists. split; [done|]. split.
  { unfold Store_for.
    rewrite (bind_Return _ _ _ _ _
               (throwIfInvalidName_valid (VString "child") w1 eq_refl)).
    change (split "/" (str (VString "child"))) with ["child"].
    simpl getChildStore.
    erewrite bind_Return by (by apply (step_create L (mkMeta [] None []))).
    unfold ret. by rewrite HL1. }
  split.
  { unfold Store_get. change (split "/" (str (VString "key"))) with ["key"].
    simpl length at 2.
    destruct (length (heap w2) + 1) as [|[|fuel]] eqn:Ef.
    - lia.
    - apply lookup_lt_Some in H2c. lia.
    - by apply (get_bare_child (S L) (mkMeta [] (Some (RStore L)) []) (RStore L));
        [| | | |apply (get_bare_root L (mkMeta [("child", S L)] None []))]. }
  split; [done|]. split; [|split]; cbn -[lookup insert w1 w2].
  - by eexists _, _.
  - by eexists _, _.
  - rewrite lookup_app_r by done. by rewrite Nat.sub_diag.
Qed.

(** C1: a subscriber to [child.get('key')] that subscribed before any
    mutation sees, for the sets root a, root b, root c, child d, root e,
    root f, child g, exactly a, b, c, d, g: the parent's values until the
    first local set, none of the parent's values after it, and nothing
    that was delivered is taken back.  The root is a new store in an
    arbitrary world. *)
Theorem interleaved_sets_observed (a b c d e f g : jsval) (w : World) :
  returned (interleaved_sets a b c d e f g w) = Some [a; b; c; d; g].
Proof.
  unfold interleaved_sets.
  destruct (scene_setup w) as (w1 & w2 & o & w3 & H1 & H2 & H3 & H4 & Hs).
  rewrite (bind_Return _ _ _ _ _ H1), (bind_Return _ _ _ _ _ H2),
    (bind_Return _ _ _ _ _ H3), (bind_Return _ _ _ _ _ H4).
  set (r := length (heap w)) in *. set (n := length (subscriptions w)) in *.
  assert (r <> S r) as Hne by lia.
  destruct (scene_set_root _ _ _ _ a Hs) as (wa & Ha & Hsa).
  rewrite notify_parent_watching in Hsa by done.
  destruct (scene_set_root _ _ _ _ b Hsa) as (wb & Hb & Hsb).
  rewrite notify_parent_watching in Hsb by done.
  destruct (scene_set_root _ _ _ _ c Hsb) as (wc & Hc & Hsc).
  rewrite notify_parent_watching in Hsc by done.
  destruct (scene_set_child _ _ _ _ d Hsc) as (wd & Hd & Hsd).
  rewrite notify_local_watching in Hsd.
  destruct (scene_set_root _ _ _ _ e Hsd) as (we & He & Hse).
  rewrite notify_parent_overriding in Hse by done.
  destruct (scene_set_root _ _ _ _ f Hse) as (wf' & Hf & Hsf).
  rewrite notify_parent_overriding in Hsf by done.
  destruct (scene_set_child _ _ _ _ g Hsf) as (wg & Hg & Hsg).
  rewrite notify_local_overriding in Hsg.
  rewrite (bind_Return _ _ _ _ _ Ha), (bind_Return _ _ _ _ _ Hb),
    (bind_Return _ _ _ _ _ Hc), (bind_Return _ _ _ _ _ Hd),
    (bind_Return _ _ _ _ _ He), (bind_Return _ _ _ _ _ Hf),
    (bind_Return _ _ _ _ _ Hg).
  simpl. unfold seen. destruct Hsg as (_ & _ & Hn). by rewrite Hn.
Qed.

(** ** Well-formedness is an invariant of the public operations *)

Lemma new_Store_wf ancestor w r w' :
  wf w ->
  (forall a, ancestor = VStore a -> target a < length (heap w)) ->
  new_Store ancestor w = Return r w' -> wf w'.
Proof.
  intros Hwf Ha. unfold new_Store.
  destruct (negb (isUndefined ancestor) && negb (instanceofStore ancestor));
    [done|].
  intros [= _ <-]. apply wf_intro. intros s m. cbn -[lookup].
  rewrite length_app. simpl.
  destruct (decide (s < length (heap w))) as [Hs|Hs].
  - rewrite lookup_app_l by done. intros Hm.
    pose proof (wf_lookup _ _ _ Hwf Hm) as H.
    apply wf_meta_intro.
    + intros a. by apply (wf_meta_parent _ _ _ _ H).
    + intros k c Hin. eapply wf_meta_elem in Hin; [|done]. lia.
  - rewrite lookup_app_r by lia.
    destruct (s - length (heap w)) as [|j] eqn:Ej; simpl; [|done].
    intros [= <-]. apply wf_meta_intro; simpl.
    + intros a Hanc. destruct ancestor; try done.
      injection Hanc as ->. specialize (Ha a eq_refl). lia.
    + intros k c Hin. by apply elem_of_nil in Hin.
Qed.

Lemma root_loop_world fuel current ancestor w r w' :
  root_loop fuel current ancestor w = Return r w' -> w' = w.
Proof.
  revert current ancestor. induction fuel as [|fuel IH]; intros current ancestor.
  - destruct ancestor; simpl; [done|]. by intros [= _ <-].
  - destruct ancestor as [a|]; simpl; [|by intros [= _ <-]].
    intros H. apply bind_Return_inv in H as (meta & w1 & H1 & H2).
    apply data_get_inv in H1 as (-> & _). by eapply IH.
Qed.

Lemma root_loop_no_Diverge fuel current ancestor w :
  wf w ->
  (forall a, ancestor = Some a -> target a < fuel) ->
  root_loop fuel current ancestor w <> Diverge.
Proof.
  intros Hwf. revert current ancestor.
  induction fuel as [|fuel IH]; intros current ancestor Ha.
  - destruct ancestor as [a|]; [|done]. specialize (Ha a eq_refl). lia.
  - destruct ancestor as [a|]; [|done]. simpl.
    apply bind_no_Diverge; [apply data_get_no_Diverge|].
    intros meta w1 H1. apply data_get_inv in H1 as (-> & s & -> & Hs).
    apply IH. intros a Hp.
    pose proof (wf_meta_parent _ _ _ _ (wf_lookup _ _ _ Hwf Hs) Hp).
    specialize (Ha (RStore s) eq_refl). simpl in Ha. lia.
Qed.

(** With a well-formed heap the loop of [root] ends. *)
Lemma Store_root_no_Diverge this w : wf w -> Store_root this w <> Diverge.
Proof.
  intros Hwf. unfold Store_root.
  apply bind_no_Diverge; [apply data_get_no_Diverge|].
  intros meta w1 H1. apply data_get_inv in H1 as (-> & s & -> & Hs).
  apply bind_no_Diverge; [|done].
  apply root_loop_no_Diverge; [done|]. intros a Hp.
  pose proof (wf_meta_parent _ _ _ _ (wf_lookup _ _ _ Hwf Hs) Hp).
  apply lookup_lt_Some in Hs. lia.
Qed.

Lemma preserves_ret {A} (a : A) : preserves (ret a).
Proof. by intros w Hwf. Qed.

Lemma preserves_throw {A} e : preserves (@throw A e).
Proof. by intros w Hwf. Qed.

Lemma preserves_bind {A B} (m : M A) (k : A -> M B) :
  preserves m -> (forall a, preserves (k a)) -> preserves (bind m k).
Proof.
  intros Hm Hk w Hwf. specialize (Hm w Hwf). unfold bind.
  destruct (m w) as [a w1|e w1|]; [by apply Hk|done|done].
Qed.

Lemma preserves_data_get r : preserves (data_get r).
Proof.
  intros w Hwf. unfold data_get. destruct r as [s|s]; [|done].
  by destruct (heap w !! s).
Qed.

Lemma preserves_throwIfInvalidName v : preserves (throwIfInvalidName v).
Proof.
  intros w Hwf. by destruct (throwIfInvalidName_cases v w) as [-> | ->].
Qed.

Lemma preserves_update s f :
  (forall meta, children (f meta) = children meta /\
                parent (f meta) = parent meta) ->
  preserves (update s f).
Proof.
  intros Hf w Hwf. unfold update.
  destruct (heap w !! s) as [meta|] eqn:Hs; [|done].
  destruct (Hf meta) as [Hc Hp]. destruct (f meta) as [ch pa it].
  simpl in Hc, Hp. subst ch pa. by apply wf_set_items.
Qed.

Lemma preserves_emit store e : preserves (emit store e).
Proof.
  intros w Hwf. unfold emit. eapply wf_shape; [|exact Hwf]. done.
Qed.

Lemma preserves_step r name : preserves (getChildStore_step r name).
Proof.
  intros w Hwf. destruct r as [s|s]; [|by rewrite step_view].
  destruct (heap w !! s) as [meta|] eqn:Hs; [|by rewrite step_dangling].
  destruct (Object_get (children meta) name) as [c| |] eqn:Hc.
  - unfold Object_get in Hc.
    destruct (Map_get (children meta) name) as [c'|] eqn:Hg.
    + by rewrite (step_found _ _ _ _ _ Hs Hg).
    + by destruct (inObjectPrototype name).
  - by rewrite (step_inherited _ _ _ _ Hs Hc).
  - destruct (Map_has (items meta) name) eqn:Hi.
    + by rewrite (step_item _ _ _ _ Hs Hc Hi).
    + rewrite (step_create _ _ _ _ Hs Hc Hi). by apply wf_add_child.
Qed.

Lemma preserves_getChildStore names : forall r, preserves (getChildStore r names).
Proof.
  induction names as [|name rest IH]; intros r; simpl.
  - apply preserves_ret.
  - apply preserves_bind; [apply preserves_step|done].
Qed.

Lemma preserves_getPropData r name : preserves (getPropData r name).
Proof.
  unfold getPropData.
  destruct (pop (split "/" name)) as [[prop|] names]; [|apply preserves_throw].
  apply preserves_bind; [apply preserves_getChildStore|]. intros store.
  apply preserves_bind; [apply preserves_data_get|]. intros _.
  apply preserves_ret.
Qed.

Lemma preserves_forEach {A} (f : A -> M unit) (l : list A) :
  (forall x, preserves (f x)) -> preserves (forEach l f).
Proof.
  intros Hf. induction l as [|x l IH]; simpl; [apply preserves_ret|].
  by apply preserves_bind.
Qed.

Lemma preserves_Store_get_ fuel :
  forall this name, preserves (Store_get_ fuel this name).
Proof.
  induction fuel as [|fuel IH]; intros this name; [done|].
  rewrite Store_get_unfold.
  apply preserves_bind; [apply preserves_throwIfInvalidName|]. intros _.
  apply preserves_bind; [apply preserves_getPropData|].
  intros [[store prop] h].
  apply preserves_bind; [apply preserves_data_get|]. intros meta.
  apply preserves_bind.
  { unfold items_get. apply preserves_bind; [apply preserves_data_get|].
    intros. apply preserves_ret. }
  intros value. apply preserves_bind.
  { destruct (parent meta); [apply IH|apply preserves_ret]. }
  intros inherit. apply preserves_bind.
  { unfold items_has. apply preserves_bind; [apply preserves_data_get|].
    intros. apply preserves_ret. }
  intros has. apply preserves_ret.
Qed.

Lemma preserves_Store_clear_ fuel :
  forall this nested, preserves (Store_clear_ fuel this nested).
Proof.
  induction fuel as [|fuel IH]; intros this nested; [done|].
  rewrite Store_clear_unfold.
  apply preserves_bind; [apply preserves_data_get|]. intros meta.
  apply preserves_bind.
  { apply preserves_forEach. intros entry.
    apply preserves_bind; [by apply preserves_update|].
    intros _. apply preserves_emit. }
  intros _. apply preserves_bind; [|intros _; apply preserves_emit].
  destruct (truthy nested); [|apply preserves_ret].
  apply preserves_bind; [apply preserves_data_get|]. intros meta'.
  apply preserves_forEach. intros child. apply IH.
Qed.

Lemma preserves_root_loop fuel :
  forall current ancestor, preserves (root_loop fuel current ancestor).
Proof.
  induction fuel as [|fuel IH]; intros current ancestor.
  - destruct ancestor; simpl; [by intros w Hwf|apply preserves_ret].
  - destruct ancestor as [a|]; simpl; [|apply preserves_ret].
    apply preserves_bind; [apply preserves_data_get|]. intros meta. apply IH.
Qed.

Lemma preserves_prototype m this args : preserves (prototype m this args).
Proof.
  destruct m; simpl; (apply preserves_bind; [|intros; apply preserves_ret]).
  - unfold Store_for.
    apply preserves_bind; [apply preserves_throwIfInvalidName|]. intros _.
    apply preserves_getChildStore.
  - unfold Store_parent.
    apply preserves_bind; [apply preserves_data_get|]. intros meta.
    apply preserves_ret.
  - unfold Store_root.
    apply preserves_bind; [apply preserves_data_get|]. intros meta.
    apply preserves_bind; [|intros; apply preserves_ret].
    intros w Hwf. by apply preserves_root_loop.
  - unfold Store_has.
    apply preserves_bind; [apply preserves_throwIfInvalidName|]. intros _.
    apply preserves_bind; [apply preserves_data_get|]. intros meta.
    apply preserves_ret.
  - intros w Hwf. unfold Store_get. by apply preserves_Store_get_.
  - unfold Store_set.
    apply preserves_bind; [apply preserves_throwIfInvalidName|]. intros _.
    apply preserves_bind; [apply preserves_getPropData|].
    intros [[store prop] h].
    apply preserves_bind; [by apply preserves_update|]. intros _.
    apply preserves_bind; [apply preserves_emit|]. intros _.
    apply preserves_ret.
  - unfold Store_delete.
    apply preserves_bind; [apply preserves_throwIfInvalidName|]. intros _.
    apply preserves_bind; [apply preserves_getPropData|].
    intros [[store prop] h].
    apply preserves_bind; [by apply preserves_update|]. intros _.
    apply preserves_emit.
  - unfold Store_delete.
    apply preserves_bind; [apply preserves_throwIfInvalidName|]. intros _.
    apply preserves_bind; [apply preserves_getPropData|].
    intros [[store prop] h].
    apply preserves_bind; [by apply preserves_update|]. intros _.
    apply preserves_emit.
  - intros w Hwf. unfold Store_clear. by apply preserves_Store_clear_.
Qed.

(** Every method call leaves the heap well-formed. *)
Lemma preserves_invoke recv m args : preserves (invoke recv m args).
Proof.
  destruct recv as [s|s]; simpl; [apply preserves_prototype|].
  destruct m; try apply preserves_prototype; apply preserves_throw.
Qed.

(** Every reachable world is well-formed. *)
Lemma reachable_wf w : reachable w -> wf w.
Proof.
  induction 1 as [|ancestor w r w' _ IH Ha Hn|recv m args w res w' _ IH Hi
                  |recv m args w e w' _ IH Hi|o w n w' _ IH Hs].
  - apply wf_init.
  - by eapply new_Store_wf.
  - pose proof (preserves_invoke recv m args w IH) as H. by rewrite Hi in H.
  - pose proof (preserves_invoke recv m args w IH) as H. by rewrite Hi in H.
  - unfold subscribe in Hs. destruct (connect o) as [l out].
    injection Hs as _ <-. eapply wf_shape; [|exact IH]. done.
Qed.

(** ** [get] returns *)

Lemma get_bare_returns w n k :
  wf w -> plain w n -> bare k -> invalidName (VString k) = false ->
  forall fuel, n < fuel ->
    exists o, Store_get_ fuel (RStore n) (VString k) w = Return o w.
Proof.
  intros Hwf Hn Hk Hv.
  induction Hn as [s meta Hs Hp|s meta p Hs Hp _ IH]; intros fuel Hf.
  - destruct fuel as [|fuel]; [lia|]. eexists.
    by apply (get_bare_root s meta).
  - destruct fuel as [|fuel]; [lia|].
    pose proof (wf_meta_parent _ _ _ _ (wf_lookup _ _ _ Hwf Hs) Hp) as Hlt.
    simpl in Hlt. destruct (IH fuel) as [inherit Hi]; [lia|].
    eexists. by apply (get_bare_child s meta (RStore p) inherit).
Qed.

(** On a store whose ancestors are stores, [get] of a valid bare key
    returns an observable and leaves the world as it was. *)
Lemma Store_get_bare_returns w n k :
  wf w -> plain w n -> bare k -> invalidName (VString k) = false ->
  exists o, Store_get (RStore n) (VString k) w = Return o w.
Proof.
  intros Hwf Hn Hk Hv. unfold Store_get.
  apply get_bare_returns; try done.
  assert (n < length (heap w)); [|lia].
  destruct Hn as [s meta Hs _|s meta p Hs _ _]; by eapply lookup_lt_Some.
Qed.

(** ** Local sets on a bare key reach every subscriber *)

Lemma getting_connect meta n k inherit :
  (forall v, Map_get (items meta) k = Some v -> isScheduler v = false) ->
  getting n k
    (connect (OMerge (changes_obs meta n k k)
                     (OTakeUntil inherit (changes_obs meta n k k)))).1.
Proof.
  intros Hns. unfold changes_obs, Map_has.
  destruct (Map_get (items meta) k) as [v|]; simpl.
  - specialize (Hns v eq_refl). destruct v; try done; by left.
  - destruct (connect inherit) as [ss outs].
    destruct (completed ss); simpl; [by left|]. right. by exists ss.
Qed.

Lemma getting_notify n k store e sub :
  getting n k (listeners sub) ->
  getting n k (listeners (notify store e sub)).
Proof.
  intros Hg. destruct e as [name value| | |]; try done.
  unfold notify. destruct sub as [l rec]. simpl in *.
  destruct Hg as [->|[source ->]]; simpl.
  - by left.
  - destruct (Nat.eqb n store && String.eqb k name); simpl; [by left|].
    destruct (deliver store name value source) as [s' outs].
    destruct (completed s'); simpl; [by left|]. right. by exists s'.
Qed.

Lemma getting_notify_local n k v sub :
  getting n k (listeners sub) ->
  notify n (ItemSet k v) sub =
  mkSubscription (overriding n k) (received sub ++ [v]).
Proof.
  intros Hg. unfold notify, overriding. destruct sub as [l rec]. simpl in *.
  destruct Hg as [->|[source ->]]; simpl;
    by rewrite Nat.eqb_refl, String.eqb_refl.
Qed.

(** On a bare key the claim of C3 holds: a subscriber to [n.get(k)]
    starts with the local listener in place, keeps it through every
    event, and receives the value of every later [n.set(k, v)]; a value
    held at the call to [get] must not have a method [schedule]. *)
Lemma bare_get_delivers_local_sets n k w o w1 :
  bare k ->
  (forall v0, local w n k = Some v0 -> isScheduler v0 = false) ->
  Store_get (RStore n) (VString k) w = Return o w1 ->
  getting n k (connect o).1 /\
  forall wc m sub v meta,
    subscriptions wc !! m = Some sub ->
    getting n k (listeners sub) ->
    heap wc !! n = Some meta ->
    exists wd,
      Store_set (RStore n) (VString k) v wc = Return (RStore n) wd /\
      seen wd m = seen wc m ++ [v].
Proof.
  intros Hk Hns H. pose proof H as H'. unfold Store_get in H'.
  simpl str in H'.
  unfold bare in Hk. rewrite Hk in H'. simpl length in H'.
  rewrite Nat.add_succ_r in H'.
  apply Store_get_inv in H'
    as (s & prop & names & meta & inherit & Hv & Hp & Hg & Hs & Hi & ->).
  simpl in Hp. rewrite (pop_bare _ Hk) in Hp. injection Hp as <- <-.
  simpl in Hg. injection Hg as <- <-. split.
  { apply getting_connect. intros v0 Hv0. apply Hns. unfold local.
    by rewrite Hs. }
  intros wc m sub v meta' Hm Hget Hn.
  eexists. split; [by eapply Store_set_bare|].
  unfold seen. cbn -[lookup insert notify].
  rewrite list_lookup_fmap, Hm. cbn -[notify].
  by rewrite (getting_notify_local _ _ _ _ Hget).
Qed.

(** * Further properties *)

(** ** What every operation does to the world, step by step *)

Section Runs.
Context (R : World -> World -> Prop).
Hypothesis R_refl : forall w, R w w.
Hypothesis R_trans : forall w1 w2 w3, R w1 w2 -> R w2 w3 -> R w1 w3.
Hypothesis R_emit :
  forall store e w w', emit store e w = Return tt w' -> R w w'.
Hypothesis R_set :
  forall h k v w w', bare k -> items_set h k v w = Return tt w' -> R w w'.
Hypothesis R_delete :
  forall h k w w', items_delete h k w = Return tt w' -> R w w'.
Hypothesis R_create :
  forall s meta name w,
    heap w !! s = Some meta ->
    Object_get (children meta) name = LUndefined ->
    Map_has (items meta) name = false ->
    R w (add_child w s meta name).

Lemma runs_ret {A} (Q : A -> Prop) (a : A) : Q a -> runs R Q (ret a).
Proof. intros Ha w. by split. Qed.

Lemma runs_throw {A} (Q : A -> Prop) e : runs R Q (@throw A e).
Proof. intros w. apply R_refl. Qed.

Lemma runs_bind {A B} (Q : A -> Prop) (Q' : B -> Prop) (m : M A) (k : A -> M B) :
  runs R Q m -> (forall a, Q a -> runs R Q' (k a)) -> runs R Q' (bind m k).
Proof.
  intros Hm Hk w. specialize (Hm w). unfold bind.
  destruct (m w) as [a w1|e w1|]; [|done|done].
  destruct Hm as [H1 Ha]. specialize (Hk a Ha w1).
  destruct (k a w1) as [b w2|e w2|]; [|by eapply R_trans|done].
  destruct Hk as [H2 Hb]. split; [by eapply R_trans|done].
Qed.

Lemma runs_weaken {A} (Q Q' : A -> Prop) (m : M A) :
  (forall a, Q a -> Q' a) -> runs R Q m -> runs R Q' m.
Proof.
  intros HQ Hm w. specialize (Hm w). destruct (m w); [|done|done].
  destruct Hm. split; [done|by apply HQ].
Qed.

Lemma runs_data_get r : runs R (fun _ => True) (data_get r).
Proof.
  intros w. unfold data_get. destruct r as [s|s]; [|apply R_refl].
  destruct (heap w !! s); [by split|apply R_refl].
Qed.

Lemma runs_throwIfInvalidName v : runs R (fun _ => True) (throwIfInvalidName v).
Proof.
  intros w. destruct (throwIfInvalidName_cases v w) as [-> | ->];
    [apply R_refl|by split].
Qed.

Lemma runs_emit store e : runs R (fun _ => True) (emit store e).
Proof. intros w. split; [|done]. by eapply R_emit. Qed.

Lemma runs_items_set h k v : bare k -> runs R (fun _ => True) (items_set h k v).
Proof.
  intros Hk w. destruct (items_set h k v w) as [[] w'|e w'|] eqn:E.
  - split; [by eapply R_set|done].
  - unfold items_set, update in E. destruct (heap w !! h); [done|].
    injection E as _ <-. apply R_refl.
  - done.
Qed.

Lemma runs_items_delete h k : runs R (fun _ => True) (items_delete h k).
Proof.
  intros w. destruct (items_delete h k w) as [[] w'|e w'|] eqn:E.
  - split; [by eapply R_delete|done].
  - unfold items_delete, update in E. destruct (heap w !! h); [done|].
    injection E as _ <-. apply R_refl.
  - done.
Qed.

Lemma runs_step r name : runs R (fun _ => True) (getChildStore_step r name).
Proof.
  intros w. destruct r as [s|s]; [|rewrite step_view; apply R_refl].
  destruct (heap w !! s) as [meta|] eqn:Hs;
    [|rewrite step_dangling by done; apply R_refl].
  destruct (Object_get (children meta) name) as [c| |] eqn:Hc.
  - unfold Object_get in Hc.
    destruct (Map_get (children meta) name) as [c'|] eqn:Hg.
    + rewrite (step_found _ _ _ _ _ Hs Hg). by split.
    + by destruct (inObjectPrototype name).
  - rewrite (step_inherited _ _ _ _ Hs Hc). apply R_refl.
  - destruct (Map_has (items meta) name) eqn:Hi.
    + rewrite (step_item _ _ _ _ Hs Hc Hi). apply R_refl.
    + rewrite (step_create _ _ _ _ Hs Hc Hi). split; [|done].
      by apply R_create.
Qed.

Lemma runs_getChildStore names :
  forall r, runs R (fun _ => True) (getChildStore r names).
Proof.
  induction names as [|name rest IH]; intros r; simpl.
  - by apply runs_ret.
  - eapply runs_bind; [apply runs_step|]. intros c _. apply IH.
Qed.

Lemma runs_getPropData r name :
  runs R (fun x => bare x.1.2) (getPropData r name).
Proof.
  unfold getPropData. destruct (pop_split "/" name) as (prop & names & -> & Hb).
  eapply runs_bind; [apply runs_getChildStore|]. intros store _.
  eapply runs_bind; [apply runs_data_get|]. intros meta _.
  by apply runs_ret.
Qed.

Lemma runs_forEach {A} (f : A -> M unit) (l : list A) :
  (forall x, runs R (fun _ => True) (f x)) ->
  runs R (fun _ => True) (forEach l f).
Proof.
  intros Hf. induction l as [|x l IH]; simpl; [by apply runs_ret|].
  eapply runs_bind; [apply Hf|]. by intros.
Qed.

Lemma runs_Store_get_ fuel :
  forall this name, runs R (fun _ => True) (Store_get_ fuel this name).
Proof.
  induction fuel as [|fuel IH]; intros this name; [done|].
  rewrite Store_get_unfold.
  eapply runs_bind; [apply runs_throwIfInvalidName|]. intros _ _.
  eapply runs_bind; [apply runs_getPropData|].
  intros [[store prop] h] _.
  eapply runs_bind; [apply runs_data_get|]. intros meta _.
  eapply runs_bind.
  { unfold items_get. eapply runs_bind; [apply runs_data_get|].
    intros. by apply (runs_ret (fun _ => True)). }
  intros value _. eapply runs_bind.
  { destruct (parent meta); [apply IH|by apply (runs_ret (fun _ => True))]. }
  intros inherit _. eapply runs_bind.
  { unfold items_has. eapply runs_bind; [apply runs_data_get|].
    intros. by apply (runs_ret (fun _ => True)). }
  intros has _. by apply runs_ret.
Qed.

Lemma runs_Store_clear_ fuel :
  forall this nested, runs R (fun _ => True) (Store_clear_ fuel this nested).
Proof.
  induction fuel as [|fuel IH]; intros this nested; [done|].
  rewrite Store_clear_unfold.
  eapply runs_bind; [apply runs_data_get|]. intros meta _.
  eapply runs_bind.
  { apply runs_forEach. intros entry.
    eapply runs_bind; [apply runs_items_delete|].
    intros _ _. apply runs_emit. }
  intros _ _. eapply runs_bind; [|intros _ _; apply runs_emit].
  destruct (truthy nested); [|by apply (runs_ret (fun _ => True))].
  eapply runs_bind; [apply runs_data_get|]. intros meta' _.
  apply runs_forEach. intros child. apply IH.
Qed.

Lemma runs_root_loop fuel :
  forall current ancestor,
    runs R (fun _ => True) (root_loop fuel current ancestor).
Proof.
  induction fuel as [|fuel IH]; intros current ancestor.
  - destruct ancestor; simpl; [done|by apply runs_ret].
  - destruct ancestor as [a|]; simpl; [|by apply runs_ret].
    eapply runs_bind; [apply runs_data_get|]. intros meta _. apply IH.
Qed.

Lemma runs_prototype m this args :
  runs R (fun _ => True) (prototype m this args).
Proof.
  destruct m; simpl;
    (eapply runs_bind; [|intros; by apply (runs_ret (fun _ => True))]).
  - unfold Store_for.
    eapply runs_bind; [apply runs_throwIfInvalidName|]. intros _ _.
    apply runs_getChildStore.
  - unfold Store_parent.
    eapply runs_bind; [apply runs_data_get|]. intros meta _.
    by apply (runs_ret (fun _ => True)).
  - unfold Store_root.
    eapply runs_bind; [apply runs_data_get|]. intros meta _.
    eapply runs_bind; [|intros; by apply (runs_ret (fun _ => True))].
    intros w. apply runs_root_loop.
  - unfold Store_has.
    eapply runs_bind; [apply runs_throwIfInvalidName|]. intros _ _.
    eapply runs_bind; [apply runs_data_get|]. intros meta _.
    by apply (runs_ret (fun _ => True)).
  - intros w. unfold Store_get. apply runs_Store_get_.
  - unfold Store_set.
    eapply runs_bind; [apply runs_throwIfInvalidName|]. intros _ _.
    eapply runs_bind; [apply runs_getPropData|].
    intros [[store prop] h] Hb. simpl in Hb.
    eapply runs_bind; [by apply runs_items_set|]. intros _ _.
    eapply runs_bind; [apply runs_emit|]. intros _ _.
    by apply (runs_ret (fun _ => True)).
  - unfold Store_delete.
    eapply runs_bind; [apply runs_throwIfInvalidName|]. intros _ _.
    eapply runs_bind; [apply runs_getPropData|].
    intros [[store prop] h] _.
    eapply runs_bind; [apply runs_items_delete|]. intros _ _.
    apply runs_emit.
  - unfold Store_delete.
    eapply runs_bind; [apply runs_throwIfInvalidName|]. intros _ _.
    eapply runs_bind; [apply runs_getPropData|].
    intros [[store prop] h] _.
    eapply runs_bind; [apply runs_items_delete|]. intros _ _.
    apply runs_emit.
  - intros w. unfold Store_clear. apply runs_Store_clear_.
Qed.

Lemma runs_invoke recv m args : runs R (fun _ => True) (invoke recv m args).
Proof.
  destruct recv as [s|s]; simpl; [apply runs_prototype|].
  destruct m; try apply runs_prototype; apply runs_throw.
Qed.

End Runs.

(** ** Two invariants of the heap *)

Lemma bare_hasSlash k : bare k <-> hasSlash k = false.
Proof.
  unfold bare, hasSlash. induction k as [|c r IH]; [done|].
  cbn -[Ascii.eqb]. rewrite (Ascii.eqb_sym "/" c).
  destruct (Ascii.eqb c "/") eqn:E; cbn -[Ascii.eqb].
  - split; [|done]. intros H. by injection H.
  - rewrite <- IH. destruct (split "/" r) as [|h t] eqn:Er.
    { by apply split_nonempty in Er. }
    split.
    + intros [= -> ->]. done.
    + intros [= -> ->]. done.
Qed.

Lemma forallb_lookup {A} (f : A -> bool) (l : list A) :
  forallb f l = true <-> (forall i x, l !! i = Some x -> f x = true).
Proof.
  rewrite forallb_forall. split.
  - intros H i x Hi. apply H, list_elem_of_In. by eapply list_elem_of_lookup_2.
  - intros H x Hx. apply list_elem_of_In, list_elem_of_lookup_1 in Hx as [i Hi].
    by eapply H.
Qed.

Lemma linked_spec w :
  linked w <->
  (forall s meta k c,
      heap w !! s = Some meta -> (k, c) ∈ children meta ->
      exists m, heap w !! c = Some m /\ parent m = Some (RStore s)).
Proof.
  unfold linked, linkedb. rewrite forallb_imap. split.
  - intros H s meta k c Hs Hc. specialize (H s meta Hs). simpl in H.
    unfold linked_meta in H. rewrite forallb_forall in H.
    apply list_elem_of_In in Hc. specialize (H _ Hc). simpl in H.
    destruct (heap w !! c) as [m|]; [|done]. exists m. split; [done|].
    destruct (parent m) as [[p|p]|]; try done.
    apply Nat.eqb_eq in H. by subst.
  - intros H s meta Hs. simpl. unfold linked_meta. apply forallb_forall.
    intros [k c] Hc. apply list_elem_of_In in Hc.
    destruct (H s meta k c Hs Hc) as (m & Hm & Hp). simpl.
    rewrite Hm, Hp. apply Nat.eqb_refl.
Qed.

Lemma bare_keys_spec w :
  bare_keys w <->
  (forall s meta k v,
      heap w !! s = Some meta -> (k, v) ∈ items meta -> bare k).
Proof.
  unfold bare_keys, bare_keysb. rewrite forallb_lookup. split.
  - intros H s meta k v Hs Hk. specialize (H s meta Hs).
    rewrite forallb_forall in H. apply list_elem_of_In in Hk.
    specialize (H _ Hk). simpl in H. apply bare_hasSlash.
    by destruct (hasSlash k).
  - intros H s meta Hs. apply forallb_forall. intros [k v] Hk.
    apply list_elem_of_In in Hk. simpl.
    apply (H s meta k v Hs), bare_hasSlash in Hk. by rewrite Hk.
Qed.

Lemma elem_of_Map_delete {V} (m : list (string * V)) k e :
  e ∈ Map_delete m k -> e ∈ m /\ e.1 <> k.
Proof.
  induction m as [|[k' v'] r IH]; simpl.
  - intros H. by apply elem_of_nil in H.
  - destruct (String.eqb k' k) eqn:E.
    + intros H. apply IH in H as [H1 H2]. split; [by right|done].
    + intros H. apply elem_of_cons in H as [->|H].
      * split; [left|]. simpl. intros ->. by rewrite String.eqb_refl in E.
      * apply IH in H as [H1 H2]. split; [by right|done].
Qed.

Lemma linked_shape w w' : shape w = shape w' -> linked w -> linked w'.
Proof.
  intros Hsh. rewrite !linked_spec. intros H s meta' k c Hs Hc.
  destruct (shape_lookup w' w s meta' Hsh Hs) as (meta & Hm & Hch & Hp).
  rewrite <- Hch in Hc. destruct (H s meta k c Hm Hc) as (m & Hmc & Hpm).
  destruct (shape_lookup w w' c m (eq_sym Hsh) Hmc) as (m' & Hm' & _ & Hp').
  exists m'. split; [done|]. congruence.
Qed.

Lemma shape_set_items w c meta it em subs :
  heap w !! c = Some meta ->
  shape w =
  shape (mkWorld (<[c := mkMeta (children meta) (parent meta) it]> (heap w)) em subs).
Proof.
  intros Hc. unfold shape. cbn -[lookup insert]. rewrite list_fmap_insert.
  simpl. symmetry. apply list_insert_id. by rewrite list_lookup_fmap, Hc.
Qed.

Lemma items_set_inv h k v w w' :
  items_set h k v w = Return tt w' ->
  exists meta,
    heap w !! h = Some meta /\
    w' = mkWorld (<[h := mkMeta (children meta) (parent meta)
                                (Map_set (items meta) k v)]> (heap w))
                 (emitted w) (subscriptions w).
Proof.
  unfold items_set, update. destruct (heap w !! h) as [meta|]; [|done].
  intros [= <-]. by exists meta.
Qed.

Lemma items_delete_inv h k w w' :
  items_delete h k w = Return tt w' ->
  exists meta,
    heap w !! h = Some meta /\
    w' = mkWorld (<[h := mkMeta (children meta) (parent meta)
                                (Map_delete (items meta) k)]> (heap w))
                 (emitted w) (subscriptions w).
Proof.
  unfold items_delete, update. destruct (heap w !! h) as [meta|]; [|done].
  intros [= <-]. by exists meta.
Qed.

Lemma emit_inv store e w w' :
  emit store e w = Return tt w' ->
  heap w' = heap w /\ emitted w' = emitted w ++ [(target store, e)] /\
  subscriptions w' = notify (target store) e <$> subscriptions w.
Proof. unfold emit. by intros [= <-]. Qed.

Lemma linked_add_child w s meta name :
  heap w !! s = Some meta -> linked w -> linked (add_child w s meta name).
Proof.
  intros Hs. rewrite !linked_spec. intros H i m k c.
  pose proof (lookup_lt_Some _ _ _ Hs) as Hlt.
  assert (forall j mj a,
    heap w !! j = Some mj -> parent mj = Some a ->
    exists m', heap (add_child w s meta name) !! j = Some m' /\
               parent m' = Some a) as Hold.
  { intros j mj a Hj Hp. unfold add_child. cbn -[lookup insert].
    destruct (decide (j = s)) as [->|Hne].
    - rewrite list_lookup_insert_eq by (rewrite length_app; simpl; lia).
      eexists. split; [done|]. simpl. congruence.
    - rewrite list_lookup_insert_ne by done.
      rewrite lookup_app_l by (by eapply lookup_lt_Some). eauto. }
  unfold add_child at 1. cbn -[lookup insert].
  destruct (decide (i = s)) as [->|Hne].
  - rewrite list_lookup_insert_eq by (rewrite length_app; simpl; lia).
    intros [= <-]. simpl. unfold Object_set. intros Hin.
    assert (exists m', heap (add_child w s meta name) !! length (heap w) = Some m'
                       /\ parent m' = Some (RStore s)) as Hnew.
    { unfold add_child. cbn -[lookup insert].
      rewrite list_lookup_insert_ne by lia.
      rewrite lookup_app_r by lia. rewrite Nat.sub_diag. by eexists. }
    apply elem_of_Map_set in Hin as [Hin|[Hin|(v' & H1 & H2)]].
    + destruct (H s meta k c Hs Hin) as (mc & Hmc & Hpc). by eapply Hold.
    + by injection Hin as -> ->.
    + simpl in H1. by injection H1 as ->.
  - rewrite list_lookup_insert_ne by done.
    destruct (decide (i < length (heap w))) as [Hi|Hi].
    + rewrite lookup_app_l by done. intros Him Hin.
      destruct (H i m k c Him Hin) as (mc & Hmc & Hpc). by eapply Hold.
    + rewrite lookup_app_r by lia.
      destruct (i - length (heap w)) as [|j]; simpl; [|done].
      intros [= <-] Hin. by apply elem_of_nil in Hin.
Qed.

Lemma bare_keys_add_child w s meta name :
  heap w !! s = Some meta -> bare_keys w -> bare_keys (add_child w s meta name).
Proof.
  intros Hs. rewrite !bare_keys_spec. intros H i m k v.
  pose proof (lookup_lt_Some _ _ _ Hs) as Hlt.
  unfold add_child. cbn -[lookup insert].
  destruct (decide (i = s)) as [->|Hne].
  - rewrite list_lookup_insert_eq by (rewrite length_app; simpl; lia).
    intros [= <-]. simpl. by apply (H s meta).
  - rewrite list_lookup_insert_ne by done.
    destruct (decide (i < length (heap w))) as [Hi|Hi].
    + rewrite lookup_app_l by done. apply H.
    + rewrite lookup_app_r by lia.
      destruct (i - length (heap w)) as [|j]; simpl; [|done].
      intros [= <-] Hin. by apply elem_of_nil in Hin.
Qed.

Lemma bare_keys_set_items w c meta it em subs :
  heap w !! c = Some meta ->
  (forall k v, (k, v) ∈ it -> bare k) ->
  bare_keys w ->
  bare_keys (mkWorld (<[c := mkMeta (children meta) (parent meta) it]> (heap w))
                     em subs).
Proof.
  intros Hc Hit. rewrite !bare_keys_spec. intros H i m k v.
  cbn -[lookup insert]. destruct (decide (i = c)) as [->|Hne].
  - rewrite list_lookup_insert_eq by (by eapply lookup_lt_Some).
    intros [= <-]. simpl. apply Hit.
  - rewrite list_lookup_insert_ne by done. apply H.
Qed.

Lemma linked_runs recv m args : runs (keeps linked) (fun _ => True) (invoke recv m args).
Proof.
  apply runs_invoke.
  - by intros w H.
  - intros w1 w2 w3 H1 H2 H. by apply H2, H1.
  - intros store e w w' He Hl. apply emit_inv in He as (Hh & _).
    eapply linked_shape; [|exact Hl]. unfold shape. by rewrite Hh.
  - intros h k v w w' _ Hs Hl. apply items_set_inv in Hs as (meta & Hm & ->).
    eapply linked_shape; [|exact Hl]. by apply shape_set_items.
  - intros h k w w' Hd Hl. apply items_delete_inv in Hd as (meta & Hm & ->).
    eapply linked_shape; [|exact Hl]. by apply shape_set_items.
  - intros s meta name w Hs _ _ Hl. by apply linked_add_child.
Qed.

Lemma bare_keys_runs recv m args :
  runs (keeps bare_keys) (fun _ => True) (invoke recv m args).
Proof.
  apply runs_invoke.
  - by intros w H.
  - intros w1 w2 w3 H1 H2 H. by apply H2, H1.
  - intros store e w w' He. apply emit_inv in He as (Hh & _).
    unfold keeps, bare_keys, bare_keysb. by rewrite Hh.
  - intros h k v w w' Hk Hs. apply items_set_inv in Hs as (meta & Hm & ->).
    intros Hb. apply bare_keys_set_items; [done| |done].
    intros k' v' Hin.
    apply elem_of_Map_set in Hin as [Hin|[Hin|(v0 & H1 & H2)]].
    + rewrite bare_keys_spec in Hb. by eapply Hb.
    + by injection Hin as -> ->.
    + rewrite bare_keys_spec in Hb. by eapply Hb.
  - intros h k w w' Hd. apply items_delete_inv in Hd as (meta & Hm & ->).
    intros Hb. apply bare_keys_set_items; [done| |done].
    intros k' v' Hin. apply elem_of_Map_delete in Hin as [Hin _].
    rewrite bare_keys_spec in Hb. by eapply Hb.
  - intros s meta name w Hs _ _ Hb. by apply bare_keys_add_child.
Qed.

(** ** The constructor *)

Lemma Store_has_Some s meta k w :
  heap w !! s = Some meta -> invalidName k = false ->
  Store_has (RStore s) k w = Return (Map_has_value (items meta) k) w.
Proof.
  intros Hs Hk. unfold Store_has.
  rewrite (bind_Return _ _ _ _ _ (throwIfInvalidName_valid _ w Hk)).
  by rewrite (bind_Return _ _ _ _ _ (data_get_Some _ _ _ Hs)).
Qed.

Lemma Store_parent_Some s meta w :
  heap w !! s = Some meta ->
  Store_parent (RStore s) w =
  Return match parent meta with
         | Some a => VStore (readonly a)
         | None => VUndefined
         end w.
Proof.
  intros Hs. unfold Store_parent.
  by rewrite (bind_Return _ _ _ _ _ (data_get_Some _ _ _ Hs)).
Qed.

(** X1: [new Store(ancestor)] throws 'The argument provided must be a
    Store instance.' and changes nothing when [ancestor] is neither
    undefined nor a store (or a readonly proxy of one).  Otherwise it
    returns a store that did not exist before, leaves the old stores,
    the log and the subscribers alone, and the new store reports a
    readonly view of [ancestor] as [parent()] (undefined without
    ancestor) and holds no key. *)
Theorem new_Store_parent (ancestor : jsval) (w : World) :
  match new_Store ancestor w with
  | Return r w' =>
      isUndefined ancestor || instanceofStore ancestor = true /\
      r = RStore (length (heap w)) /\
      heap w !! length (heap w) = None /\
      (forall s, s < length (heap w) -> heap w' !! s = heap w !! s) /\
      emitted w' = emitted w /\ subscriptions w' = subscriptions w /\
      Store_parent r w' =
        Return match ancestor with
               | VStore a => VStore (RView (target a))
               | _ => VUndefined
               end w' /\
      (forall k, invalidName k = false -> Store_has r k w' = Return false w')
  | Throw e w' =>
      e = InvalidAncestorError /\ w' = w /\
      isUndefined ancestor = false /\ instanceofStore ancestor = false
  | Diverge => False
  end.
Proof.
  unfold new_Store.
  destruct (negb (isUndefined ancestor) && negb (instanceofStore ancestor))
    eqn:Hc.
  - apply andb_true_iff in Hc as [Hu Hi].
    apply negb_true_iff in Hu, Hi. done.
  - set (m := mkMeta [] match ancestor with
                        | VStore a => Some a
                        | _ => None
                        end []).
    assert ((heap w ++ [m]) !! length (heap w) = Some m) as Hnew.
    { rewrite lookup_app_r by lia. by rewrite Nat.sub_diag. }
    split.
    { destruct (isUndefined ancestor), (instanceofStore ancestor); done. }
    split; [done|]. split; [by apply lookup_ge_None_2|].
    split; [by intros s Hs; apply lookup_app_l|].
    split; [done|]. split; [done|]. split.
    + rewrite (Store_parent_Some _ m) by exact Hnew.
      unfold m. by destruct ancestor.
    + intros k Hk. rewrite (Store_has_Some _ m) by (exact Hnew || done).
      by destruct k.
Qed.

(** ** [set], [has] and [delete] on one store *)

Lemma Map_get_delete_ne {V} (m : list (string * V)) k k' :
  k <> k' -> Map_get (Map_delete m k) k' = Map_get m k'.
Proof.
  intros Hne. induction m as [|[k0 v0] r IH]; simpl; [done|].
  destruct (String.eqb k0 k) eqn:E; simpl; [|by rewrite IH].
  apply String.eqb_eq in E. subst k0. rewrite IH.
  destruct (String.eqb k k') eqn:E'; [|done]. by apply String.eqb_eq in E'.
Qed.

Lemma Map_delete_set_absent {V} (m : list (string * V)) k v :
  Map_get m k = None -> Map_delete (Map_set m k v) k = m.
Proof.
  induction m as [|[k0 v0] r IH]; simpl.
  - by rewrite String.eqb_refl.
  - destruct (String.eqb k0 k) eqn:E; [done|]. simpl. rewrite E.
    intros H. by rewrite IH.
Qed.

(** X2: [set(k, v)] with a bare key on a store makes [has(k)] true and
    [v] the local value, overwriting what was there; every other key of
    the store, its children and parent, and every other store are as
    before (so [has] on a child or a parent does not see the key), and
    the call returns the store it was called on. *)
Theorem set_then_has (c : sid) (meta : Meta) (k : string) (v : jsval)
    (w : World) :
  heap w !! c = Some meta ->
  bare k ->
  invalidName (VString k) = false ->
  exists w' meta',
    Store_set (RStore c) (VString k) v w = Return (RStore c) w' /\
    Store_has (RStore c) (VString k) w' = Return true w' /\
    heap w' !! c = Some meta' /\
    Map_get (items meta') k = Some v /\
    (forall k', k' <> k -> Map_get (items meta') k' = Map_get (items meta) k') /\
    children meta' = children meta /\ parent meta' = parent meta /\
    (forall s, s <> c -> heap w' !! s = heap w !! s).
Proof.
  intros Hc Hk Hv. pose proof (lookup_lt_Some _ _ _ Hc) as Hlt.
  eexists _, _. split; [by apply (Store_set_bare c meta)|].
  assert (<[c := mkMeta (children meta) (parent meta)
                        (Map_set (items meta) k v)]> (heap w) !! c =
          Some (mkMeta (children meta) (parent meta)
                       (Map_set (items meta) k v))) as Hc'
    by (by apply list_lookup_insert_eq).
  split.
  { erewrite Store_has_Some by (exact Hc' || exact Hv). simpl.
    unfold Map_has. by rewrite Map_get_set_eq. }
  split; [exact Hc'|]. simpl. split; [apply Map_get_set_eq|].
  split; [by intros k' Hne; apply Map_get_set_ne|].
  split; [done|]. split; [done|].
  intros s Hne. by apply list_lookup_insert_ne.
Qed.

Lemma set_then_has_witness :
  exists w' meta',
    Store_set (RStore 0) (VString "key") (VNumber 2)
              (world_of (clear_nested_setup init)) = Return (RStore 0) w' /\
    Store_has (RStore 0) (VString "key") w' = Return true w' /\
    heap w' !! 0 = Some meta' /\
    Map_get (items meta') "key" = Some (VNumber 2) /\
    Map_get (items meta') "a" = Some (VNumber 1).
Proof.
  destruct (set_then_has 0 (mkMeta [("child", 1)] None [("a", VNumber 1)])
              "key" (VNumber 2) (world_of (clear_nested_setup init))
              eq_refl eq_refl eq_refl)
    as (w' & meta' & H1 & H2 & H3 & H4 & H5 & _).
  exists w', meta'. repeat split; try done.
  by rewrite (H5 "a").
Defined.

(** X3: [delete(k)] with a bare key removes the key from the store
    ([has(k)] is false afterwards), keeps every other key and every
    other store, emits exactly one item-removed event [{name: k}] from
    that store and leaves the subscribers as they were. *)
Theorem delete_removes (c : sid) (meta : Meta) (k : string) (w : World) :
  heap w !! c = Some meta ->
  bare k ->
  invalidName (VString k) = false ->
  exists w' meta',
    Store_delete (RStore c) (VString k) w = Return tt w' /\
    Store_has (RStore c) (VString k) w' = Return false w' /\
    heap w' !! c = Some meta' /\
    (forall k', k' <> k -> Map_get (items meta') k' = Map_get (items meta) k') /\
    (forall s, s <> c -> heap w' !! s = heap w !! s) /\
    emitted w' = emitted w ++ [(c, ItemRemoved k)] /\
    subscriptions w' = subscriptions w.
Proof.
  intros Hc Hk Hv. pose proof (lookup_lt_Some _ _ _ Hc) as Hlt.
  eexists _, _. split; [by apply (Store_delete_bare c meta)|].
  assert (<[c := mkMeta (children meta) (parent meta)
                        (Map_delete (items meta) k)]> (heap w) !! c =
          Some (mkMeta (children meta) (parent meta)
                       (Map_delete (items meta) k))) as Hc'
    by (by apply list_lookup_insert_eq).
  split.
  { erewrite Store_has_Some by (exact Hc' || exact Hv). simpl.
    unfold Map_has. by rewrite Map_get_delete_eq. }
  split; [exact Hc'|]. simpl.
  split; [by intros k' Hne; apply Map_get_delete_ne|].
  split; [|done]. intros s Hne. by apply list_lookup_insert_ne.
Qed.

Lemma delete_removes_witness :
  exists w' meta',
    Store_delete (RStore 0) (VString "a")
                 (world_of (clear_nested_setup init)) = Return tt w' /\
    Store_has (RStore 0) (VString "a") w' = Return false w' /\
    heap w' !! 0 = Some meta' /\
    emitted w' =
      emitted (world_of (clear_nested_setup init)) ++ [(0, ItemRemoved "a")].
Proof.
  destruct (delete_removes 0 (mkMeta [("child", 1)] None [("a", VNumber 1)])
              "a" (world_of (clear_nested_setup init))
              eq_refl eq_refl eq_refl)
    as (w' & meta' & H1 & H2 & H3 & _ & _ & H6 & _).
  by exists w', meta'.
Defined.

(** X4: the guarded [delete] of the ES2015 source and the [delete] of
    the exported build do the same when the store holds the key; when
    it does not, the source does nothing at all. *)
Theorem delete_src_agrees (c : sid) (meta : Meta) (k : string) (w : World) :
  heap w !! c = Some meta ->
  bare k ->
  invalidName (VString k) = false ->
  Store_delete_src (RStore c) (VString k) w =
  if Map_has (items meta) k then Store_delete (RStore c) (VString k) w
  else Return tt w.
Proof.
  intros Hc Hk Hv. unfold Store_delete_src, Store_delete.
  rewrite !(bind_Return _ _ _ _ _ (throwIfInvalidName_valid _ w Hv)).
  simpl str.
  rewrite !(bind_Return _ _ _ _ _ (getPropData_bare _ _ _ _ Hk Hc)).
  rewrite (bind_Return _ _ _ _ _ (Store_has_Some c meta (VString k) w Hc Hv)).
  change (Map_has_value (items meta) (VString k)) with (Map_has (items meta) k).
  by destruct (Map_has (items meta) k).
Qed.

Lemma delete_src_agrees_witness :
  Store_delete_src (RStore 0) (VString "a") (world_of (clear_nested_setup init)) =
    Store_delete (RStore 0) (VString "a") (world_of (clear_nested_setup init)) /\
  Store_delete_src (RStore 0) (VString "b") (world_of (clear_nested_setup init)) =
    Return tt (world_of (clear_nested_setup init)).
Proof.
  split.
  - exact (delete_src_agrees 0 (mkMeta [("child", 1)] None [("a", VNumber 1)])
             "a" (world_of (clear_nested_setup init)) eq_refl eq_refl eq_refl).
  - exact (delete_src_agrees 0 (mkMeta [("child", 1)] None [("a", VNumber 1)])
             "b" (world_of (clear_nested_setup init)) eq_refl eq_refl eq_refl).
Defined.

(** X5: for a valid key [k] without slash, on a store that does not
    hold [k], [set(k, v)] followed by [delete(k)] restores the heap
    exactly; the two calls leave an item-set and an item-removed event
    of that store in the log. *)
Theorem set_delete_round_trip (c : sid) (meta : Meta) (k : string)
    (v : jsval) (w : World) :
  heap w !! c = Some meta ->
  bare k ->
  invalidName (VString k) = false ->
  Map_get (items meta) k = None ->
  exists w1 w2,
    Store_set (RStore c) (VString k) v w = Return (RStore c) w1 /\
    Store_delete (RStore c) (VString k) w1 = Return tt w2 /\
    heap w2 = heap w /\
    emitted w2 = emitted w ++ [(c, ItemSet k v); (c, ItemRemoved k)].
Proof.
  intros Hc Hk Hv Hn. pose proof (lookup_lt_Some _ _ _ Hc) as Hlt.
  eexists _, _. split; [by apply (Store_set_bare c meta)|].
  split.
  { apply Store_delete_bare; [|done|done]. cbn -[lookup insert].
    by apply list_lookup_insert_eq. }
  cbn -[lookup insert]. split.
  - rewrite list_insert_insert_eq, Map_delete_set_absent by done.
    apply list_insert_id. by destruct meta.
  - by rewrite <- app_assoc.
Qed.

Lemma set_delete_round_trip_witness :
  exists w1 w2,
    Store_set (RStore 0) (VString "b") VNull (world_of (clear_nested_setup init)) =
      Return (RStore 0) w1 /\
    Store_delete (RStore 0) (VString "b") w1 = Return tt w2 /\
    heap w2 = heap (world_of (clear_nested_setup init)).
Proof.
  destruct (set_delete_round_trip 0
              (mkMeta [("child", 1)] None [("a", VNumber 1)]) "b" VNull
              (world_of (clear_nested_setup init))
              eq_refl eq_refl eq_refl eq_refl) as (w1 & w2 & H1 & H2 & H3 & _).
  by exists w1, w2.
Defined.

(** ** Path resolution only adds stores *)

Lemma only_adds_refl w : only_adds w w.
Proof.
  split; [done|]. split.
  { exists []. rewrite app_nil_r. repeat split; [done|simpl; lia]. }
  split; [by intros s meta Hs; exists meta|].
  split; [apply children_le_refl|].
  intros s meta Hle Hs. apply lookup_lt_Some in Hs. lia.
Qed.

Lemma only_adds_trans w1 w2 w3 :
  only_adds w1 w2 -> only_adds w2 w3 -> only_adds w1 w3.
Proof.
  intros (Hs1 & (evs1 & He1 & Hf1 & Hl1) & Ho1 & Hc1 & Hn1)
         (Hs2 & (evs2 & He2 & Hf2 & Hl2) & Ho2 & Hc2 & Hn2).
  split; [congruence|]. split.
  { exists (evs1 ++ evs2). split; [by rewrite He2, He1, app_assoc|].
    split; [by apply Forall_app|]. rewrite length_app. lia. }
  split.
  { intros s meta Hs. destruct (Ho1 s meta Hs) as (m2 & Hm2 & Hi2 & Hp2).
    destruct (Ho2 s m2 Hm2) as (m3 & Hm3 & Hi3 & Hp3).
    exists m3. split; [done|]. split; congruence. }
  split; [by eapply children_le_trans|].
  intros s meta Hle Hs.
  destruct (decide (length (heap w2) <= s)) as [H2|H2]; [by eapply Hn2|].
  destruct (lookup_lt_is_Some_2 (heap w2) s) as [m2 Hm2]; [lia|].
  destruct (Ho2 s m2 Hm2) as (m3 & Hm3 & Hi3 & _).
  rewrite Hs in Hm3. injection Hm3 as <-. rewrite Hi3. by eapply Hn1.
Qed.

Lemma only_adds_add_child w s meta name :
  heap w !! s = Some meta ->
  Map_get (children meta) name = None ->
  only_adds w (add_child w s meta name).
Proof.
  intros Hs Hn. pose proof (lookup_lt_Some _ _ _ Hs) as Hlt.
  split; [done|]. split.
  { eexists. split; [done|]. split.
    - apply Forall_singleton. simpl. eauto.
    - unfold add_child. cbn -[lookup insert].
      rewrite length_insert, length_app. simpl. lia. }
  split.
  { intros i m Hi. unfold add_child. cbn -[lookup insert].
    destruct (decide (i = s)) as [->|Hne].
    - rewrite list_lookup_insert_eq by (rewrite length_app; simpl; lia).
      eexists. split; [done|]. simpl. split; congruence.
    - rewrite list_lookup_insert_ne by done.
      rewrite lookup_app_l by (by eapply lookup_lt_Some). by exists m. }
  split; [by apply children_le_add_child|].
  intros i m Hle. unfold add_child. cbn -[lookup insert].
  rewrite list_lookup_insert_ne by lia. rewrite lookup_app_r by lia.
  destruct (i - length (heap w)) as [|j]; simpl; [|done]. by intros [= <-].
Qed.

Lemma step_only_adds r name w r' w' :
  getChildStore_step r name w = Return r' w' -> only_adds w w'.
Proof.
  intros H. apply step_Return_inv in H as (s & meta & -> & Hs & [H|H]).
  - destruct H as (c & _ & _ & ->). apply only_adds_refl.
  - destruct H as (Hu & _ & _ & ->).
    apply only_adds_add_child; [done|]. by apply Object_get_undefined.
Qed.

Lemma getChildStore_only_adds names r w r' w' :
  getChildStore r names w = Return r' w' -> only_adds w w'.
Proof.
  revert r w. induction names as [|name rest IH]; intros r w; simpl.
  - intros [= _ ->]. apply only_adds_refl.
  - intros H. apply bind_Return_inv in H as (c & w1 & H1 & H2).
    eapply only_adds_trans; [by eapply step_only_adds|by eapply IH].
Qed.

(** X6: a returning [for(name)] has only added stores: every store
    that existed keeps its items, its parent and all of its children,
    the stores created on the way hold no items, the subscribers have
    received nothing, and the only new events are store-added events,
    one for each new store. *)
Theorem for_only_adds (this : Ref) (name : jsval) (w : World) (n : Ref)
    (w' : World) :
  Store_for this name w = Return n w' -> only_adds w w'.
Proof.
  unfold Store_for. intros H.
  apply bind_Return_inv in H as (u & w0 & H0 & H).
  destruct (throwIfInvalidName_cases name w) as [E|E];
    rewrite E in H0; [done|]. injection H0 as <- <-.
  by eapply getChildStore_only_adds.
Qed.

Lemma for_only_adds_witness :
  only_adds (world_of (clear_nested_setup init))
            (world_of (Store_for (RStore 0) (VString "child/x/y")
                         (world_of (clear_nested_setup init)))).
Proof.
  apply (for_only_adds (RStore 0) (VString "child/x/y")
           (world_of (clear_nested_setup init)) (RStore 3)).
  reflexivity.
Defined.

(** ** [set] and [delete] through a path *)

Lemma pop_app {A} (l1 l2 : list A) :
  l2 <> [] -> pop (l1 ++ l2) = ((pop l2).1, l1 ++ (pop l2).2).
Proof.
  intros Hne. unfold pop. simpl. f_equal.
  - rewrite last_app. destruct (last l2) eqn:E; [done|].
    by apply last_None in E.
  - by apply removelast_app.
Qed.

Lemma getPropData_path this p q w :
  getPropData this (p +:+ String "/" q) w =
  match getChildStore this (split "/" p) w with
  | Return c w1 => getPropData c q w1
  | Throw e w1 => Throw e w1
  | Diverge => Diverge
  end.
Proof.
  unfold getPropData. rewrite split_app, pop_app by apply split_nonempty.
  destruct (pop (split "/" q)) as [[prop|] names] eqn:Ep; simpl.
  - unfold bind. rewrite getChildStore_app. unfold bind.
    by destruct (getChildStore this (split "/" p) w).
  - destruct (pop_split "/" q) as (prop & names' & Hp & _). congruence.
Qed.

(** X7: for [p] and [q] that are each a valid name on its own, [set]
    and [delete] with the path [p/q] are [for(p)] followed by the same
    operation with [q] on the node that [for] returns; [set] still
    returns the store it was called on.  This holds for what the calls
    return, for what they throw and for the world they leave. *)
Theorem path_is_for_then_key (this : Ref) (p q : string) (v : jsval)
    (w : World) :
  invalidName (VString p) = false ->
  invalidName (VString q) = false ->
  Store_set this (VString (p +:+ String "/" q)) v w =
    (let! c := Store_for this (VString p) in
     Store_set c (VString q) v >> ret this) w /\
  Store_delete this (VString (p +:+ String "/" q)) w =
    (let! c := Store_for this (VString p) in Store_delete c (VString q)) w.
Proof.
  intros Hp Hq. unfold Store_set, Store_delete, Store_for.
  rewrite !(bind_Return _ _ _ _ _
              (throwIfInvalidName_valid _ w (valid_with_slash p q))).
  simpl str. rewrite !bind_assoc.
  rewrite !(bind_Return _ _ _ _ _ (throwIfInvalidName_valid _ w Hp)).
  unfold bind. rewrite getPropData_path.
  destruct (getChildStore this (split "/" p) w) as [c w1| |]; [|done|done].
  rewrite (throwIfInvalidName_valid _ w1 Hq).
  split.
  - destruct (getPropData c q w1) as [[[store prop] h] w2| |]; [|done|done].
    destruct (items_set h prop v w2) as [[] w3| |]; [|done|done].
    by destruct (emit store (ItemSet prop v) w3).
  - done.
Qed.

Lemma path_is_for_then_key_witness :
  Store_set (RStore 0) (VString "child/key") VNull
            (world_of (new_Store VUndefined init)) =
  (let! c := Store_for (RStore 0) (VString "child") in
   Store_set c (VString "key") VNull >> ret (RStore 0))
    (world_of (new_Store VUndefined init)).
Proof.
  exact (proj1 (path_is_for_then_key (RStore 0) "child" "key" VNull
                  (world_of (new_Store VUndefined init)) eq_refl eq_refl)).
Defined.

Lemma getChildStore_receiver names r w h w' :
  getChildStore r names w = Return (RStore h) w' -> exists n, r = RStore n.
Proof.
  destruct r as [n|n]; [by exists n|].
  destruct names as [|name rest]; simpl; [done|].
  unfold bind. by rewrite step_view.
Qed.

(** X8: a returning [set] was called on a store; it first resolves the
    path, which only adds stores and store-added events; then it stores
    the value under the last segment of the name in the resolved store,
    which is the store registered under the segments before the last
    below the store [set] was called on, and emits exactly one item-set
    event, with the last segment as name, from the resolved store.
    That event is the last one of the call, the subscribers are told of
    nothing else, and the call returns the store it was called on. *)
Theorem set_events (this : Ref) (name v : jsval) (w : World) (r : Ref)
    (w' : World) :
  Store_set this name v w = Return r w' ->
  r = this /\
  exists s prop meta w1,
    only_adds w w1 /\
    heap w1 !! s = Some meta /\
    last (split "/" (str name)) = Some prop /\
    heap w' = <[s := mkMeta (children meta) (parent meta)
                            (Map_set (items meta) prop v)]> (heap w1) /\
    emitted w' = emitted w1 ++ [(s, ItemSet prop v)] /\
    subscriptions w' = notify s (ItemSet prop v) <$> subscriptions w /\
    exists n names,
      this = RStore n /\
      pop (split "/" (str name)) = (Some prop, names) /\
      getChildStore this names w = Return (RStore s) w1 /\
      descend w1 n names = Some s.
Proof.
  unfold Store_set. intros H.
  apply bind_Return_inv in H as (u & w0 & H0 & H).
  destruct (throwIfInvalidName_cases name w) as [E|E];
    rewrite E in H0; [done|]. injection H0 as <- <-.
  apply bind_Return_inv in H as ([[store prop] h] & w1 & H1 & H).
  apply getPropData_inv in H1 as (names & meta & Hp & Hg & -> & Hs).
  pose proof (getChildStore_only_adds _ _ _ _ _ Hg) as Hadd.
  unfold bind, items_set, update, emit, ret in H. rewrite Hs in H.
  injection H as <- <-. split; [done|].
  exists h, prop, meta, w1. split; [done|]. split; [done|].
  split; [unfold pop in Hp; by injection Hp|].
  split; [done|]. split; [done|].
  split; [simpl; by destruct Hadd as (-> & _)|].
  destruct (getChildStore_receiver _ _ _ _ _ Hg) as [n ->].
  exists n, names. split; [done|]. split; [done|]. split; [done|].
  destruct (getChildStore_descend _ _ _ _ _ Hg) as (c' & [= <-] & Hd).
  exact Hd.
Qed.

Lemma set_events_witness :
  exists s prop meta w1,
    only_adds (world_of (new_Store VUndefined init)) w1 /\
    heap w1 !! s = Some meta /\
    last (split "/" "a/b/key") = Some prop /\
    emitted (world_of (Store_set (RStore 0) (VString "a/b/key") VNull
                         (world_of (new_Store VUndefined init)))) =
      emitted w1 ++ [(s, ItemSet prop VNull)].
Proof.
  destruct (set_events (RStore 0) (VString "a/b/key") VNull
              (world_of (new_Store VUndefined init)) (RStore 0)
              (world_of (Store_set (RStore 0) (VString "a/b/key") VNull
                           (world_of (new_Store VUndefined init))))
              eq_refl)
    as (_ & s & prop & meta & w1 & H1 & H2 & H3 & _ & H5 & _).
  by exists s, prop, meta, w1.
Defined.

(** ** [get] through a path *)

(** X9: for a valid name [p] and a key [k] without slash, a returning
    [get] of [p/k] leaves the world that [for(p)] leaves: the stores on
    the path are created and announced exactly as by [for], nothing
    else changes; [get] of [k] alone changes nothing. *)
Theorem get_changes_like_for (this : Ref) (p k : string) (w : World)
    (o : Obs) (w' : World) :
  invalidName (VString p) = false ->
  bare k ->
  (Store_get this (VString (p +:+ String "/" k)) w = Return o w' ->
   exists c, Store_for this (VString p) w = Return c w') /\
  (Store_get this (VString k) w = Return o w' -> w' = w).
Proof.
  intros Hp Hk. split.
  - intros H. unfold Store_get in H.
    destruct (length (heap w) +
              length (split "/" (str (VString (p +:+ String "/" k)))))
      as [|fuel]; [done|].
    apply Store_get_inv in H
      as (s & prop & names & meta & inh & _ & Hpop & Hg & _).
    simpl str in Hpop. rewrite split_app, pop_app in Hpop
      by apply split_nonempty.
    rewrite (pop_bare _ Hk) in Hpop. simpl in Hpop.
    injection Hpop as <- <-. rewrite app_nil_r in Hg.
    exists (RStore s). unfold Store_for.
    by rewrite (bind_Return _ _ _ _ _ (throwIfInvalidName_valid _ w Hp)).
  - intros H. unfold Store_get in H. by eapply get_bare_world.
Qed.

Lemma get_changes_like_for_witness :
  exists c,
    Store_for (RStore 0) (VString "a/b") (world_of (new_Store VUndefined init)) =
    Return c (world_of (Store_get (RStore 0) (VString "a/b/key")
                          (world_of (new_Store VUndefined init)))).
Proof.
  exact (proj1 (get_changes_like_for (RStore 0) "a/b" "key"
                  (world_of (new_Store VUndefined init))
                  (OMerge (OItemSet 2 "a/b/key")
                     (OTakeUntil
                        (OMerge (OItemSet 1 "key")
                           (OTakeUntil
                              (OMerge (OItemSet 0 "key")
                                 (OTakeUntil OEmpty (OItemSet 0 "key")))
                              (OItemSet 1 "key")))
                        (OItemSet 2 "a/b/key")))
                  (world_of (Store_get (RStore 0) (VString "a/b/key")
                               (world_of (new_Store VUndefined init))))
                  eq_refl eq_refl) eq_refl).
Defined.

(** ** A local item in the way of a path *)

Lemma step_blocked s meta k w :
  heap w !! s = Some meta ->
  Map_has (items meta) k = true ->
  Map_get (children meta) k = None ->
  getChildStore_step (RStore s) k w = Throw PathResolutionError w.
Proof.
  intros Hs Hi Hc.
  destruct (Object_get (children meta) k) as [c| |] eqn:Ho.
  - unfold Object_get in Ho. rewrite Hc in Ho.
    by destruct (inObjectPrototype k).
  - by eapply step_inherited.
  - by eapply step_item.
Qed.

(** X10: a store that holds an item [k] and has no child [k] cannot be
    traversed through [k]: [for(k)], [for(k/q)], [get(k/q)],
    [set(k/q, v)] and [delete(k/q)] all throw 'Path does not resolve to
    a Store.' and change nothing. *)
Theorem item_blocks_path (s : sid) (meta : Meta) (k q : string) (v : jsval)
    (w : World) :
  heap w !! s = Some meta ->
  Map_has (items meta) k = true ->
  Map_get (children meta) k = None ->
  bare k ->
  (invalidName (VString k) = false ->
   Store_for (RStore s) (VString k) w = Throw PathResolutionError w) /\
  Store_for (RStore s) (VString (k +:+ String "/" q)) w =
    Throw PathResolutionError w /\
  Store_get (RStore s) (VString (k +:+ String "/" q)) w =
    Throw PathResolutionError w /\
  Store_set (RStore s) (VString (k +:+ String "/" q)) v w =
    Throw PathResolutionError w /\
  Store_delete (RStore s) (VString (k +:+ String "/" q)) w =
    Throw PathResolutionError w.
Proof.
  intros Hs Hi Hc Hk.
  pose proof (step_blocked _ _ _ _ Hs Hi Hc) as Hstep.
  assert (getChildStore (RStore s) (split "/" k) w =
          Throw PathResolutionError w) as Hg.
  { unfold bare in Hk. rewrite Hk. simpl. by apply bind_Throw. }
  assert (getPropData (RStore s) (k +:+ String "/" q) w =
          Throw PathResolutionError w) as Hpd.
  { by rewrite getPropData_path, Hg. }
  pose proof (throwIfInvalidName_valid _ w (valid_with_slash k q)) as Hv.
  split; [|split; [|split; [|split]]].
  - intros Hvk. unfold Store_for.
    by rewrite (bind_Return _ _ _ _ _ (throwIfInvalidName_valid _ w Hvk)).
  - unfold Store_for. rewrite (bind_Return _ _ _ _ _ Hv).
    simpl str. rewrite split_app, getChildStore_app. by apply bind_Throw.
  - unfold Store_get.
    destruct (length (split "/" (str (VString (k +:+ String "/" q)))))
      as [|n] eqn:En.
    { destruct (split "/" (str (VString (k +:+ String "/" q)))) eqn:E;
        [|done]. by apply split_nonempty in E. }
    rewrite Nat.add_succ_r, Store_get_unfold.
    rewrite (bind_Return _ _ _ _ _ Hv). by apply bind_Throw.
  - unfold Store_set. rewrite (bind_Return _ _ _ _ _ Hv). by apply bind_Throw.
  - unfold Store_delete. rewrite (bind_Return _ _ _ _ _ Hv).
    by apply bind_Throw.
Qed.

Lemma item_blocks_path_witness :
  Store_set (RStore 0) (VString "a/key") VNull
            (world_of (clear_nested_setup init)) =
  Throw PathResolutionError (world_of (clear_nested_setup init)).
Proof.
  exact (proj1 (proj2 (proj2 (proj2
    (item_blocks_path 0 (mkMeta [("child", 1)] None [("a", VNumber 1)])
       "a" "key" VNull (world_of (clear_nested_setup init))
       eq_refl eq_refl eq_refl eq_refl))))).
Defined.

(** ** What a readonly proxy cannot do *)

(** X11: on a readonly proxy [get] and [remove] are the inherited
    methods running with the proxy as [this], for which the [WeakMap]
    has no entry: with a valid name both throw a TypeError and change
    nothing, whatever the wrapped store holds. *)
Theorem view_get_remove_fail (s : sid) (name : jsval) (rest : list jsval)
    (w : World) :
  invalidName name = false ->
  invoke (RView s) m_get (name :: rest) w = Throw TypeError w /\
  invoke (RView s) m_remove (name :: rest) w = Throw TypeError w.
Proof.
  intros Hv.
  assert (getPropData (RView s) (str name) w = Throw TypeError w) as Hpd.
  { unfold getPropData.
    destruct (pop_split "/" (str name)) as (prop & names & -> & _).
    destruct names as [|n names]; [done|].
    apply bind_Throw. simpl. by apply bind_Throw. }
  pose proof (throwIfInvalidName_valid _ w Hv) as Hok.
  split; simpl; unfold arg; simpl; apply bind_Throw.
  - unfold Store_get.
    destruct (length (split "/" (str name))) as [|n] eqn:En.
    { destruct (split "/" (str name)) eqn:E; [|done].
      by apply split_nonempty in E. }
    rewrite Nat.add_succ_r, Store_get_unfold.
    rewrite (bind_Return _ _ _ _ _ Hok). by apply bind_Throw.
  - unfold Store_delete. rewrite (bind_Return _ _ _ _ _ Hok).
    by apply bind_Throw.
Qed.

Lemma view_get_remove_fail_witness :
  invoke (RView 0) m_get [VString "a"] (world_of (clear_nested_setup init)) =
  Throw TypeError (world_of (clear_nested_setup init)).
Proof.
  exact (proj1 (view_get_remove_fail 0 (VString "a") []
                  (world_of (clear_nested_setup init)) eq_refl)).
Defined.

(** ** [root] *)

Lemma root_loop_top w p r :
  wf w -> top w p r ->
  forall fuel cur, p < fuel ->
    root_loop fuel cur (Some (RStore p)) w = Return (RStore r) w.
Proof.
  intros Hwf Ht.
  induction Ht as [s meta Hs Hp|s meta p r Hs Hp Ht IH]; intros fuel cur Hf;
    (destruct fuel as [|fuel]; [lia|]); simpl;
    rewrite (bind_Return _ _ _ _ _ (data_get_Some _ _ _ Hs)), Hp.
  - by destruct fuel.
  - apply IH.
    pose proof (wf_meta_parent _ _ _ _ (wf_lookup _ _ _ Hwf Hs) Hp) as Hlt.
    simpl in Hlt. lia.
Qed.

Lemma root_loop_inv fuel :
  forall cur anc w x w',
    root_loop fuel cur anc w = Return x w' ->
    w' = w /\
    match anc with
    | None => x = cur
    | Some a => exists p r, a = RStore p /\ x = RStore r /\ top w p r
    end.
Proof.
  induction fuel as [|fuel IH]; intros cur anc w x w'.
  - destruct anc; simpl; [done|]. by intros [= <- <-].
  - destruct anc as [a|]; simpl; [|by intros [= <- <-]].
    intros H. apply bind_Return_inv in H as (meta & w1 & H1 & H2).
    apply data_get_inv in H1 as (-> & p & -> & Hp).
    apply IH in H2 as (-> & H2). split; [done|].
    destruct (parent meta) as [a'|] eqn:Hpar.
    + destruct H2 as (p' & r & -> & -> & Ht). exists p, r.
      split; [done|]. split; [done|]. by eapply top_up.
    + subst x. exists p, p. split; [done|]. split; [done|].
      by eapply top_here.
Qed.

Lemma Store_root_top w s r :
  wf w -> top w s r -> Store_root (RStore s) w = Return (RView r) w.
Proof.
  intros Hwf Ht. unfold Store_root.
  destruct Ht as [s meta Hs Hp|s meta p r Hs Hp Ht];
    rewrite (bind_Return _ _ _ _ _ (data_get_Some _ _ _ Hs)), Hp.
  - unfold bind. by destruct (length (heap w)).
  - assert (p < length (heap w)) as Hlt.
    { pose proof (wf_meta_parent _ _ _ _ (wf_lookup _ _ _ Hwf Hs) Hp) as Hlt.
      apply lookup_lt_Some in Hs. simpl in Hlt. lia. }
    unfold bind.
    by rewrite (root_loop_top _ _ _ Hwf Ht _ (RStore s) Hlt).
Qed.

Lemma top_end w s r : top w s r -> top w r r.
Proof.
  induction 1 as [s meta Hs Hp|s meta p r Hs Hp Ht IH];
    [by eapply top_here|done].
Qed.

(** X12: in a well-formed heap [root()] of a store returns a readonly
    view of [r] exactly when [r] is the store without parent at the end
    of the chain of parents; it changes nothing; [root()] of such a
    view is again a readonly view of [r], and its [parent()] is
    undefined. *)
Theorem root_is_top (s : sid) (w : World) :
  wf w ->
  (forall r, top w s r ->
     Store_root (RStore s) w = Return (RView r) w /\
     invoke (RView r) m_root [] w = Return (Value (VStore (RView r))) w /\
     invoke (RView r) m_parent [] w = Return (Value VUndefined) w) /\
  (forall v w', Store_root (RStore s) w = Return v w' ->
     w' = w /\ exists r, v = RView r /\ top w s r).
Proof.
  intros Hwf. split.
  - intros r Ht. split; [by apply Store_root_top|].
    pose proof (top_end _ _ _ Ht) as Hr. split.
    + simpl. by rewrite (bind_Return _ _ _ _ _ (Store_root_top _ _ _ Hwf Hr)).
    + inversion Hr as [r' meta Hm Hp|r' meta p r'' Hm Hp Ht']; subst.
      * simpl. rewrite (bind_Return _ _ _ _ _ (Store_parent_Some _ _ _ Hm)).
        by rewrite Hp.
      * simpl. rewrite (bind_Return _ _ _ _ _ (Store_parent_Some _ _ _ Hm)).
        exfalso.
        pose proof (wf_meta_parent _ _ _ _ (wf_lookup _ _ _ Hwf Hm) Hp) as Hlt.
        simpl in Hlt. clear -Hwf Ht' Hlt.
        assert (forall a b, top w a b -> b <= a) as Hle.
        { induction 1 as [a m Ha Hpa|a m q b Ha Hpa Hq IH]; [lia|].
          pose proof (wf_meta_parent _ _ _ _ (wf_lookup _ _ _ Hwf Ha) Hpa) as H.
          simpl in H. lia. }
        apply Hle in Ht'. lia.
  - intros v w' H. unfold Store_root in H.
    apply bind_Return_inv in H as (meta & w1 & H1 & H).
    apply data_get_inv in H1 as (-> & s' & [= <-] & Hs).
    apply bind_Return_inv in H as (cur & w2 & H2 & H).
    apply root_loop_inv in H2 as (-> & H2). injection H as <- <-.
    split; [done|]. destruct (parent meta) as [a|] eqn:Hp.
    + destruct H2 as (p & r & -> & -> & Ht). exists r. split; [done|].
      by eapply top_up.
    + subst cur. exists s. split; [done|]. by eapply top_here.
Qed.

Lemma root_is_top_witness :
  Store_root (RStore 1) (world_of (root_and_child init)) =
    Return (RView 0) (world_of (root_and_child init)) /\
  invoke (RView 0) m_parent [] (world_of (root_and_child init)) =
    Return (Value VUndefined) (world_of (root_and_child init)).
Proof.
  destruct (proj1 (root_is_top 1 (world_of (root_and_child init)) eq_refl) 0)
    as (H1 & _ & H3).
  - eapply top_up; [reflexivity|reflexivity|].
    eapply top_here; reflexivity.
  - by split.
Defined.

(** ** Invariants of every reachable world *)

Lemma linked_alloc w m em subs :
  children m = [] -> linked w ->
  linked (mkWorld (heap w ++ [m]) em subs).
Proof.
  intros Hm. rewrite !linked_spec. intros H i mi k c. cbn -[lookup].
  destruct (decide (i < length (heap w))) as [Hi|Hi].
  - rewrite lookup_app_l by done. intros Him Hin.
    destruct (H i mi k c Him Hin) as (mc & Hmc & Hp). exists mc.
    split; [|done]. rewrite lookup_app_l; [done|by eapply lookup_lt_Some].
  - rewrite lookup_app_r by lia.
    destruct (i - length (heap w)) as [|j]; simpl; [|done].
    intros [= <-]. rewrite Hm. intros Hin. by apply elem_of_nil in Hin.
Qed.

Lemma bare_keys_alloc w m em subs :
  items m = [] -> bare_keys w ->
  bare_keys (mkWorld (heap w ++ [m]) em subs).
Proof.
  intros Hm. rewrite !bare_keys_spec. intros H i mi k v. cbn -[lookup].
  destruct (decide (i < length (heap w))) as [Hi|Hi].
  - rewrite lookup_app_l by done. apply H.
  - rewrite lookup_app_r by lia.
    destruct (i - length (heap w)) as [|j]; simpl; [|done].
    intros [= <-]. rewrite Hm. intros Hin. by apply elem_of_nil in Hin.
Qed.

(** X13: every world that a program can reach keeps three invariants:
    parents are older than their stores and children younger, every
    child registered under a store has that store as its parent, and no
    key of any items map contains a slash. *)
Theorem reachable_invariants (w : World) :
  reachable w -> wf w /\ linked w /\ bare_keys w.
Proof.
  intros Hr. split; [by apply reachable_wf|].
  induction Hr as [|ancestor w r w' _ IH Ha Hn|recv m args w res w' _ IH Hi
                  |recv m args w e w' _ IH Hi|o w n w' _ IH Hs].
  - done.
  - unfold new_Store in Hn.
    destruct (negb (isUndefined ancestor) && negb (instanceofStore ancestor));
      [done|]. injection Hn as _ <-. destruct IH as [IH1 IH2].
    split; [by apply linked_alloc|by apply bare_keys_alloc].
  - pose proof (linked_runs recv m args w) as H1.
    pose proof (bare_keys_runs recv m args w) as H2.
    rewrite Hi in H1, H2. destruct IH. split; [by apply H1|by apply H2].
  - pose proof (linked_runs recv m args w) as H1.
    pose proof (bare_keys_runs recv m args w) as H2.
    rewrite Hi in H1, H2. destruct IH. split; [by apply H1|by apply H2].
  - unfold subscribe in Hs. destruct (connect o) as [l out].
    injection Hs as _ <-. done.
Qed.

Lemma reachable_invariants_witness :
  wf (world_of (root_and_child init)) /\
  linked (world_of (root_and_child init)) /\
  bare_keys (world_of (root_and_child init)).
Proof.
  apply reachable_invariants.
  eapply (reach_return (RStore 0) m_for [VString "child"]
            (world_of (new_Store VUndefined init))); [|reflexivity].
  eapply (reach_new VUndefined init); [apply reach_init| |reflexivity].
  intros a H. discriminate H.
Defined.

(** ** [has] and paths *)

Lemma not_bare_slash p q : ~ bare (p +:+ String "/" q).
Proof.
  unfold bare. rewrite split_app. intros H.
  apply (f_equal length) in H. rewrite length_app in H.
  destruct (split "/" p) eqn:E1; [by apply split_nonempty in E1|].
  destruct (split "/" q) eqn:E2; [by apply split_nonempty in E2|].
  simpl in H. lia.
Qed.

(** X14: [has] does not resolve paths.  When no key contains a slash,
    which holds in every reachable world, [has] of a name with a slash
    is false on every store, also right after [set] with that very
    name; and [has] never changes anything. *)
Theorem has_ignores_paths (s : sid) (meta : Meta) (p q : string) (w : World) :
  bare_keys w ->
  heap w !! s = Some meta ->
  Store_has (RStore s) (VString (p +:+ String "/" q)) w = Return false w.
Proof.
  intros Hb Hs.
  rewrite (Store_has_Some _ _ _ _ Hs (valid_with_slash p q)).
  unfold Map_has_value, Map_has.
  destruct (Map_get (items meta) (p +:+ String "/" q)) as [v|] eqn:E; [|done].
  apply Map_get_elem_of in E. rewrite bare_keys_spec in Hb.
  apply (Hb s meta _ v Hs) in E. by apply not_bare_slash in E.
Qed.

Lemma has_ignores_paths_witness :
  Store_has (RStore 0) (VString "child/key")
    (world_of (Store_set (RStore 0) (VString "child/key") VNull
                 (world_of (new_Store VUndefined init)))) =
  Return false
    (world_of (Store_set (RStore 0) (VString "child/key") VNull
                 (world_of (new_Store VUndefined init)))).
Proof.
  exact (has_ignores_paths 0 (mkMeta [("child", 1)] None []) "child" "key"
           (world_of (Store_set (RStore 0) (VString "child/key") VNull
                        (world_of (new_Store VUndefined init))))
           eq_refl eq_refl).
Defined.

(** ** [for], [parent] and [root] together *)

Lemma step_linked r name w r' w' :
  linked w -> getChildStore_step r name w = Return r' w' -> linked w'.
Proof.
  intros Hl H. apply step_Return_inv in H as (s & meta & -> & Hs & [H|H]).
  - by destruct H as (c & _ & _ & ->).
  - destruct H as (_ & _ & _ & ->). by apply linked_add_child.
Qed.

Lemma top_only_adds w w' s r : only_adds w w' -> top w s r -> top w' s r.
Proof.
  intros (_ & _ & Ho & _) Ht.
  induction Ht as [s meta Hs Hp|s meta p r Hs Hp Ht IH];
    destruct (Ho s meta Hs) as (meta' & Hs' & _ & Hp').
  - apply (top_here w' s meta' Hs'). congruence.
  - apply (top_up w' s meta' p r Hs'); [congruence|done].
Qed.

Lemma step_parent s name w c w' :
  linked w ->
  getChildStore_step (RStore s) name w = Return c w' ->
  exists c' m,
    c = RStore c' /\ heap w' !! c' = Some m /\ parent m = Some (RStore s) /\
    linked w'.
Proof.
  intros Hl H.
  pose proof (step_linked _ _ _ _ _ Hl H) as Hl'.
  apply step_child_of in H as (s' & c' & [= <-] & -> & Hc).
  unfold child_of in Hc. destruct (heap w' !! s) as [meta|] eqn:Hs; [|done].
  apply Map_get_elem_of in Hc.
  destruct (proj1 (linked_spec w') Hl' s meta name c' Hs Hc) as (m & Hm & Hp).
  by exists c', m.
Qed.

Lemma getChildStore_top names :
  forall s r w c w',
    linked w -> top w s r ->
    getChildStore (RStore s) names w = Return c w' ->
    exists c', c = RStore c' /\ top w' c' r /\ linked w'.
Proof.
  induction names as [|name rest IH]; intros s r w c w' Hl Ht; simpl.
  - intros [= <- <-]. by exists s.
  - intros H. apply bind_Return_inv in H as (c1 & w1 & H1 & H2).
    pose proof (step_only_adds _ _ _ _ _ H1) as Ho.
    destruct (step_parent _ _ _ _ _ Hl H1) as (c1' & m & -> & Hm & Hp & Hl1).
    eapply IH; [exact Hl1| |exact H2].
    eapply top_up; [done|done|]. by eapply top_only_adds.
Qed.

(** X15: the store that [for(k)] returns for a bare key, whether it
    was there or has just been created, reports a readonly view of the
    store [for] was called on as its [parent()], provided every child
    registered so far has the registering store as parent (which holds
    in every reachable world and still holds afterwards). *)
Theorem for_child_parent (s : sid) (k : string) (w : World) (c : Ref)
    (w' : World) :
  linked w ->
  bare k ->
  Store_for (RStore s) (VString k) w = Return c w' ->
  Store_parent c w' = Return (VStore (RView s)) w' /\ linked w'.
Proof.
  intros Hl Hk H. unfold Store_for in H.
  apply bind_Return_inv in H as (u & w0 & H0 & H).
  destruct (throwIfInvalidName_cases (VString k) w) as [E|E];
    rewrite E in H0; [done|]. injection H0 as <- <-.
  simpl str in H. unfold bare in Hk. rewrite Hk in H. simpl in H.
  apply bind_Return_inv in H as (c1 & w1 & H1 & H2). injection H2 as <- <-.
  destruct (step_parent _ _ _ _ _ Hl H1) as (c' & m & -> & Hm & Hp & Hl').
  split; [|done]. rewrite (Store_parent_Some _ _ _ Hm). by rewrite Hp.
Qed.

Lemma for_child_parent_witness :
  Store_parent (RStore 1)
    (world_of (Store_for (RStore 0) (VString "child")
                 (world_of (new_Store VUndefined init)))) =
  Return (VStore (RView 0))
    (world_of (Store_for (RStore 0) (VString "child")
                 (world_of (new_Store VUndefined init)))).
Proof.
  exact (proj1 (for_child_parent 0 "child"
                  (world_of (new_Store VUndefined init)) (RStore 1)
                  (world_of (Store_for (RStore 0) (VString "child")
                               (world_of (new_Store VUndefined init))))
                  eq_refl eq_refl eq_refl)).
Defined.

(** X16: every store that [for] returns, through a path of any length,
    has the same [root()] as the store [for] was called on, and that
    store keeps its root. *)
Theorem for_keeps_root (s r : sid) (name : jsval) (w : World) (c : Ref)
    (w' : World) :
  wf w ->
  linked w ->
  top w s r ->
  Store_for (RStore s) name w = Return c w' ->
  Store_root c w' = Return (RView r) w' /\
  Store_root (RStore s) w' = Return (RView r) w'.
Proof.
  intros Hwf Hl Ht H. unfold Store_for in H.
  apply bind_Return_inv in H as (u & w0 & H0 & H).
  destruct (throwIfInvalidName_cases name w) as [E|E];
    rewrite E in H0; [done|]. injection H0 as <- <-.
  pose proof (getChildStore_wf _ _ _ _ _ Hwf H) as Hwf'.
  pose proof (getChildStore_only_adds _ _ _ _ _ H) as Ho.
  destruct (getChildStore_top _ _ _ _ _ _ Hl Ht H) as (c' & -> & Ht' & _).
  split; apply Store_root_top; try done. by eapply top_only_adds.
Qed.

Lemma for_keeps_root_witness :
  Store_root (RStore 3)
    (world_of (Store_for (RStore 1) (VString "x/y")
                 (world_of (root_and_child init)))) =
  Return (RView 0)
    (world_of (Store_for (RStore 1) (VString "x/y")
                 (world_of (root_and_child init)))).
Proof.
  refine (proj1 (for_keeps_root 1 0 (VString "x/y")
                   (world_of (root_and_child init)) (RStore 3)
                   (world_of (Store_for (RStore 1) (VString "x/y")
                                (world_of (root_and_child init))))
                   eq_refl eq_refl _ eq_refl)).
  eapply top_up; [reflexivity|reflexivity|].
  eapply top_here; reflexivity.
Defined.

(** ** What a subscriber to [get] receives *)

Lemma get_connect_resolves w k :
  bare k ->
  forall n r, resolves w k n r ->
  noScheduler r = true ->
  forall fuel o,
    Store_get_ (S fuel) (RStore n) (VString k) w = Return o w ->
    (connect o).2 = match r with Some v => [v] | None => [] end.
Proof.
  intros Hk n r Hr.
  induction Hr as [s v Hl|s meta Hs Hn Hp|s meta p r Hs Hn Hp Hr IH];
    intros Hns fuel o H;
    apply Store_get_inv in H
      as (s' & prop & names & meta' & inherit & Hv & Hpop & Hg & Hs' & Hi & ->);
    simpl in Hpop; rewrite (pop_bare _ Hk) in Hpop; injection Hpop as <- <-;
    simpl in Hg; injection Hg as <-.
  - unfold local in Hl. rewrite Hs' in Hl.
    unfold changes_obs, Map_has. rewrite Hl.
    simpl in Hns. by destruct v.
  - rewrite Hs in Hs'. injection Hs' as <-. rewrite Hp in Hi. subst inherit.
    unfold changes_obs, Map_has. rewrite Hn. done.
  - rewrite Hs in Hs'. injection Hs' as <-. rewrite Hp in Hi.
    destruct fuel as [|fuel]; [done|].
    specialize (IH Hns fuel inherit Hi).
    unfold changes_obs, Map_has. rewrite Hn. simpl.
    destruct (connect inherit) as [ss outs]. simpl in IH. subst outs.
    by destruct (completed ss).
Qed.

(** X17: what a subscriber to [n.get(k)] receives at once is the value
    under [k] of the nearest store on the parent chain of [n], [n]
    included, that held [k] when [get] was called: one value if there
    is such a store, none if no store up to the root holds [k].  The
    value of that nearest store must not have a method [schedule],
    which rxjs would take for a scheduler. *)
Theorem get_replays_nearest (n : sid) (k : string) (r : option jsval)
    (w : World) (o : Obs) (w1 : World) :
  bare k ->
  resolves w k n r ->
  noScheduler r = true ->
  Store_get (RStore n) (VString k) w = Return o w1 ->
  w1 = w /\
  forall w2, exists m w3,
    subscribe o w2 = Return m w3 /\
    seen w3 m = match r with Some v => [v] | None => [] end.
Proof.
  intros Hk Hr Hns H. unfold Store_get in H. simpl str in H.
  pose proof Hk as Hk'. unfold bare in Hk'. rewrite Hk' in H.
  simpl length in H. rewrite Nat.add_succ_r in H.
  pose proof (get_bare_world _ _ _ _ _ _ Hk H) as ->. split; [done|].
  intros w2. destruct (subscribe_seen o w2) as (m & w3 & Hsub & Hseen & _).
  exists m, w3. split; [done|]. rewrite Hseen.
  by eapply get_connect_resolves.
Qed.

Lemma get_replays_nearest_witness :
  exists m w3,
    subscribe
      (OMerge (OItemSet 1 "a")
         (OTakeUntil
            (OMerge (OStartWith (VNumber 1) (OItemSet 0 "a"))
               (OTakeUntil OEmpty (OStartWith (VNumber 1) (OItemSet 0 "a"))))
            (OItemSet 1 "a")))
      init = Return m w3 /\
    seen w3 m = [VNumber 1].
Proof.
  refine (proj2 (get_replays_nearest 1 "a" (Some (VNumber 1))
                   (world_of (clear_nested_setup init)) _
                   (world_of (clear_nested_setup init))
                   eq_refl _ eq_refl eq_refl) init).
  eapply resolves_up; [reflexivity|reflexivity|reflexivity|].
  apply resolves_local. reflexivity.
Defined.

(** ** A local value overrides the ancestors for good *)

Lemma notify_all_cons s e evs sub :
  notify_all ((s, e) :: evs) sub = notify_all evs (notify s e sub).
Proof. done. Qed.

Lemma notify_all_app evs1 evs2 sub :
  notify_all (evs1 ++ evs2) sub = notify_all evs2 (notify_all evs1 sub).
Proof. unfold notify_all. apply foldl_app. Qed.

Lemma local_values_cons n k s e evs :
  local_values n k ((s, e) :: evs) =
  match e with
  | ItemSet name v =>
      if Nat.eqb n s && String.eqb k name
      then v :: local_values n k evs else local_values n k evs
  | _ => local_values n k evs
  end.
Proof.
  destruct e as [name v| | |]; try done.
  unfold local_values. simpl.
  by destruct (Nat.eqb n s && String.eqb k name).
Qed.

Lemma notify_all_overriding n k evs :
  forall rec,
    notify_all evs (mkSubscription (overriding n k) rec) =
    mkSubscription (overriding n k) (rec ++ local_values n k evs).
Proof.
  induction evs as [|[s e] evs IH]; intros rec.
  - simpl. by rewrite app_nil_r.
  - rewrite notify_all_cons, local_values_cons.
    destruct e as [name v| | |]; try (by rewrite <- IH).
    assert (notify s (ItemSet name v) (mkSubscription (overriding n k) rec) =
            mkSubscription (overriding n k)
              (rec ++ if Nat.eqb n s && String.eqb k name then [v] else []))
      as ->.
    { unfold notify, overriding. simpl.
      by destruct (Nat.eqb n s && String.eqb k name). }
    rewrite IH.
    destruct (Nat.eqb n s && String.eqb k name).
    + by rewrite <- app_assoc.
    + by rewrite app_nil_r.
Qed.

Lemma getting_notify_all n k evs :
  forall sub,
    getting n k (listeners sub) ->
    getting n k (listeners (notify_all evs sub)).
Proof.
  induction evs as [|[s e] evs IH]; intros sub Hg; [done|].
  rewrite notify_all_cons. by apply IH, getting_notify.
Qed.

(** X18: once the store [n] itself has emitted an item-set for the
    bare key [k], a subscriber to [n.get(k)] receives from then on
    exactly the values that [n] sets under [k]: nothing that an
    ancestor or any other store sets, nothing for another key, and each
    local value once, whatever events came before and come after.  A
    value that [n] held under [k] at the call to [get] must not have a
    method [schedule]: rxjs would take it for a scheduler and leave it
    to that method when, if ever, the subscriber starts to listen. *)
Theorem local_set_overrides (n : sid) (k : string) (w : World) (o : Obs)
    (w1 : World) (evs1 : list (sid * Event)) (v : jsval)
    (evs2 : list (sid * Event)) :
  bare k ->
  noScheduler (local w n k) = true ->
  Store_get (RStore n) (VString k) w = Return o w1 ->
  received (notify_all (evs1 ++ (n, ItemSet k v) :: evs2)
              (mkSubscription (connect o).1 (connect o).2)) =
  received (notify_all evs1 (mkSubscription (connect o).1 (connect o).2))
    ++ v :: local_values n k evs2.
Proof.
  intros Hk Hns H. unfold Store_get in H. simpl str in H.
  pose proof Hk as Hk'. unfold bare in Hk'. rewrite Hk' in H.
  simpl length in H. rewrite Nat.add_succ_r in H.
  apply Store_get_inv in H
    as (s & prop & names & meta & inherit & Hv & Hp & Hg & Hs & Hi & ->).
  simpl in Hp. rewrite (pop_bare _ Hk) in Hp. injection Hp as <- <-.
  simpl in Hg. injection Hg as <- <-.
  assert (forall v0, Map_get (items meta) k = Some v0 ->
                     isScheduler v0 = false) as Hns'.
  { intros v0 Hv0. unfold local in Hns. rewrite Hs, Hv0 in Hns.
    simpl in Hns. by destruct (isScheduler v0). }
  pose proof (getting_connect meta n k inherit Hns') as Hc.
  simpl str.
  set (sub := mkSubscription _ _).
  assert (getting n k (listeners sub)) as Hsub by done.
  rewrite notify_all_app, notify_all_cons.
  rewrite (getting_notify_local n k v _ (getting_notify_all n k evs1 sub Hsub)).
  rewrite notify_all_overriding. simpl received. by rewrite <- app_assoc.
Qed.

Lemma local_set_overrides_witness :
  received
    (notify_all
       ([(0, ItemSet "key" (VNumber 1))] ++
        (1, ItemSet "key" (VNumber 2)) ::
        [(0, ItemSet "key" (VNumber 3)); (1, ItemSet "key" (VNumber 4))])
       (mkSubscription
          (connect
             (OMerge (OItemSet 1 "key")
                (OTakeUntil
                   (OMerge (OItemSet 0 "key")
                      (OTakeUntil OEmpty (OItemSet 0 "key")))
                   (OItemSet 1 "key")))).1
          (connect
             (OMerge (OItemSet 1 "key")
                (OTakeUntil
                   (OMerge (OItemSet 0 "key")
                      (OTakeUntil OEmpty (OItemSet 0 "key")))
                   (OItemSet 1 "key")))).2)) =
  received
    (notify_all [(0, ItemSet "key" (VNumber 1))]
       (mkSubscription
          (connect
             (OMerge (OItemSet 1 "key")
                (OTakeUntil
                   (OMerge (OItemSet 0 "key")
                      (OTakeUntil OEmpty (OItemSet 0 "key")))
                   (OItemSet 1 "key")))).1
          (connect
             (OMerge (OItemSet 1 "key")
                (OTakeUntil
                   (OMerge (OItemSet 0 "key")
                      (OTakeUntil OEmpty (OItemSet 0 "key")))
                   (OItemSet 1 "key")))).2))
    ++ VNumber 2 ::
       local_values 1 "key"
         [(0, ItemSet "key" (VNumber 3)); (1, ItemSet "key" (VNumber 4))].
Proof.
  exact (local_set_overrides 1 "key" (world_of (root_and_child init)) _
           (world_of (root_and_child init))
           [(0, ItemSet "key" (VNumber 1))] (VNumber 2)
           [(0, ItemSet "key" (VNumber 3)); (1, ItemSet "key" (VNumber 4))]
           eq_refl eq_refl eq_refl).
Defined.

(** ** The methods that only read *)

Lemma root_loop_same fuel :
  forall cur anc w,
    match root_loop fuel cur anc w with
    | Return _ w' | Throw _ w' => w' = w
    | Diverge => True
    end.
Proof.
  induction fuel as [|fuel IH]; intros cur anc w.
  - by destruct anc.
  - destruct anc as [a|]; simpl; [|done]. unfold bind, data_get.
    destruct a as [s|s]; [|done].
    destruct (heap w !! s) as [meta|]; [|done]. apply IH.
Qed.

(** X20: [has], [parent] and [root] only read: called on a store or
    on a readonly proxy, with any arguments, they leave the heap, the
    event log and the subscribers exactly as they were, whether they
    return or throw (unlike [get], which creates the stores of a path),
    and in a well-formed heap they always come back. *)
Theorem queries_change_nothing (recv : Ref) (m : Method) (args : list jsval)
    (w : World) :
  wf w ->
  m ∈ queries ->
  match invoke recv m args w with
  | Return _ w' | Throw _ w' => w' = w
  | Diverge => False
  end.
Proof.
  intros Hwf Hm.
  assert (invoke recv m args w = prototype m (RStore (target recv)) args w)
    as ->.
  { destruct recv as [s|s]; [done|].
    unfold queries in Hm. rewrite !elem_of_cons in Hm.
    by destruct Hm as [->|[->|[->|Hm]]]; [| | |apply elem_of_nil in Hm]. }
  unfold queries in Hm. rewrite !elem_of_cons in Hm.
  destruct Hm as [->|[->|[->|Hm]]]; [| | |by apply elem_of_nil in Hm]; simpl.
  - unfold Store_has, bind.
    destruct (throwIfInvalidName_cases (arg 0 args) w) as [E|E]; rewrite E;
      [done|].
    unfold data_get. by destruct (heap w !! target recv).
  - unfold Store_parent, bind, data_get.
    by destruct (heap w !! target recv).
  - pose proof (Store_root_no_Diverge (RStore (target recv)) w Hwf) as Hnd.
    unfold Store_root, bind, data_get in *.
    destruct (heap w !! target recv) as [meta|]; [|done].
    pose proof (root_loop_same (length (heap w)) (RStore (target recv))
                  (parent meta) w) as Hsame.
    by destruct (root_loop (length (heap w)) (RStore (target recv))
                   (parent meta) w).
Qed.

Lemma queries_change_nothing_witness :
  match invoke (RView 0) m_has [VString "child"]
          (world_of (root_and_child init)) with
  | Return _ w' | Throw _ w' => w' = world_of (root_and_child init)
  | Diverge => False
  end.
Proof.
  apply queries_change_nothing; [reflexivity|].
  apply list_elem_of_here.
Defined.

(** ** [clear] and the tree *)

(** X21: in a well-formed heap [clear] always returns; it leaves the
    tree as it was (every store keeps its children and its parent, and
    the heap stays well-formed), tells the subscribers of [get]
    nothing, does not touch any store older than the one it was called
    on (so no ancestor), and afterwards [has] is false on that store
    for every valid name. *)
Theorem clear_keeps_tree (s : sid) (meta : Meta) (nested : jsval) (w : World) :
  wf w ->
  heap w !! s = Some meta ->
  exists w',
    Store_clear (RStore s) nested w = Return tt w' /\
    wf w' /\ shape w' = shape w /\
    subscriptions w' = subscriptions w /\
    (forall i, i < s -> heap w' !! i = heap w !! i) /\
    (forall k, invalidName k = false ->
       Store_has (RStore s) k w' = Return false w').
Proof.
  intros Hwf Hm.
  destruct (clear_children s meta nested w Hwf Hm) as (w2 & H2 & _ & _ & Hp2).
  pose proof (clear_post_own _ _ _ Hwf Hm) as Hown.
  assert (clear_post s w w2) as Hp.
  { eapply (clear_post_trans s (S s)); [lia|exact Hown|exact Hp2]. }
  apply (clear_post_emit s StoreCleared) in Hp.
  eexists. split; [by eapply Store_clear_decompose|].
  destruct Hp as (Hwf' & Hsh & Hsub & Hfr & _).
  split; [done|]. split; [done|]. split; [done|]. split; [done|].
  intros k Hk.
  destruct Hp2 as (_ & _ & _ & Hfr2 & _).
  assert (heap w2 !! s = Some (mkMeta (children meta) (parent meta) [])) as Hs2.
  { rewrite Hfr2 by lia. by apply clear_own_lookup. }
  rewrite (Store_has_Some s _ k
             (mkWorld (heap w2) (emitted w2 ++ [(s, StoreCleared)])
                      (subscriptions w2)) Hs2 Hk).
  by destruct k.
Qed.

Lemma clear_keeps_tree_witness :
  exists w',
    Store_clear (RStore 0) (VBool true) (world_of (clear_nested_setup init)) =
      Return tt w' /\
    shape w' = shape (world_of (clear_nested_setup init)) /\
    Store_has (RStore 0) (VString "a") w' = Return false w'.
Proof.
  destruct (clear_keeps_tree 0
              (mkMeta [("child", 1)] None [("a", VNumber 1)]) (VBool true)
              (world_of (clear_nested_setup init)) eq_refl eq_refl)
    as (w' & H1 & _ & H2 & _ & _ & H3).
  exists w'. split; [exact H1|]. split; [exact H2|].
  apply H3. reflexivity.
Defined.

(** ** A failing path is not rolled back *)

(** X22: [for(p/q)] on a store that has neither a child nor an item
    [p], where [q] is a name that plain objects inherit (such as
    [constructor]), creates and announces the child [p] and then throws
    'Path does not resolve to a Store.' at [q]: the store created
    before the failing segment stays registered, so the failed call
    has added a store. *)
Theorem failed_for_not_rolled_back (s : sid) (meta : Meta) (p q : string)
    (w : World) :
  heap w !! s = Some meta ->
  Object_get (children meta) p = LUndefined ->
  Map_has (items meta) p = false ->
  bare p -> bare q ->
  inObjectPrototype q = true ->
  Store_for (RStore s) (VString (p +:+ String "/" q)) w =
    Throw PathResolutionError (add_child w s meta p) /\
  child_of w s p = None /\
  child_of (add_child w s meta p) s p = Some (length (heap w)) /\
  only_adds w (add_child w s meta p).
Proof.
  intros Hs Hu Hi Hp Hq Hin.
  pose proof (lookup_lt_Some _ _ _ Hs) as Hlt.
  split; [|split; [|split]].
  - unfold Store_for.
    rewrite (bind_Return _ _ _ _ _
               (throwIfInvalidName_valid _ w (valid_with_slash p q))).
    simpl str. rewrite split_app. unfold bare in Hp, Hq. rewrite Hp, Hq.
    simpl app. cbn [getChildStore].
    rewrite (bind_Return _ _ _ _ _ (step_create _ _ _ _ Hs Hu Hi)).
    apply bind_Throw.
    apply (step_inherited _ (mkMeta [] (Some (RStore s)) [])).
    + unfold add_child. cbn -[lookup insert].
      rewrite list_lookup_insert_ne by lia.
      rewrite lookup_app_r by lia. by rewrite Nat.sub_diag.
    + unfold Object_get. simpl. by rewrite Hin.
  - unfold child_of. rewrite Hs. by apply Object_get_undefined.
  - by apply child_of_add_child.
  - apply only_adds_add_child; [done|]. by apply Object_get_undefined.
Qed.

Lemma failed_for_not_rolled_back_witness :
  Store_for (RStore 0) (VString "a/constructor")
    (world_of (new_Store VUndefined init)) =
  Throw PathResolutionError
    (add_child (world_of (new_Store VUndefined init)) 0
       (mkMeta [] None []) "a") /\
  child_of (add_child (world_of (new_Store VUndefined init)) 0
              (mkMeta [] None []) "a") 0 "a" = Some 1.
Proof.
  destruct (failed_for_not_rolled_back 0 (mkMeta [] None []) "a" "constructor"
              (world_of (new_Store VUndefined init))
              eq_refl eq_refl eq_refl eq_refl eq_refl eq_refl)
    as (H1 & _ & H2 & _).
  split; [exact H1|exact H2].
Defined.
